(** * Fake quantisation, per-tensor affine scheme (CPU)

    A shallow embedding of
    [aten/src/ATen/native/quantized/cpu/fake_quantize_per_tensor_affine.cpp]:
    the forward operator [fake_quantize_per_tensor_affine_cpu] and the
    backward operator [fake_quantize_per_tensor_affine_backward_cpu].

    Tensor elements are IEEE-754 binary floating-point numbers, modelled by
    the [spec_float] type of the standard library ([SpecFloat]), with the
    rounding of every arithmetic step written out (round to nearest, ties to
    even).  A [Float] tensor computes in binary32, a [Double] tensor in
    binary64; the [double scale] argument is a binary64 number.  The
    [int64_t] arguments are integers ([Z]); the code only compares them and
    converts them to floating point.

    The operations of the tensor library that the two operators call follow
    ATen: an operation between a tensor and a scalar keeps the element type
    of the tensor and converts the scalar to it; [clamp_min] and [clamp_max]
    let a NaN through; a comparison yields a mask of 0/1 values.  Both
    operators are elementwise, so a tensor is modelled by its element type
    and the sequence of its elements; shapes and strides are left out.

    The exact value of a floating-point number is a rational number ([Q]);
    values state what [floor] returns and bound the rounding error of
    dequantisation followed by requantisation. *)

From Stdlib Require Import ZArith QArith Qpower Qround Lqa.
From Stdlib Require Import List Bool String Lia.
From Stdlib Require Import Floats.SpecFloat.
Import ListNotations.

Local Open Scope Z_scope.

(** ** Exceptions and results *)

(** The three exception classes the two operators throw.  [TORCH_CHECK]
    raises a [c10::Error]; the other two carry their [what()] message. *)
Inductive exception : Type :=
| c10_Error
| invalid_argument (what : string)
| length_error (what : string).

Inductive result (A : Type) : Type :=
| Ok (a : A)
| Throw (e : exception).

Arguments Ok {A} a.
Arguments Throw {A} e.

Definition bind {A B : Type} (r : result A) (k : A -> result B) : result B :=
  match r with
  | Ok a => k a
  | Throw e => Throw e
  end.

Notation "r ;; k" := (bind r (fun _ => k))
  (at level 61, right associativity).

(** [if (cond) throw e;] *)
Definition throw_if (cond : bool) (e : exception) : result unit :=
  if cond then Throw e else Ok tt.

(** [TORCH_CHECK(cond);] *)
Definition TORCH_CHECK (cond : bool) : result unit :=
  if cond then Ok tt else Throw c10_Error.

(** The error kinds of the specification, as the exceptions of the source. *)
Definition InvalidRange : exception :=
  invalid_argument "`quant_min` should be less than or equal to `quant_max`.".
Definition InvalidZeroPoint : exception :=
  invalid_argument "`zero_point` must be a positive integer.".
Definition InvalidDelay : exception :=
  invalid_argument "`quant_delay` must be a positive integer.".
Definition InvalidIteration : exception :=
  invalid_argument "`iter` must be >=0 for non-zero `quant_delay`".
Definition EmptyInput : exception :=
  length_error "`X` is empty".
Definition SizeMismatch : exception :=
  invalid_argument "`X` and `dY` are not the same size".

(** ** Scalar types and floating-point formats *)

(** The floating-point element types ([ScalarType::Float],
    [ScalarType::Double]). *)
Inductive ScalarType : Type := Float | Double.

Definition ScalarType_eqb (a b : ScalarType) : bool :=
  match a, b with
  | Float, Float | Double, Double => true
  | _, _ => false
  end.

(** Precision (bits of mantissa, hidden bit included) and exponent of the
    infinities, per format. *)
Definition prec (st : ScalarType) : Z :=
  match st with Float => 24 | Double => 53 end.
Definition emax (st : ScalarType) : Z :=
  match st with Float => 128 | Double => 1024 end.

Definition valid (st : ScalarType) (x : spec_float) : bool :=
  valid_binary (prec st) (emax st) x.

(** Rounding a floating-point number of any format into format [st]
    ([static_cast<float>(double)] and the like). *)
Definition round_to (st : ScalarType) (x : spec_float) : spec_float :=
  match x with
  | S754_finite s m e => binary_round (prec st) (emax st) s m e
  | _ => x
  end.

(** [static_cast<T>(int64_t)]. *)
Definition of_int (st : ScalarType) (n : Z) : spec_float :=
  binary_normalize (prec st) (emax st) n 0 false.

(** [std::floor]: the largest integral value not above [x]. *)
Definition SFfloor (st : ScalarType) (x : spec_float) : spec_float :=
  match x with
  | S754_finite s m e =>
      if 0 <=? e then x
      else binary_normalize (prec st) (emax st)
             (Z.shiftr (cond_Zopp s (Zpos m)) (- e)) 0 s
  | _ => x
  end.

(** A [c10::Scalar]: a [double] or an [int64_t]; a C++ [float] literal is
    stored as a [double]. *)
Inductive Scalar : Type :=
| ScalarDouble (d : spec_float)
| ScalarInt (n : Z).

(** [Scalar::to<T>()] for the element type [T] of a tensor. *)
Definition Scalar_to (st : ScalarType) (s : Scalar) : spec_float :=
  match s with
  | ScalarDouble d => round_to st d
  | ScalarInt n => of_int st n
  end.

(** The literals [1.0f], [0.5f] and [0.5], as binary64 numbers. *)
Definition one_d : spec_float := S754_finite false 4503599627370496 (-52).
Definition half_d : spec_float := S754_finite false 4503599627370496 (-53).

(** ** Tensors *)

(** The tensor library (ATen: [at::Tensor] and its operations) is not part of
    this file.  The specification takes it as an external collaborator: an
    array is an ordered sequence of IEEE-754 numbers of which only the
    element count and the element values matter, with elementwise arithmetic
    primitives ([+ - * / floor clamp copy]).  Where the specification is
    silent (the element type of a result, a NaN under [clamp], the form of a
    mask) the definitions follow the behaviour of ATen. *)

(** Modelled from the spec: the array type ([at::Tensor]), as its element
    type and its elements in order. *)
Record Tensor : Type := mkTensor {
  scalar_type : ScalarType;
  data : list spec_float
}.

(** Modelled from the spec: the element count ([Tensor::numel]). *)
Definition numel (t : Tensor) : Z := Z.of_nat (List.length (data t)).

(** The result of a comparison: one truth value per element. *)
Definition Mask : Type := list bool.

Definition pointwise (f : spec_float -> spec_float) (t : Tensor) : Tensor :=
  mkTensor (scalar_type t) (map f (data t)).

(** Modelled from the spec: [at::empty_like], an array of the same element
    type and size; its contents are unspecified and are zero here. *)
Definition empty_like (t : Tensor) : Tensor :=
  pointwise (fun _ => S754_zero false) t.

(** Modelled from the spec: [at::zeros_like], an array of zeros of the same
    element type and size. *)
Definition zeros_like (t : Tensor) : Tensor :=
  pointwise (fun _ => S754_zero false) t.

(** Modelled from the spec: the copy primitive [dst.copy_(src)], the
    elements of [src] converted to the element type of [dst]. *)
Definition copy_ (dst src : Tensor) : Tensor :=
  mkTensor (scalar_type dst)
    (if ScalarType_eqb (scalar_type dst) (scalar_type src) then data src
     else map (round_to (scalar_type dst)) (data src)).

(** Modelled from the spec: the primitive [*] between an array and a
    scalar.  The result has the element type of the array and the scalar is
    converted to it. *)
Definition mul_s (t : Tensor) (s : Scalar) : Tensor :=
  let st := scalar_type t in
  pointwise (fun x => SFmul (prec st) (emax st) x (Scalar_to st s)) t.

(** Modelled from the spec: the primitive [+] between an array and a
    scalar. *)
Definition add_s (t : Tensor) (s : Scalar) : Tensor :=
  let st := scalar_type t in
  pointwise (fun x => SFadd (prec st) (emax st) x (Scalar_to st s)) t.

(** Modelled from the spec: the primitive [-] between an array and a
    scalar. *)
Definition sub_s (t : Tensor) (s : Scalar) : Tensor :=
  let st := scalar_type t in
  pointwise (fun x => SFsub (prec st) (emax st) x (Scalar_to st s)) t.

(** Modelled from the spec: the primitive [floor] ([Tensor::floor]). *)
Definition floor (t : Tensor) : Tensor :=
  pointwise (SFfloor (scalar_type t)) t.

(** An element below the bound is replaced by it; a NaN stays a NaN. *)
Definition clamp_min_elt (lo x : spec_float) : spec_float :=
  if SFltb x lo then lo else x.
(** An element above the bound is replaced by it; a NaN stays a NaN. *)
Definition clamp_max_elt (hi x : spec_float) : spec_float :=
  if SFltb hi x then hi else x.

(** Modelled from the spec: the lower half of the primitive [clamp]
    ([Tensor::clamp_min]). *)
Definition clamp_min (t : Tensor) (s : Scalar) : Tensor :=
  pointwise (clamp_min_elt (Scalar_to (scalar_type t) s)) t.
(** Modelled from the spec: the upper half of the primitive [clamp]
    ([Tensor::clamp_max]). *)
Definition clamp_max (t : Tensor) (s : Scalar) : Tensor :=
  pointwise (clamp_max_elt (Scalar_to (scalar_type t) s)) t.

(** Modelled from the spec: the comparison [t >= s] of an array with a
    scalar, the scalar converted to the element type of the array. *)
Definition ge_s (t : Tensor) (s : Scalar) : Mask :=
  map (fun x => SFleb (Scalar_to (scalar_type t) s) x) (data t).
(** Modelled from the spec: the comparison [t <= s]. *)
Definition le_s (t : Tensor) (s : Scalar) : Mask :=
  map (fun x => SFleb x (Scalar_to (scalar_type t) s)) (data t).

(** Modelled from the spec: the product of two masks of 0/1 values, their
    conjunction. *)
Definition mask_mul (a b : Mask) : Mask :=
  map (fun p => andb (fst p) (snd p)) (combine a b).

(** Modelled from the spec: [mask.type_as(t)], the mask as 1 and 0 in the
    element type of [t]. *)
Definition type_as (m : Mask) (t : Tensor) : Tensor :=
  mkTensor (scalar_type t)
    (map (fun b : bool => of_int (scalar_type t) (if b then 1 else 0)) m).

(** Modelled from the spec: the primitive [*] between two arrays of one
    element type and size. *)
Definition mul (a b : Tensor) : Tensor :=
  let st := scalar_type a in
  mkTensor st
    (map (fun p => SFmul (prec st) (emax st) (fst p) (snd p))
         (combine (data a) (data b))).

(** ** The delay gate *)

(** [quant_delay > 0 && iter <= quant_delay]: quantisation is suppressed. *)
Definition suppressed (quant_delay iter : Z) : bool :=
  (0 <? quant_delay) && (iter <=? quant_delay).

(** ** The forward operator *)

Definition fake_quantize_per_tensor_affine_cpu
    (self : Tensor) (scale : spec_float)
    (zero_point quant_min quant_max quant_delay iter : Z) : result Tensor :=
  TORCH_CHECK (ScalarType_eqb (scalar_type self) Float) ;;
  throw_if (quant_max <? quant_min) InvalidRange ;;
  throw_if (zero_point <? 0) InvalidZeroPoint ;;
  throw_if (quant_delay <? 0) InvalidDelay ;;
  throw_if (negb (quant_delay =? 0) && (iter <? 0)) InvalidIteration ;;
  let Y := empty_like self in
  if suppressed quant_delay iter then Ok (copy_ Y self)
  else
    let inv_scale := SFdiv (prec Double) (emax Double) one_d scale in
    Ok (mul_s
          (sub_s
             (clamp_max
                (clamp_min
                   (add_s
                      (floor (add_s (mul_s self (ScalarDouble inv_scale))
                                    (ScalarDouble half_d)))
                      (ScalarInt zero_point))
                   (ScalarInt quant_min))
                (ScalarInt quant_max))
             (ScalarInt zero_point))
          (ScalarDouble scale)).

(** ** The backward operator *)

Definition fake_quantize_per_tensor_affine_backward_cpu
    (dY X : Tensor) (scale : spec_float)
    (zero_point quant_min quant_max quant_delay iter : Z) : result Tensor :=
  throw_if (quant_max <? quant_min) InvalidRange ;;
  throw_if (zero_point <? 0) InvalidZeroPoint ;;
  throw_if (quant_delay <? 0) InvalidDelay ;;
  throw_if (numel X <=? 0) EmptyInput ;;
  throw_if (negb (numel X =? numel dY)) SizeMismatch ;;
  throw_if (negb (quant_delay =? 0) && (iter <? 0)) InvalidIteration ;;
  let dX := zeros_like dY in
  if suppressed quant_delay iter then Ok (copy_ dX dY)
  else
    let inv_scale := SFdiv (prec Double) (emax Double) one_d scale in
    let Xq := add_s (floor (add_s (mul_s X (ScalarDouble inv_scale))
                                  (ScalarDouble half_d)))
                    (ScalarInt zero_point) in
    let mask_min := ge_s Xq (ScalarInt quant_min) in
    let mask_max := le_s Xq (ScalarInt quant_max) in
    let mask := mask_mul mask_min mask_max in
    Ok (mul (type_as mask dY) dY).

(** ** Literals for examples *)

(** The binary32 (binary64) number nearest to [num / den]. *)
Definition f32 (num den : Z) : spec_float :=
  SFdiv (prec Float) (emax Float) (of_int Float num) (of_int Float den).
Definition f64 (num den : Z) : spec_float :=
  SFdiv (prec Double) (emax Double) (of_int Double num) (of_int Double den).

(** ** Elementwise reading of the two operators *)

(** Element [i] of a tensor. *)
Definition get (t : Tensor) (i : nat) : spec_float := nth i (data t) S754_nan.

Definition size (t : Tensor) : nat := List.length (data t).

Section Elementwise.
Variable st : ScalarType.
Variable scale : spec_float.
Variables zero_point quant_min quant_max : Z.

(** [inv_scale = 1 / scale], computed in binary64. *)
Definition inv_scale : spec_float :=
  SFdiv (prec Double) (emax Double) one_d scale.

(** Round half up: [floor(x + 0.5)]. *)
Definition round_half_up (x : spec_float) : spec_float :=
  SFfloor st (SFadd (prec st) (emax st) x (round_to st half_d)).

(** The quantised value before clamping:
    [floor(x * inv_scale + 0.5) + zero_point]. *)
Definition Xq_elt (x : spec_float) : spec_float :=
  SFadd (prec st) (emax st)
    (round_half_up (SFmul (prec st) (emax st) x (round_to st inv_scale)))
    (of_int st zero_point).

(** [clamp(v, lo, hi) = min(max(v, lo), hi)]. *)
Definition clamp (v lo hi : spec_float) : spec_float :=
  clamp_max_elt hi (clamp_min_elt lo v).

(** [q(x) = clamp(floor(x * inv_scale + 0.5) + zero_point,
                  quant_min, quant_max)]. *)
Definition q_elt (x : spec_float) : spec_float :=
  clamp (Xq_elt x) (of_int st quant_min) (of_int st quant_max).

(** [(q - zero_point) * scale]. *)
Definition dequantize_elt (c : spec_float) : spec_float :=
  SFmul (prec st) (emax st)
    (SFsub (prec st) (emax st) c (of_int st zero_point))
    (round_to st scale).

(** [Y[i] = (q(X[i]) - zero_point) * scale]. *)
Definition fake_quantize_elt (x : spec_float) : spec_float :=
  dequantize_elt (q_elt x).

(** [quant_min <= Xq <= quant_max], both bounds inclusive. *)
Definition in_range (x : spec_float) : bool :=
  SFleb (of_int st quant_min) (Xq_elt x)
  && SFleb (Xq_elt x) (of_int st quant_max).
End Elementwise.

(** The gradient by selection, [mask ? dy : 0], and by multiplication with
    the 0/1 mask, [mask * dy], in the element type [st]. *)
Definition select_elt (mask : bool) (dy : spec_float) : spec_float :=
  if mask then dy else S754_zero false.

Definition mask_times (st : ScalarType) (mask : bool) (dy : spec_float)
  : spec_float :=
  SFmul (prec st) (emax st) (of_int st (if mask then 1 else 0)) dy.

Definition is_zero (x : spec_float) : bool :=
  match x with S754_zero _ => true | _ => false end.

(** Finite numbers, zeros included. *)
Definition is_finite (x : spec_float) : bool :=
  match x with S754_zero _ | S754_finite _ _ _ => true | _ => false end.

(** Element [i] of the gradient: the mask of [X[i]], computed in the element
    type of [X], times [dY[i]], in the element type of [dY]. *)
Definition backward_elt (stX stY : ScalarType) (scale : spec_float)
    (zero_point quant_min quant_max : Z) (x dy : spec_float) : spec_float :=
  mask_times stY (in_range stX scale zero_point quant_min quant_max x) dy.

(** ** Validation and the delay gate, as the specification words them *)

(** The parameters pass the four checks on the scalars. *)
Definition params_valid (zero_point quant_min quant_max quant_delay iter : Z)
  : Prop :=
  quant_min <= quant_max /\ 0 <= zero_point /\ 0 <= quant_delay /\
  (quant_delay <> 0 -> 0 <= iter).

(** The delay gate is active: [quant_delay == 0] or [iter > quant_delay]. *)
Definition gate_active (quant_delay iter : Z) : Prop :=
  quant_delay = 0 \/ quant_delay < iter.

(** The first check of a list that fires, if any. *)
Fixpoint first_violated (checks : list (bool * exception)) : option exception :=
  match checks with
  | [] => None
  | (c, e) :: rest => if c then Some e else first_violated rest
  end.

(** The order of the checks of the forward operator, after the check of the
    element type. *)
Definition forward_checks
    (zero_point quant_min quant_max quant_delay iter : Z)
  : list (bool * exception) :=
  [ (quant_max <? quant_min, InvalidRange);
    (zero_point <? 0, InvalidZeroPoint);
    (quant_delay <? 0, InvalidDelay);
    (negb (quant_delay =? 0) && (iter <? 0), InvalidIteration) ].

(** The order of the checks of the backward operator. *)
Definition backward_checks (dY X : Tensor)
    (zero_point quant_min quant_max quant_delay iter : Z)
  : list (bool * exception) :=
  [ (quant_max <? quant_min, InvalidRange);
    (zero_point <? 0, InvalidZeroPoint);
    (quant_delay <? 0, InvalidDelay);
    (numel X <=? 0, EmptyInput);
    (negb (numel X =? numel dY), SizeMismatch);
    (negb (quant_delay =? 0) && (iter <? 0), InvalidIteration) ].

(** The order of the checks that the specification states for the backward
    operator: the four checks on the scalars, then [EmptyInput], then
    [SizeMismatch]. *)
Definition stated_backward_checks (dY X : Tensor)
    (zero_point quant_min quant_max quant_delay iter : Z)
  : list (bool * exception) :=
  [ (quant_max <? quant_min, InvalidRange);
    (zero_point <? 0, InvalidZeroPoint);
    (quant_delay <? 0, InvalidDelay);
    (negb (quant_delay =? 0) && (iter <? 0), InvalidIteration);
    (numel X <=? 0, EmptyInput);
    (negb (numel X =? numel dY), SizeMismatch) ].

(** ** Data of the concrete scenarios *)

(** [X = [0.2, 0.6, -0.4, 300.0]] and [dY = [1.0, 1.0, 1.0, 1.0]]. *)
Definition X_scenario : Tensor :=
  mkTensor Float [f32 2 10; f32 6 10; f32 (-4) 10; f32 300 1].
Definition dY_scenario : Tensor :=
  mkTensor Float [f32 1 1; f32 1 1; f32 1 1; f32 1 1].
Definition Y_scenario : Tensor :=
  mkTensor Float [f32 0 1; f32 1 1; f32 0 1; f32 255 1].
Definition dX_scenario : Tensor :=
  mkTensor Float [f32 1 1; f32 1 1; f32 1 1; f32 0 1].
(** The quantised values before clamping, [[0, 1, 0, 300]]. *)
Definition Xq_scenario : list spec_float :=
  [f32 0 1; f32 1 1; f32 0 1; f32 300 1].

(** The range of a signed 32-bit quantised type. *)
Definition qint32_min : Z := -2147483648.
Definition qint32_max : Z := 2147483647.

(** ** Binary32 numbers that stand for integers *)

(** The canonical mantissa and exponent of a positive integer of at most
    24 binary digits. *)
Definition mant24 (p : positive) : positive :=
  Nat.iter (Z.to_nat (24 - Zpos (digits2_pos p))) xO p.
Definition exp24 (p : positive) : Z := Zpos (digits2_pos p) - 24.

(** The binary32 number of an integer below [2^24] in absolute value. *)
Definition small_float (K : Z) : spec_float :=
  match K with
  | Z0 => S754_zero false
  | Zpos p => S754_finite false (mant24 p) (exp24 p)
  | Zneg p => S754_finite true (mant24 p) (exp24 p)
  end.

(** An infinity, or a finite number with a non-negative exponent. *)
Definition huge (s : bool) (v : spec_float) : Prop :=
  v = S754_infinity s \/ exists m e, v = S754_finite s m e /\ 0 <= e.

(** What [floor] can return, and what adding [zero_point] makes of it. *)
Definition floor_shape (f : spec_float) : Prop :=
  f = S754_nan \/ (exists s, f = S754_zero s) \/
  (exists n, n <> 0 /\ Z.abs n < 2 ^ 24 /\ f = small_float n) \/
  (exists s, huge s f).

Definition int_shape (v : spec_float) : Prop :=
  v = S754_nan \/ (exists n, Z.abs n < 2 ^ 24 /\ v = small_float n) \/
  (exists s, huge s v).

(** [K] is the integer that the finite number [(s, m, e)] stands for. *)
Definition repr (s : bool) (m : positive) (e K : Z) : Prop :=
  -23 <= e /\ cond_Zopp s (Zpos m) * 2 ^ (e + 23) = K * 2 ^ 23.

(** ** Quantisation levels that survive the round trip *)

Definition spec_float_eqb (x y : spec_float) : bool :=
  match x, y with
  | S754_zero a, S754_zero b => Bool.eqb a b
  | S754_infinity a, S754_infinity b => Bool.eqb a b
  | S754_nan, S754_nan => true
  | S754_finite a m e, S754_finite b m' e' =>
      Bool.eqb a b && Pos.eqb m m' && Z.eqb e e'
  | _, _ => false
  end.

(** The integers [quant_min, ..., quant_max]. *)
Definition levels (quant_min quant_max : Z) : list Z :=
  map (fun k => quant_min + Z.of_nat k)
      (seq 0 (Z.to_nat (quant_max - quant_min + 1))).

(** Level [n] survives dequantisation followed by requantisation:
    [floor(((n - zero_point) * scale) * inv_scale + 0.5) + zero_point = n]
    in binary32. *)
Definition level_stable (scale : spec_float) (zero_point n : Z) : bool :=
  spec_float_eqb
    (Xq_elt Float scale zero_point
       (dequantize_elt Float scale zero_point (of_int Float n)))
    (of_int Float n).

Definition levels_stable (scale : spec_float)
    (zero_point quant_min quant_max : Z) : bool :=
  forallb (level_stable scale zero_point) (levels quant_min quant_max).

Definition is_nan (x : spec_float) : bool :=
  match x with S754_nan => true | _ => false end.

(** ** Exact values *)

(** [2 ^ e] as a rational number. *)
Definition pow2 (e : Z) : Q := (2 ^ e)%Q.

(** The rational number that a floating-point number stands for; zero for
    the zeros, the infinities and NaN. *)
Definition SF2Q (x : spec_float) : Q :=
  match x with
  | S754_finite s m e => (inject_Z (cond_Zopp s (Zpos m)) * pow2 e)%Q
  | _ => 0%Q
  end.

(** The value of a positive mantissa and an exponent. *)
Definition Vabs (m : positive) (e : Z) : Q := (inject_Z (Zpos m) * pow2 e)%Q.

(** The literal [0.5f] in binary32. *)
Definition half_f : spec_float := S754_finite false 8388608 (-24).

(** [r] is the floor of [b] in the format [st]: for a finite non-zero [b], a
    finite number whose value is the largest integer not above the value of
    [b], a number of the format if [b] is one, and the zero of the sign of
    [b] if that integer is zero; zeros, infinities and NaN are their own
    floor. *)
Definition is_floor_of (st : ScalarType) (b r : spec_float) : Prop :=
  match b with
  | S754_finite s _ _ =>
      is_finite r = true /\
      (valid st b = true -> valid st r = true) /\
      exists k : Z,
        (SF2Q r == inject_Z k)%Q /\
        (inject_Z k <= SF2Q b)%Q /\ (SF2Q b < inject_Z k + 1)%Q /\
        (k = 0 -> r = S754_zero s)
  | _ => r = b
  end.

(** The formula of the specification, read on exact numbers:
    [(clamp(floor(x * (1/scale) + 0.5) + zero_point, quant_min, quant_max)
      - zero_point) * scale]. *)
Definition formula_exact (scale : Q) (zero_point quant_min quant_max : Z)
    (x : Q) : Q :=
  (inject_Z
     (Z.min (Z.max (Qfloor (x * / scale + (1 # 2)) + zero_point) quant_min)
            quant_max - zero_point) * scale)%Q.

(** A scale of ordinary size: a finite, non-zero binary64 number between
    [2^-101] and [2^100] in magnitude. *)
Definition ordinary_scale (scale : spec_float) : bool :=
  match scale with
  | S754_finite _ m e =>
      valid Double scale
      && (-100 <=? Zpos (digits2_pos m) + e)
      && (Zpos (digits2_pos m) + e <=? 100)
  | _ => false
  end.

(** ** Proof automation *)

(** Decide the comparisons of the checks by their meaning on [Z]. *)
Ltac decide_checks :=
  repeat match goal with
    | |- context [Z.ltb ?a ?b] => destruct (Z.ltb_spec a b); try lia
    | |- context [Z.leb ?a ?b] => destruct (Z.leb_spec a b); try lia
    | |- context [Z.eqb ?a ?b] => destruct (Z.eqb_spec a b); try lia
    end.

(** * Properties *)

(** ** Tensors and elementwise operations *)

Lemma scalar_type_pointwise f t : scalar_type (pointwise f t) = scalar_type t.
Proof. reflexivity. Qed.

Lemma data_pointwise f t : data (pointwise f t) = map f (data t).
Proof. reflexivity. Qed.

Lemma size_pointwise f t : size (pointwise f t) = size t.
Proof. unfold size. rewrite data_pointwise. apply length_map. Qed.

Lemma get_map (f : spec_float -> spec_float) l i :
  (i < List.length l)%nat ->
  nth i (map f l) S754_nan = f (nth i l S754_nan).
Proof.
  intros Hi.
  rewrite (nth_indep (map f l) S754_nan (f S754_nan))
    by (rewrite length_map; exact Hi).
  apply map_nth.
Qed.

Lemma get_pointwise f t i :
  (i < size t)%nat -> get (pointwise f t) i = f (get t i).
Proof. intros Hi. unfold get. rewrite data_pointwise. now apply get_map. Qed.

Lemma copy_same_type dst src :
  scalar_type dst = scalar_type src -> copy_ dst src = src.
Proof.
  intros E. unfold copy_. rewrite E.
  destruct src as [st l]; simpl. now destruct st.
Qed.

(** ** Validation *)

Lemma suppressed_false quant_delay iter :
  gate_active quant_delay iter -> suppressed quant_delay iter = false.
Proof. unfold gate_active, suppressed. intros H. decide_checks; reflexivity. Qed.

Lemma suppressed_true quant_delay iter :
  0 < quant_delay -> iter <= quant_delay -> suppressed quant_delay iter = true.
Proof. unfold suppressed. intros H1 H2. decide_checks; reflexivity. Qed.

Lemma forward_checks_pass zero_point quant_min quant_max quant_delay iter :
  params_valid zero_point quant_min quant_max quant_delay iter ->
  first_violated
    (forward_checks zero_point quant_min quant_max quant_delay iter) = None.
Proof.
  unfold params_valid, forward_checks. intros (H1 & H2 & H3 & H4). simpl.
  decide_checks; reflexivity.
Qed.

(** The forward operator runs its checks in the order of [forward_checks]
    and then takes one of its two paths. *)
Lemma forward_unfold self scale zero_point quant_min quant_max quant_delay iter :
  scalar_type self = Float ->
  fake_quantize_per_tensor_affine_cpu self scale zero_point quant_min quant_max
    quant_delay iter =
  match first_violated
          (forward_checks zero_point quant_min quant_max quant_delay iter) with
  | Some e => Throw e
  | None =>
      if suppressed quant_delay iter then Ok self
      else Ok (pointwise
                 (fake_quantize_elt Float scale zero_point quant_min quant_max)
                 self)
  end.
Proof.
  intros E. unfold fake_quantize_per_tensor_affine_cpu, forward_checks.
  rewrite E. cbn [ScalarType_eqb TORCH_CHECK bind first_violated].
  destruct (quant_max <? quant_min); [reflexivity|].
  destruct (zero_point <? 0); [reflexivity|].
  destruct (quant_delay <? 0); [reflexivity|].
  destruct (negb (quant_delay =? 0) && (iter <? 0)); [reflexivity|].
  cbn [throw_if bind].
  destruct (suppressed quant_delay iter).
  - now rewrite copy_same_type.
  - f_equal. destruct self as [st l]. cbn [scalar_type] in E. subst st.
    unfold mul_s, sub_s, clamp_max, clamp_min, add_s, floor, pointwise.
    cbn [scalar_type data]. rewrite !map_map. reflexivity.
Qed.

Lemma backward_checks_pass dY X zero_point quant_min quant_max quant_delay iter :
  params_valid zero_point quant_min quant_max quant_delay iter ->
  (0 < size X)%nat -> size X = size dY ->
  first_violated
    (backward_checks dY X zero_point quant_min quant_max quant_delay iter)
  = None.
Proof.
  unfold params_valid, backward_checks, numel, size.
  intros (H1 & H2 & H3 & H4) Hne Hsz. simpl.
  decide_checks; reflexivity.
Qed.

Lemma combine_map_same {A B C} (f : A -> B) (g : A -> C) l :
  combine (map f l) (map g l) = map (fun x => (f x, g x)) l.
Proof. induction l as [|a l IH]; simpl; [reflexivity|now rewrite IH]. Qed.

Lemma combine_map_l {A B C} (f : A -> B) (l : list A) (l' : list C) :
  combine (map f l) l' = map (fun p => (f (fst p), snd p)) (combine l l').
Proof.
  revert l'. induction l as [|a l IH]; intros [|c l']; simpl;
    [reflexivity..|now rewrite IH].
Qed.

(** The backward operator runs its checks in the order of [backward_checks]
    and then takes one of its two paths. *)
Lemma backward_unfold dY X scale zero_point quant_min quant_max quant_delay iter :
  fake_quantize_per_tensor_affine_backward_cpu dY X scale zero_point quant_min
    quant_max quant_delay iter =
  match first_violated
          (backward_checks dY X zero_point quant_min quant_max quant_delay iter)
  with
  | Some e => Throw e
  | None =>
      if suppressed quant_delay iter then Ok dY
      else Ok (mkTensor (scalar_type dY)
                 (map (fun p => backward_elt (scalar_type X) (scalar_type dY)
                                  scale zero_point quant_min quant_max
                                  (fst p) (snd p))
                      (combine (data X) (data dY))))
  end.
Proof.
  unfold fake_quantize_per_tensor_affine_backward_cpu, backward_checks.
  cbn [first_violated].
  destruct (quant_max <? quant_min); [reflexivity|].
  destruct (zero_point <? 0); [reflexivity|].
  destruct (quant_delay <? 0); [reflexivity|].
  destruct (numel X <=? 0); [reflexivity|].
  destruct (negb (numel X =? numel dY)); [reflexivity|].
  destruct (negb (quant_delay =? 0) && (iter <? 0)); [reflexivity|].
  cbn [throw_if bind].
  destruct (suppressed quant_delay iter).
  - now rewrite copy_same_type.
  - f_equal. destruct X as [stX lX], dY as [stY lY].
    unfold mul, type_as, mask_mul, ge_s, le_s, add_s, floor, mul_s, pointwise.
    cbn [scalar_type data]. f_equal.
    rewrite !map_map, combine_map_same, !map_map, combine_map_l, map_map.
    reflexivity.
Qed.

(** ** Floating-point arithmetic: exact cases of the rounding *)

Lemma iter_pos_iter {A} (f : A -> A) p x : iter_pos f p x = Pos.iter f x p.
Proof.
  revert x. induction p as [p IH|p IH|]; intros x; cbn [iter_pos Pos.iter].
  - rewrite !IH, !Pos.iter_swap. reflexivity.
  - rewrite !IH. reflexivity.
  - reflexivity.
Qed.

Lemma pos_iter_nat {A} (f : A -> A) p x :
  Pos.iter f x p = Nat.iter (Pos.to_nat p) f x.
Proof. apply Pos2Nat.inj_iter. Qed.

Lemma iter_pos_nat {A} (f : A -> A) p x :
  iter_pos f p x = Nat.iter (Pos.to_nat p) f x.
Proof. rewrite iter_pos_iter. apply pos_iter_nat. Qed.

Lemma shr_1_double p :
  shr_1 (Build_shr_record (Zpos p~0) false false) = Build_shr_record (Zpos p) false false.
Proof. reflexivity. Qed.

Lemma shr_shifted k : forall m,
  Nat.iter k shr_1 (Build_shr_record (Zpos (Nat.iter k xO m)) false false) =
  Build_shr_record (Zpos m) false false.
Proof.
  induction k as [|k IH]; intros m; [reflexivity|].
  rewrite (Nat.iter_succ_r k _ shr_1).
  change (Nat.iter (S k) xO m) with ((Nat.iter k xO m)~0)%positive.
  rewrite shr_1_double. apply IH.
Qed.

Lemma digits2_shifted k m :
  Zpos (digits2_pos (Nat.iter k xO m)) = Zpos (digits2_pos m) + Z.of_nat k.
Proof.
  induction k as [|k IH]; [cbn; lia|].
  change (Nat.iter (S k) xO m) with ((Nat.iter k xO m)~0)%positive.
  cbn [digits2_pos]. rewrite Pos2Z.inj_succ, IH. lia.
Qed.

Lemma round_aux_shifted pr em s m e k :
  bounded pr em m e = true ->
  binary_round_aux pr em s (Zpos (Pos.iter xO m k)) (e - Zpos k) loc_Exact
  = S754_finite s m e.
Proof.
  unfold bounded, canonical_mantissa. intros H.
  apply andb_true_iff in H. destruct H as [Hc Hb].
  apply Z.eqb_eq in Hc. 
  unfold binary_round_aux, shr_fexp. cbn [Zdigits2 shr_record_of_loc].
  rewrite pos_iter_nat, digits2_shifted, positive_nat_Z.
  replace (Zpos (digits2_pos m) + Zpos k + (e - Zpos k)) with (Zpos (digits2_pos m) + e) by lia.
  rewrite Hc. replace (e - (e - Zpos k)) with (Zpos k) by lia.
  cbn [shr]. rewrite iter_pos_nat, shr_shifted.
  cbn [shr_m loc_of_shr_record round_nearest_even Zdigits2 shr_record_of_loc].
  replace (e - Zpos k + Zpos k) with e by lia.
  rewrite Hc, Z.sub_diag. cbn [shr shr_m]. rewrite Hb. reflexivity.
Qed.

Lemma mul_one_l st x :
  valid st x = true ->
  SFmul (prec st) (emax st) (of_int st 1) x = x.
Proof.
  destruct x as [s|s| |s m e]; intros Hv; try (destruct st; reflexivity).
  unfold valid in Hv. cbn [valid_binary] in Hv.
  destruct st.
  - change (of_int Float 1) with (S754_finite false 8388608 (-23)).
    cbn [SFmul xorb].
    change (Zpos (8388608 * m)) with (Zpos (Pos.iter xO m 23)).
    replace (-23 + e) with (e - 23) by lia.
    now apply round_aux_shifted.
  - change (of_int Double 1) with (S754_finite false 4503599627370496 (-52)).
    cbn [SFmul xorb].
    change (Zpos (4503599627370496 * m)) with (Zpos (Pos.iter xO m 52)).
    replace (-52 + e) with (e - 52) by lia.
    now apply round_aux_shifted.
Qed.

Lemma mul_zero_l st s x :
  SFmul (prec st) (emax st) (S754_zero s) x =
  match x with
  | S754_zero sx | S754_finite sx _ _ => S754_zero (xorb s sx)
  | _ => S754_nan
  end.
Proof. destruct x; reflexivity. Qed.

(** ** Claims about the forward operator *)

(** C3. While the delay gate suppresses quantisation ([quant_delay > 0] and
    [0 <= iter <= quant_delay], the boundary [iter = quant_delay] included),
    the forward operator returns a copy of [X] and the backward operator a
    copy of [dY], whatever [scale] and [zero_point] (passing validation)
    are. *)
Theorem C3_delay_pass_through
    scale zero_point quant_min quant_max quant_delay iter :
  quant_min <= quant_max -> 0 <= zero_point ->
  0 < quant_delay -> 0 <= iter <= quant_delay ->
  (forall X, scalar_type X = Float ->
     fake_quantize_per_tensor_affine_cpu X scale zero_point quant_min
       quant_max quant_delay iter = Ok X) /\
  (forall dY X, (0 < size X)%nat -> size X = size dY ->
     fake_quantize_per_tensor_affine_backward_cpu dY X scale zero_point
       quant_min quant_max quant_delay iter = Ok dY).
Proof.
  intros Hr Hz Hd Hi.
  assert (Hval : params_valid zero_point quant_min quant_max quant_delay iter)
    by (unfold params_valid; lia).
  split.
  - intros X HX. rewrite forward_unfold by assumption.
    rewrite forward_checks_pass by assumption.
    now rewrite suppressed_true by lia.
  - intros dY X Hne Hsz. rewrite backward_unfold.
    rewrite backward_checks_pass by assumption.
    now rewrite suppressed_true by lia.
Qed.

Lemma C3_delay_pass_through_witness :
  fake_quantize_per_tensor_affine_cpu X_scenario (f64 1 10) 7 0 255 4 4
  = Ok X_scenario /\
  fake_quantize_per_tensor_affine_backward_cpu dY_scenario X_scenario
    (f64 1 10) 7 0 255 4 4 = Ok dY_scenario.
Proof.
  assert (H : 0 <= 255 /\ 0 <= 7 /\ 0 < 4 /\ 0 <= 4 <= 4) by lia.
  destruct H as (H1 & H2 & H3 & H4).
  destruct (C3_delay_pass_through (f64 1 10) 7 0 255 4 4 H1 H2 H3 H4)
    as [Hf Hb].
  split.
  - apply Hf. reflexivity.
  - apply Hb; [unfold size; simpl; lia | reflexivity].
Defined.

(** ** Claims about validation *)

(** C4, which fails as stated: with [quant_delay <> 0] and [iter < 0] the
    backward operator reports [SizeMismatch], not [InvalidIteration], when
    the sizes of [X] and [dY] differ. *)
Lemma C4_counterexample :
  let bwd :=
    fake_quantize_per_tensor_affine_backward_cpu
      (mkTensor Float [f32 1 1; f32 1 1]) (mkTensor Float [f32 1 1])
      (f64 1 1) 0 0 255 1 (-1) in
  (1 <> 0 /\ -1 < 0) /\
  bwd = Throw SizeMismatch /\ bwd <> Throw InvalidIteration.
Proof.
  split; [lia|]. split; [reflexivity|]. vm_compute. discriminate.
Qed.

(** C4, amended.  On a [Float] input the forward operator, and on any input
    the backward operator, fail with [InvalidRange] whenever
    [quant_min > quant_max]; with [InvalidZeroPoint] when [zero_point < 0]
    and the range is in order; with [InvalidDelay] when [quant_delay < 0] and
    the two checks before pass.  With [quant_delay <> 0] and [iter < 0],
    after the three checks before, the forward operator fails with
    [InvalidIteration], and so does the backward operator when [X] is not
    empty and has the size of [dY].  A failure is a thrown exception: no
    array is returned. *)
Theorem C4_validation_errors
    self dY X scale zero_point quant_min quant_max quant_delay iter :
  scalar_type self = Float ->
  let fwd := fake_quantize_per_tensor_affine_cpu self scale zero_point
               quant_min quant_max quant_delay iter in
  let bwd := fake_quantize_per_tensor_affine_backward_cpu dY X scale
               zero_point quant_min quant_max quant_delay iter in
  (quant_max < quant_min ->
     fwd = Throw InvalidRange /\ bwd = Throw InvalidRange) /\
  (quant_min <= quant_max -> zero_point < 0 ->
     fwd = Throw InvalidZeroPoint /\ bwd = Throw InvalidZeroPoint) /\
  (quant_min <= quant_max -> 0 <= zero_point -> quant_delay < 0 ->
     fwd = Throw InvalidDelay /\ bwd = Throw InvalidDelay) /\
  (quant_min <= quant_max -> 0 <= zero_point -> 0 <= quant_delay ->
   quant_delay <> 0 -> iter < 0 ->
     fwd = Throw InvalidIteration /\
     ((0 < size X)%nat -> size X = size dY -> bwd = Throw InvalidIteration)).
Proof.
  intros Hty fwd bwd. subst fwd bwd.
  rewrite forward_unfold by assumption. rewrite backward_unfold.
  unfold forward_checks, backward_checks, numel, size. cbn [first_violated].
  repeat split; intros; decide_checks; reflexivity.
Qed.

Lemma C4_validation_errors_witness :
  fake_quantize_per_tensor_affine_cpu X_scenario (f64 1 1) 0 0 255 3 (-2)
  = Throw InvalidIteration /\
  fake_quantize_per_tensor_affine_backward_cpu dY_scenario X_scenario
    (f64 1 1) 0 0 255 3 (-2) = Throw InvalidIteration.
Proof.
  destruct (C4_validation_errors X_scenario dY_scenario X_scenario (f64 1 1)
              0 0 255 3 (-2) eq_refl) as (_ & _ & _ & H).
  destruct H as [Hf Hb]; try lia.
  split; [exact Hf|]. apply Hb; [unfold size; simpl; lia | reflexivity].
Defined.

(** C5, which fails as stated: for an empty [X] with [quant_delay <> 0] and
    [iter < 0] the first violated check in the stated order is
    [InvalidIteration], and the backward operator reports [EmptyInput]. *)
Lemma C5_counterexample :
  let X := mkTensor Float [] in
  let dY := mkTensor Float [] in
  first_violated (stated_backward_checks dY X 0 0 255 1 (-1))
  = Some InvalidIteration /\
  fake_quantize_per_tensor_affine_backward_cpu dY X (f64 1 1) 0 0 255 1 (-1)
  = Throw EmptyInput /\
  EmptyInput <> InvalidIteration.
Proof. repeat split. discriminate. Qed.

(** C5, amended.  The checks run in a fixed order and the error reported is
    the first violated one in that order: for the forward operator (on a
    [Float] input) [InvalidRange], [InvalidZeroPoint], [InvalidDelay],
    [InvalidIteration]; for the backward operator [InvalidRange],
    [InvalidZeroPoint], [InvalidDelay], [EmptyInput], [SizeMismatch],
    [InvalidIteration].  When no check is violated an array is returned.  So
    for an empty [X] with [quant_delay <> 0] and [iter < 0], and the three
    checks before passing, the backward operator reports [EmptyInput]. *)
Theorem C5_check_order
    self dY X scale zero_point quant_min quant_max quant_delay iter :
  scalar_type self = Float ->
  let fwd := fake_quantize_per_tensor_affine_cpu self scale zero_point
               quant_min quant_max quant_delay iter in
  let bwd := fake_quantize_per_tensor_affine_backward_cpu dY X scale
               zero_point quant_min quant_max quant_delay iter in
  match first_violated
          (forward_checks zero_point quant_min quant_max quant_delay iter) with
  | Some e => fwd = Throw e
  | None => exists Y, fwd = Ok Y
  end /\
  match first_violated
          (backward_checks dY X zero_point quant_min quant_max quant_delay iter)
  with
  | Some e => bwd = Throw e
  | None => exists dX, bwd = Ok dX
  end /\
  (quant_min <= quant_max -> 0 <= zero_point -> 0 <= quant_delay ->
   size X = 0%nat -> bwd = Throw EmptyInput).
Proof.
  intros Hty fwd bwd. subst fwd bwd.
  rewrite forward_unfold by assumption. rewrite backward_unfold.
  split; [|split].
  - destruct (first_violated _); [reflexivity|].
    destruct (suppressed _ _); eexists; reflexivity.
  - destruct (first_violated _); [reflexivity|].
    destruct (suppressed _ _); eexists; reflexivity.
  - intros H1 H2 H3 H4. unfold backward_checks, numel. fold (size X).
    rewrite H4. cbn [first_violated].
    decide_checks; reflexivity.
Qed.

Lemma C5_check_order_witness :
  fake_quantize_per_tensor_affine_backward_cpu (mkTensor Float [])
    (mkTensor Float []) (f64 1 1) 0 0 255 1 (-1) = Throw EmptyInput.
Proof.
  destruct (C5_check_order X_scenario (mkTensor Float []) (mkTensor Float [])
              (f64 1 1) 0 0 255 1 (-1) eq_refl) as (_ & _ & H).
  apply H; [lia | lia | lia | reflexivity].
Defined.

(** C9. The forward operator rejects every input whose element type is not
    [Float], before any check of the parameters (whatever they are); the
    backward operator never raises that error, and returns an array for
    inputs of any element types once its own checks pass. *)
Theorem C9_element_type_check :
  (forall self scale zero_point quant_min quant_max quant_delay iter,
     scalar_type self <> Float ->
     fake_quantize_per_tensor_affine_cpu self scale zero_point quant_min
       quant_max quant_delay iter = Throw c10_Error) /\
  (forall dY X scale zero_point quant_min quant_max quant_delay iter,
     fake_quantize_per_tensor_affine_backward_cpu dY X scale zero_point
       quant_min quant_max quant_delay iter <> Throw c10_Error) /\
  (forall dY X scale zero_point quant_min quant_max quant_delay iter,
     params_valid zero_point quant_min quant_max quant_delay iter ->
     (0 < size X)%nat -> size X = size dY ->
     exists dX,
       fake_quantize_per_tensor_affine_backward_cpu dY X scale zero_point
         quant_min quant_max quant_delay iter = Ok dX /\
       scalar_type dX = scalar_type dY).
Proof.
  split; [|split].
  - intros self scale zp qmin qmax qd it Hty.
    unfold fake_quantize_per_tensor_affine_cpu.
    destruct (scalar_type self); [congruence|reflexivity].
  - intros dY X scale zp qmin qmax qd it. rewrite backward_unfold.
    unfold backward_checks. cbn [first_violated].
    repeat match goal with
      | |- context [if ?c then _ else _] => destruct c; try discriminate
      end.
  - intros dY X scale zp qmin qmax qd it Hval Hne Hsz.
    rewrite backward_unfold. rewrite backward_checks_pass by assumption.
    destruct (suppressed qd it); eexists; split; reflexivity.
Qed.

Lemma C9_element_type_check_witness :
  fake_quantize_per_tensor_affine_cpu
    (mkTensor Double [f64 1 1]) (f64 1 1) (-1) 255 0 (-1) (-1)
  = Throw c10_Error /\
  exists dX,
    fake_quantize_per_tensor_affine_backward_cpu
      (mkTensor Double [f64 1 1]) (mkTensor Double [f64 300 1])
      (f64 1 1) 0 0 255 0 0 = Ok dX /\
    scalar_type dX = Double.
Proof.
  destruct C9_element_type_check as (Hf & _ & Hb). split.
  - apply Hf. discriminate.
  - apply Hb; [unfold params_valid; lia | unfold size; simpl; lia
              | reflexivity].
Defined.

(** ** The concrete scenario *)

(** C6. With [scale = 1.0], [zero_point = 0], [quant_min = 0],
    [quant_max = 255], [quant_delay = 0] and [iter = 0], the forward operator
    maps [X = [0.2, 0.6, -0.4, 300.0]] to [Y = [0.0, 1.0, 0.0, 255.0]], and
    the backward operator maps [dY = [1.0, 1.0, 1.0, 1.0]] to
    [dX = [1.0, 1.0, 1.0, 0.0]]; the values before clamping are
    [[0, 1, 0, 300]] and the mask is [[true, true, true, false]]. *)
Theorem C6_concrete_scenario :
  fake_quantize_per_tensor_affine_cpu X_scenario (f64 1 1) 0 0 255 0 0
  = Ok Y_scenario /\
  fake_quantize_per_tensor_affine_backward_cpu dY_scenario X_scenario
    (f64 1 1) 0 0 255 0 0 = Ok dX_scenario /\
  map (Xq_elt Float (f64 1 1) 0) (data X_scenario) = Xq_scenario /\
  map (in_range Float (f64 1 1) 0 0 255) (data X_scenario)
  = [true; true; true; false].
Proof. repeat split; vm_compute; reflexivity. Qed.

(** ** The element type of the result *)

Lemma forward_result_type
    self scale zero_point quant_min quant_max quant_delay iter Y :
  fake_quantize_per_tensor_affine_cpu self scale zero_point quant_min
    quant_max quant_delay iter = Ok Y ->
  size Y = size self /\ scalar_type Y = Float.
Proof.
  destruct (scalar_type self) eqn:Hty.
  - rewrite forward_unfold by assumption.
    destruct (first_violated _); [discriminate|].
    destruct (suppressed _ _); intros H; injection H as <-.
    + now split.
    + split; [apply size_pointwise|exact Hty].
  - unfold fake_quantize_per_tensor_affine_cpu. rewrite Hty. discriminate.
Qed.

(** C8, on the code: the result of the forward operator has the length of
    the input, and its element type is [Float], the element type of the
    input, on both paths; it is not [Double]. *)
Theorem C8_forward_result_is_float :
  (exists Y,
     fake_quantize_per_tensor_affine_cpu X_scenario (f64 1 10) 0 0 255 0 0
     = Ok Y /\
     size Y = size X_scenario /\ scalar_type Y = Float /\
     scalar_type Y <> Double) /\
  (exists Y,
     fake_quantize_per_tensor_affine_cpu X_scenario (f64 1 10) 0 0 255 2 1
     = Ok Y /\
     size Y = size X_scenario /\ scalar_type Y = Float /\
     scalar_type Y <> Double).
Proof.
  split; eexists; (split; [reflexivity|]);
    repeat split; discriminate.
Qed.

(** ** Claims about the backward operator *)

Lemma get_zip (g : spec_float * spec_float -> spec_float) lX lY i :
  List.length lX = List.length lY -> (i < List.length lY)%nat ->
  nth i (map g (combine lX lY)) S754_nan
  = g (nth i lX S754_nan, nth i lY S754_nan).
Proof.
  intros Hlen Hi.
  rewrite (nth_indep _ S754_nan (g (S754_nan, S754_nan))).
  - rewrite map_nth. now rewrite combine_nth.
  - rewrite length_map, length_combine. lia.
Qed.

(** The active path of the backward operator, element by element. *)
Lemma backward_active
    dY X scale zero_point quant_min quant_max quant_delay iter :
  params_valid zero_point quant_min quant_max quant_delay iter ->
  gate_active quant_delay iter ->
  (0 < size X)%nat -> size X = size dY ->
  exists dX,
    fake_quantize_per_tensor_affine_backward_cpu dY X scale zero_point
      quant_min quant_max quant_delay iter = Ok dX /\
    size dX = size dY /\
    forall i, (i < size dY)%nat ->
      get dX i =
      backward_elt (scalar_type X) (scalar_type dY) scale zero_point
        quant_min quant_max (get X i) (get dY i).
Proof.
  intros Hval Hgate Hne Hsz.
  rewrite backward_unfold. rewrite backward_checks_pass by assumption.
  rewrite suppressed_false by assumption.
  eexists. split; [reflexivity|]. unfold size, get in *. cbn [data]. split.
  - rewrite length_map, length_combine. lia.
  - intros i Hi. now rewrite get_zip.
Qed.

Lemma mask_times_false st dy :
  mask_times st false dy =
  match dy with
  | S754_zero s | S754_finite s _ _ => S754_zero s
  | _ => S754_nan
  end.
Proof.
  unfold mask_times.
  replace (of_int st 0) with (S754_zero false) by (destruct st; reflexivity).
  rewrite mul_zero_l. destruct dy; reflexivity.
Qed.

Lemma mask_times_true st dy :
  valid st dy = true -> mask_times st true dy = dy.
Proof. apply mul_one_l. Qed.

(** C10. On its active path the backward operator multiplies the gradient by
    the 0/1 mask, [dX[i] = mask[i] * dY[i]], and does not select.  Where the
    mask is 0 and [dY[i]] is finite the product is a zero; where the mask is
    0 and [dY[i]] is infinite or a NaN the product is a NaN, and the
    selection [mask[i] ? dY[i] : 0] would give 0. *)
Theorem C10_mask_is_multiplied
    dY X scale zero_point quant_min quant_max quant_delay iter :
  params_valid zero_point quant_min quant_max quant_delay iter ->
  gate_active quant_delay iter ->
  (0 < size X)%nat -> size X = size dY ->
  exists dX,
    fake_quantize_per_tensor_affine_backward_cpu dY X scale zero_point
      quant_min quant_max quant_delay iter = Ok dX /\
    forall i, (i < size dY)%nat ->
      let st := scalar_type dY in
      let mask :=
        in_range (scalar_type X) scale zero_point quant_min quant_max
          (get X i) in
      get dX i =
        SFmul (prec st) (emax st) (of_int st (if mask then 1 else 0))
          (get dY i) /\
      (mask = false -> is_finite (get dY i) = true ->
         is_zero (get dX i) = true) /\
      (mask = false -> is_finite (get dY i) = false ->
         get dX i = S754_nan /\
         select_elt mask (get dY i) = S754_zero false).
Proof.
  intros Hval Hgate Hne Hsz.
  destruct (backward_active dY X scale zero_point quant_min quant_max
              quant_delay iter Hval Hgate Hne Hsz) as (dX & HdX & _ & Helt).
  exists dX. split; [exact HdX|]. intros i Hi st mask.
  specialize (Helt i Hi). fold st mask in Helt. unfold backward_elt in Helt.
  fold mask in Helt. split; [exact Helt|].
  split; intros Hm Hfin; rewrite Helt, Hm, mask_times_false;
    destruct (get dY i); try discriminate; auto.
Qed.

Lemma C10_mask_is_multiplied_witness :
  exists dX,
    fake_quantize_per_tensor_affine_backward_cpu
      (mkTensor Float [S754_infinity true; f32 (-5) 2])
      (mkTensor Float [f32 (-7) 1; f32 1000 1]) (f64 1 1) 0 0 255 0 0
    = Ok dX /\
    get dX 0 = S754_nan /\ get dX 1 = S754_zero true.
Proof.
  destruct (C10_mask_is_multiplied
              (mkTensor Float [S754_infinity true; f32 (-5) 2])
              (mkTensor Float [f32 (-7) 1; f32 1000 1]) (f64 1 1) 0 0 255 0 0)
    as (dX & HdX & Helt).
  - unfold params_valid. lia.
  - left. reflexivity.
  - unfold size. simpl. lia.
  - reflexivity.
  - exists dX. split; [exact HdX|]. split.
    + apply (Helt 0%nat); [unfold size; simpl; lia | reflexivity..].
    + destruct (Helt 1%nat) as (H & _); [unfold size; simpl; lia|].
      rewrite H. reflexivity.
Defined.

(** C2, which fails as stated: where the value before clamping is out of
    the range and [dY[i]] is infinite, [dX[i]] is a NaN and not 0. *)
Lemma C2_counterexample :
  in_range Float (f64 1 1) 0 0 255 (f32 300 1) = false /\
  fake_quantize_per_tensor_affine_backward_cpu
    (mkTensor Float [S754_infinity false]) (mkTensor Float [f32 300 1])
    (f64 1 1) 0 0 255 0 0
  = Ok (mkTensor Float [S754_nan]) /\
  is_zero S754_nan = false.
Proof. repeat split. Qed.

(** ** Floating-point arithmetic: integers in binary32 *)

Lemma digits_size p : digits2_pos p = Pos.size p.
Proof. induction p; simpl; congruence. Qed.

Lemma digits_log2 p : Zpos (digits2_pos p) = Z.log2 (Zpos p) + 1.
Proof.
  rewrite digits_size. destruct p; simpl; try reflexivity; lia.
Qed.

Lemma round_aux_canonical pr em s m e :
  bounded pr em m e = true ->
  binary_round_aux pr em s (Zpos m) e loc_Exact = S754_finite s m e.
Proof.
  unfold bounded, canonical_mantissa. intros H.
  apply andb_true_iff in H. destruct H as [Hc Hb]. apply Z.eqb_eq in Hc.
  unfold binary_round_aux, shr_fexp. cbn [Zdigits2 shr_record_of_loc].
  rewrite Hc, Z.sub_diag.
  cbn [shr shr_m loc_of_shr_record round_nearest_even Zdigits2 shr_record_of_loc].
  rewrite Hc, Z.sub_diag. cbn [shr shr_m]. now rewrite Hb.
Qed.

(** A right shift keeps the mantissa positive while it drops fewer bits
    than the mantissa has. *)
Lemma shr_1_pos m r s :
  1 < Zpos (digits2_pos m) ->
  exists m' r' s',
    shr_1 (Build_shr_record (Zpos m) r s) = Build_shr_record (Zpos m') r' s' /\
    Zpos (digits2_pos m') = Zpos (digits2_pos m) - 1.
Proof.
  destruct m as [p|p|]; cbn [shr_1 digits2_pos]; intros H.
  - do 3 eexists. split; [reflexivity|]. lia.
  - do 3 eexists. split; [reflexivity|]. lia.
  - lia.
Qed.

Lemma shr_iter_pos k : forall m r s,
  Z.of_nat k < Zpos (digits2_pos m) ->
  exists m' r' s',
    Nat.iter k shr_1 (Build_shr_record (Zpos m) r s)
    = Build_shr_record (Zpos m') r' s'.
Proof.
  induction k as [|k IH]; intros m r s Hk.
  - do 3 eexists. reflexivity.
  - rewrite Nat.iter_succ_r.
    destruct (shr_1_pos m r s) as (m1 & r1 & s1 & E & Hd); [lia|].
    rewrite E. apply IH. lia.
Qed.

Lemma shr_record_of_loc_pos m l :
  exists r s, shr_record_of_loc (Zpos m) l = Build_shr_record (Zpos m) r s.
Proof. destruct l as [|[]]; do 2 eexists; reflexivity. Qed.

Lemma round_nearest_even_pos m l :
  exists m', round_nearest_even (Zpos m) l = Zpos m'.
Proof.
  destruct l as [|[]]; cbn [round_nearest_even];
    try destruct (Z.even _); eexists; reflexivity.
Qed.

(** In binary32, away from the subnormal range. *)
Lemma shr_fexp_pos m e l :
  -125 <= e ->
  exists m' r s e',
    shr_fexp 24 128 (Zpos m) e l = (Build_shr_record (Zpos m') r s, e') /\
    e' = Z.max e (Zpos (digits2_pos m) + e - 24).
Proof.
  intros He. unfold shr_fexp. cbn [Zdigits2].
  destruct (shr_record_of_loc_pos m l) as (r & s & ->).
  assert (Hf : fexp 24 128 (Zpos (digits2_pos m) + e)
               = Zpos (digits2_pos m) + e - 24).
  { unfold fexp, emin. lia. }
  rewrite Hf.
  destruct (Zpos (digits2_pos m) + e - 24 - e) as [|p|p] eqn:En; cbn [shr].
  - do 4 eexists. split; [reflexivity|]. lia.
  - rewrite iter_pos_nat.
    destruct (shr_iter_pos (Pos.to_nat p) m r s) as (m' & r' & s' & ->); [lia|].
    do 4 eexists. split; [reflexivity|]. lia.
  - do 4 eexists. split; [reflexivity|]. lia.
Qed.

Lemma round_aux_shape sx m e l :
  -125 <= e ->
  binary_round_aux 24 128 sx (Zpos m) e l = S754_infinity sx \/
  exists m' e', binary_round_aux 24 128 sx (Zpos m) e l = S754_finite sx m' e'
                /\ Z.max e (Zpos (digits2_pos m) + e - 24) <= e'.
Proof.
  intros He. unfold binary_round_aux.
  destruct (shr_fexp_pos m e l He) as (m1 & r1 & s1 & e1 & -> & He1).
  cbn [shr_m].
  destruct (round_nearest_even_pos m1
              (loc_of_shr_record (Build_shr_record (Zpos m1) r1 s1)))
    as (m2 & ->).
  destruct (shr_fexp_pos m2 e1 loc_Exact) as (m3 & r3 & s3 & e3 & -> & He3);
    [lia|].
  cbn [shr_m]. destruct (e3 <=? 128 - 24).
  - right. do 2 eexists. split; [reflexivity|]. lia.
  - now left.
Qed.

Lemma round_aux_shifted_nat s m e k :
  bounded 24 128 m e = true ->
  binary_round_aux 24 128 s (Zpos (Nat.iter k xO m)) (e - Z.of_nat k) loc_Exact
  = S754_finite s m e.
Proof.
  intros H. destruct k as [|k].
  - cbn [Nat.iter nat_rect]. rewrite Z.sub_0_r. now apply round_aux_canonical.
  - replace (Nat.iter (S k) xO m) with (Pos.iter xO m (Pos.of_nat (S k)))
      by (rewrite pos_iter_nat, Nat2Pos.id by discriminate; reflexivity).
    replace (Z.of_nat (S k)) with (Zpos (Pos.of_nat (S k))) by lia.
    now apply round_aux_shifted.
Qed.

Lemma bounded_mant24 p :
  Zpos (digits2_pos p) <= 24 -> bounded 24 128 (mant24 p) (exp24 p) = true.
Proof.
  intros Hd. unfold bounded, canonical_mantissa, mant24, exp24.
  rewrite digits2_shifted, Z2Nat.id by lia.
  apply andb_true_iff. split; [apply Z.eqb_eq|apply Z.leb_le]; 
  unfold fexp, emin; lia.
Qed.

Lemma iter_xO_add j k p :
  Nat.iter (j + k) xO p = Nat.iter j xO (Nat.iter k xO p).
Proof. apply Nat.iter_add. Qed.

(** The integer [p], written with [j] more binary digits at exponent
    [-j], rounds to itself while it has at most 24 digits. *)
Lemma binary_round_small s p j :
  Zpos (digits2_pos p) <= 24 -> (j <= 100)%nat ->
  binary_round 24 128 s (Nat.iter j xO p) (- Z.of_nat j)
  = S754_finite s (mant24 p) (exp24 p).
Proof.
  intros Hd Hj. unfold binary_round. rewrite digits2_shifted.
  assert (Hf : fexp 24 128 (Zpos (digits2_pos p) + Z.of_nat j + - Z.of_nat j)
               = exp24 p).
  { unfold fexp, emin, exp24. lia. }
  rewrite Hf. unfold shl_align.
  destruct (exp24 p - - Z.of_nat j) as [|q|q] eqn:En.
  - replace (- Z.of_nat j) with (exp24 p) by lia.
    replace (Nat.iter j xO p) with (mant24 p).
    + apply round_aux_canonical. now apply bounded_mant24.
    + unfold mant24. unfold exp24 in En. f_equal. lia.
  - unfold exp24 in En.
    replace (- Z.of_nat j)
      with (exp24 p - Z.of_nat (j - Z.to_nat (24 - Zpos (digits2_pos p))))
      by (unfold exp24; lia).
    replace (Nat.iter j xO p)
      with (Nat.iter (j - Z.to_nat (24 - Zpos (digits2_pos p))) xO (mant24 p)).
    + apply round_aux_shifted_nat. now apply bounded_mant24.
    + unfold mant24. rewrite <- iter_xO_add. f_equal. lia.
  - unfold exp24 in En. rewrite pos_iter_nat, <- iter_xO_add.
    replace (Pos.to_nat q + j)%nat
      with (Z.to_nat (24 - Zpos (digits2_pos p))) by lia.
    apply round_aux_canonical. now apply bounded_mant24.
Qed.

Lemma binary_round_big s p j :
  24 < Zpos (digits2_pos p) -> (j <= 100)%nat ->
  binary_round 24 128 s (Nat.iter j xO p) (- Z.of_nat j) = S754_infinity s \/
  exists m e, binary_round 24 128 s (Nat.iter j xO p) (- Z.of_nat j)
              = S754_finite s m e /\ 0 <= e.
Proof.
  intros Hd Hj. unfold binary_round. rewrite digits2_shifted.
  assert (Hf : fexp 24 128 (Zpos (digits2_pos p) + Z.of_nat j + - Z.of_nat j)
               = exp24 p).
  { unfold fexp, emin, exp24. lia. }
  rewrite Hf. unfold shl_align, exp24.
  destruct (Zpos (digits2_pos p) - 24 - - Z.of_nat j) as [|q|q] eqn:En; try lia.
  destruct (round_aux_shape s (Nat.iter j xO p) (- Z.of_nat j) loc_Exact)
    as [H|(m & e & H & He)]; [lia|now left|].
  right. exists m, e. split; [exact H|].
  rewrite digits2_shifted in He. lia.
Qed.

Lemma digits_le p b : 0 <= b -> Zpos p < 2 ^ b -> Zpos (digits2_pos p) <= b.
Proof.
  intros Hb H. rewrite digits_log2.
  apply Z.log2_lt_pow2 in H; lia.
Qed.

Lemma digits_gt p b : 0 <= b -> 2 ^ b <= Zpos p -> b < Zpos (digits2_pos p).
Proof.
  intros Hb H. rewrite digits_log2.
  apply Z.log2_le_pow2 in H; lia.
Qed.

Lemma of_int_small K : Z.abs K < 2 ^ 24 -> of_int Float K = small_float K.
Proof.
  intros H. destruct K as [|p|p]; [reflexivity| |];
    apply (binary_round_small _ p 0); try lia; apply digits_le; lia.
Qed.

Lemma of_int_big K :
  2 ^ 24 <= Z.abs K -> huge (K <? 0) (of_int Float K).
Proof.
  intros H. destruct K as [|p|p]; [cbn in H; lia| |];
    apply (binary_round_big _ p 0); try lia; apply digits_gt; lia.
Qed.

Lemma compare_cont_shifted k a b :
  Pos.compare_cont Eq (Nat.iter k xO a) (Nat.iter k xO b) = (a ?= b)%positive.
Proof.
  induction k as [|k IH]; [reflexivity|].
  change (Nat.iter (S k) xO a) with ((Nat.iter k xO a)~0)%positive.
  change (Nat.iter (S k) xO b) with ((Nat.iter k xO b)~0)%positive.
  exact IH.
Qed.

(** Comparing exponents, then mantissas, compares the integers. *)
Lemma compare_by_digits a b :
  Zpos (digits2_pos a) <= 24 -> Zpos (digits2_pos b) <= 24 ->
  match exp24 a ?= exp24 b with
  | Lt => Lt
  | Gt => Gt
  | Eq => Pos.compare_cont Eq (mant24 a) (mant24 b)
  end = (a ?= b)%positive.
Proof.
  intros Ha Hb. unfold exp24, mant24.
  destruct (Z.compare_spec (Zpos (digits2_pos a) - 24)
                           (Zpos (digits2_pos b) - 24)) as [E|E|E].
  - replace (Zpos (digits2_pos b)) with (Zpos (digits2_pos a)) by lia.
    apply compare_cont_shifted.
  - symmetry. apply Pos.compare_lt_iff.
    rewrite !digits_log2 in E.
    assert (Z.log2 (Zpos a) < Z.log2 (Zpos b)) as L by lia.
    apply Z.log2_lt_cancel in L. lia.
  - symmetry. apply Pos.compare_gt_iff.
    rewrite !digits_log2 in E.
    assert (Z.log2 (Zpos b) < Z.log2 (Zpos a)) as L by lia.
    apply Z.log2_lt_cancel in L. lia.
Qed.

Lemma small_compare a b :
  Z.abs a < 2 ^ 24 -> Z.abs b < 2 ^ 24 ->
  SFcompare (small_float a) (small_float b) = Some (a ?= b).
Proof.
  intros Ha Hb.
  destruct a as [|a|a], b as [|b|b]; try reflexivity;
    cbn [small_float SFcompare Z.compare]; f_equal.
  - apply compare_by_digits; apply digits_le; lia.
  - assert (H := compare_by_digits a b).
    destruct (exp24 a ?= exp24 b); rewrite <- H;
      try reflexivity; apply digits_le; lia.
Qed.

Lemma small_exp_neg q :
  Z.abs q < 2 ^ 23 ->
  match small_float q with
  | S754_finite _ _ e => e < 0
  | S754_zero _ => True
  | _ => False
  end.
Proof.
  intros H. destruct q as [|p|p]; cbn [small_float]; try exact I;
    unfold exp24; assert (Zpos (digits2_pos p) <= 23) by (apply digits_le; lia);
    lia.
Qed.

Lemma huge_compare s v q :
  huge s v -> Z.abs q < 2 ^ 23 ->
  SFcompare v (small_float q) = Some (if s then Lt else Gt) /\
  SFcompare (small_float q) v = Some (if s then Gt else Lt).
Proof.
  intros [->|(m & e & -> & He)] Hq.
  - destruct q; split; reflexivity.
  - assert (Hs := small_exp_neg q Hq).
    destruct q as [|p|p]; cbn [small_float] in *; cbn [SFcompare].
    + split; reflexivity.
    + destruct s; [split; reflexivity|].
      assert ((e ?= exp24 p) = Gt) as -> by (apply Z.compare_gt_iff; lia).
      assert ((exp24 p ?= e) = Lt) as -> by (apply Z.compare_lt_iff; lia).
      split; reflexivity.
    + destruct s; [|split; reflexivity].
      assert ((e ?= exp24 p) = Gt) as -> by (apply Z.compare_gt_iff; lia).
      assert ((exp24 p ?= e) = Lt) as -> by (apply Z.compare_lt_iff; lia).
      split; reflexivity.
Qed.

Lemma normalize_shape n s :
  floor_shape (binary_normalize 24 128 n 0 s).
Proof.
  destruct (Z.eq_dec n 0) as [->|Hn].
  - right. left. now exists s.
  - replace (binary_normalize 24 128 n 0 s) with (of_int Float n)
      by (destruct n; [congruence|reflexivity..]).
    destruct (Z_lt_le_dec (Z.abs n) (2 ^ 24)) as [H|H].
    + right. right. left. exists n. repeat split; try assumption.
      now apply of_int_small.
    + right. right. right. exists (n <? 0). now apply of_int_big.
Qed.

Lemma floor_has_shape b : floor_shape (SFfloor Float b).
Proof.
  destruct b as [s|s| |s m e]; cbn [SFfloor].
  - right. left. now exists s.
  - right. right. right. exists s. now left.
  - now left.
  - destruct (Z.leb_spec 0 e).
    + right. right. right. exists s. right. now exists m, e.
    + apply normalize_shape.
Qed.

Lemma add_zero_shape f :
  floor_shape f -> int_shape (SFadd 24 128 f (of_int Float 0)).
Proof.
  change (of_int Float 0) with (S754_zero false).
  intros [->|[(s & ->)|[(n & Hn0 & Hn & ->)|(s & [->|(m & e & -> & He)])]]].
  - now left.
  - right. left. exists 0. split; [reflexivity|]. now destruct s.
  - right. left. exists n. split; [assumption|].
    destruct n; [congruence|reflexivity..].
  - right. right. exists s. now left.
  - right. right. exists s. right. now exists m, e.
Qed.

Lemma SFltb_small a b :
  Z.abs a < 2 ^ 24 -> Z.abs b < 2 ^ 24 ->
  SFltb (small_float a) (small_float b) = (a <? b).
Proof.
  intros Ha Hb. unfold SFltb. rewrite small_compare by assumption.
  unfold Z.ltb. now destruct (a ?= b).
Qed.

Lemma clamp_shape v quant_min quant_max :
  int_shape v ->
  - 2 ^ 23 < quant_min -> quant_min <= quant_max -> quant_max < 2 ^ 23 ->
  clamp v (of_int Float quant_min) (of_int Float quant_max) = S754_nan \/
  exists n, quant_min <= n <= quant_max /\
    clamp v (of_int Float quant_min) (of_int Float quant_max) = of_int Float n.
Proof.
  intros Hv H1 H2 H3.
  rewrite !of_int_small by lia. unfold clamp, clamp_min_elt, clamp_max_elt.
  destruct Hv as [->|[(n & Hn & ->)|(s & Hh)]].
  - left. now destruct (small_float quant_min), (small_float quant_max).
  - right. rewrite SFltb_small by lia.
    destruct (Z.ltb_spec n quant_min).
    + exists quant_min. rewrite SFltb_small by lia.
      destruct (Z.ltb_spec quant_max quant_min); [lia|].
      split; [lia|]. now rewrite of_int_small by lia.
    + rewrite SFltb_small by lia.
      destruct (Z.ltb_spec quant_max n).
      * exists quant_max. split; [lia|]. now rewrite of_int_small by lia.
      * exists n. split; [lia|]. now rewrite of_int_small by lia.
  - right.
    destruct (huge_compare s v quant_min Hh) as [Hlo _]; [lia|].
    destruct (huge_compare s v quant_max Hh) as [_ Hhi]; [lia|].
    assert (Hl : SFltb v (small_float quant_min) = s)
      by (unfold SFltb; rewrite Hlo; now destruct s).
    rewrite Hl. destruct s.
    + exists quant_min. rewrite SFltb_small by lia.
      destruct (Z.ltb_spec quant_max quant_min); [lia|].
      split; [lia|]. now rewrite of_int_small by lia.
    + assert (Hu : SFltb (small_float quant_max) v = true)
        by (unfold SFltb; now rewrite Hhi).
      rewrite Hu.
      exists quant_max. split; [lia|]. now rewrite of_int_small by lia.
Qed.

Lemma iter_xO_value k p : Zpos (Nat.iter k xO p) = Zpos p * 2 ^ Z.of_nat k.
Proof.
  induction k as [|k IH]; [cbn; lia|].
  change (Nat.iter (S k) xO p) with ((Nat.iter k xO p)~0)%positive.
  rewrite Pos2Z.inj_xO, IH, Nat2Z.inj_succ, Z.pow_succ_r by lia. ring.
Qed.

Lemma shl_align_value m e ez :
  ez <= e -> Zpos (fst (shl_align m e ez)) = Zpos m * 2 ^ (e - ez).
Proof.
  intros H. unfold shl_align.
  destruct (ez - e) as [|k|k] eqn:E; cbn [fst].
  - replace (e - ez) with 0 by lia. cbn. lia.
  - lia.
  - rewrite pos_iter_nat, iter_xO_value. f_equal. f_equal. lia.
Qed.

Lemma cond_Zopp_mul s a b : cond_Zopp s (a * b) = cond_Zopp s a * b.
Proof. destruct s; cbn [cond_Zopp]; lia. Qed.

Lemma repr_small p :
  Zpos (digits2_pos p) <= 24 ->
  repr false (mant24 p) (exp24 p) (Zpos p) /\
  repr true (mant24 p) (exp24 p) (Zneg p).
Proof.
  intros Hd. unfold repr, mant24, exp24.
  assert (H : Zpos (Nat.iter (Z.to_nat (24 - Zpos (digits2_pos p))) xO p)
              * 2 ^ (Zpos (digits2_pos p) - 24 + 23) = Zpos p * 2 ^ 23).
  { rewrite iter_xO_value, Z2Nat.id, <- Z.mul_assoc, <- Z.pow_add_r by lia.
    f_equal. f_equal. lia. }
  split; (split; [lia|]); cbn [cond_Zopp].
  - exact H.
  - rewrite Z.mul_opp_l, H. lia.
Qed.

Lemma repr_huge s m e :
  0 <= e -> repr s m e (cond_Zopp s (Zpos m) * 2 ^ e).
Proof.
  intros He. split; [lia|].
  rewrite Z.pow_add_r by lia. ring.
Qed.

Lemma repr_aligned s m e K ez :
  repr s m e K -> -23 <= ez -> ez <= e -> ez <= 0 ->
  cond_Zopp s (Zpos (fst (shl_align m e ez))) = K * 2 ^ (- ez).
Proof.
  intros [He H] H1 H2 H3.
  rewrite shl_align_value, cond_Zopp_mul by assumption.
  apply (Z.mul_reg_r _ _ (2 ^ (23 + ez))).
  - apply Z.pow_nonzero; lia.
  - rewrite <- !Z.mul_assoc, <- !Z.pow_add_r by lia.
    replace (e - ez + (23 + ez)) with (e + 23) by lia.
    replace (- ez + (23 + ez)) with 23 by lia.
    exact H.
Qed.

Lemma add_repr s1 m1 e1 K1 s2 m2 e2 K2 :
  repr s1 m1 e1 K1 -> repr s2 m2 e2 K2 -> e2 <= 0 ->
  SFadd 24 128 (S754_finite s1 m1 e1) (S754_finite s2 m2 e2)
  = binary_normalize 24 128 ((K1 + K2) * 2 ^ (- Z.min e1 e2))
      (Z.min e1 e2) false.
Proof.
  intros R1 R2 H2. cbn [SFadd]. cbv zeta.
  assert (Hez : -23 <= Z.min e1 e2)
    by (destruct R1, R2; lia).
  rewrite (repr_aligned s1 m1 e1 K1), (repr_aligned s2 m2 e2 K2)
    by (assumption || lia).
  f_equal. ring.
Qed.

Lemma normalize_int_shape K j :
  0 <= j <= 100 ->
  int_shape (binary_normalize 24 128 (K * 2 ^ j) (- j) false).
Proof.
  intros Hj.
  assert (Hp : forall p, Zpos p * 2 ^ j = Zpos (Nat.iter (Z.to_nat j) xO p))
    by (intros p; rewrite iter_xO_value, Z2Nat.id by lia; reflexivity).
  replace (- j) with (- Z.of_nat (Z.to_nat j)) by lia.
  destruct K as [|p|p].
  - right. left. exists 0. split; [reflexivity|]. reflexivity.
  - rewrite Hp. cbn [binary_normalize].
    destruct (Z_lt_le_dec (Zpos p) (2 ^ 24)) as [H|H].
    + right. left. exists (Zpos p). split; [exact H|].
      apply binary_round_small; [apply digits_le|]; lia.
    + right. right. exists false.
      apply binary_round_big; [apply digits_gt|]; lia.
  - replace (Zneg p * 2 ^ j) with (Zneg (Nat.iter (Z.to_nat j) xO p))
      by (rewrite <- Pos2Z.opp_pos, <- Hp; lia).
    cbn [binary_normalize].
    destruct (Z_lt_le_dec (Zpos p) (2 ^ 24)) as [H|H].
    + right. left. exists (Zneg p). split; [exact H|].
      apply binary_round_small; [apply digits_le|]; lia.
    + right. right. exists true.
      apply binary_round_big; [apply digits_gt|]; lia.
Qed.

Lemma add_int_shape f zero_point :
  floor_shape f -> 0 <= zero_point < 2 ^ 23 ->
  int_shape (SFadd 24 128 f (of_int Float zero_point)).
Proof.
  intros Hf Hz.
  destruct (Z.eq_dec zero_point 0) as [->|Hz0]; [now apply add_zero_shape|].
  rewrite of_int_small by lia.
  destruct zero_point as [|pz|pz]; try lia. cbn [small_float].
  assert (Hdz : Zpos (digits2_pos pz) <= 23) by (apply digits_le; lia).
  assert (Rz : repr false (mant24 pz) (exp24 pz) (Zpos pz))
    by (apply repr_small; lia).
  assert (Hez : exp24 pz <= 0) by (unfold exp24; lia).
  destruct Hf as [->|[(s & ->)|[(n & Hn0 & Hn & ->)|(s & [->|(m & e & -> & He)])]]].
  - now left.
  - right. left. exists (Zpos pz). split; [lia|reflexivity].
  - assert (exists s m e, small_float n = S754_finite s m e /\ repr s m e n)
      as (s & m & e & -> & R).
    { destruct n as [|p|p]; [congruence| |];
        do 3 eexists; (split; [reflexivity|]); apply repr_small;
        apply digits_le; lia. }
    rewrite (add_repr _ _ _ _ _ _ _ _ R Rz Hez).
    replace (Z.min e (exp24 pz)) with (- - Z.min e (exp24 pz)) at 2 by lia.
    apply normalize_int_shape. destruct R. unfold exp24 in *. lia.
  - right. right. exists s. now left.
  - rewrite (add_repr _ _ _ _ _ _ _ _ (repr_huge s m e He) Rz Hez).
    replace (Z.min e (exp24 pz)) with (- - Z.min e (exp24 pz)) at 2 by lia.
    apply normalize_int_shape. unfold exp24 in *. lia.
Qed.

(** ** Idempotence of the forward operator *)

Lemma spec_float_eqb_eq x y : spec_float_eqb x y = true -> x = y.
Proof.
  destruct x as [a|a| |a m e], y as [b|b| |b m' e']; cbn [spec_float_eqb];
    try discriminate; try reflexivity.
  - intros H. apply eqb_prop in H. now subst.
  - intros H. apply eqb_prop in H. now subst.
  - intros H. apply andb_true_iff in H. destruct H as [H He].
    apply andb_true_iff in H. destruct H as [Hs Hm].
    apply eqb_prop in Hs. apply Pos.eqb_eq in Hm. apply Z.eqb_eq in He.
    now subst.
Qed.

Lemma in_levels quant_min quant_max n :
  quant_min <= n <= quant_max -> In n (levels quant_min quant_max).
Proof.
  intros H. unfold levels. apply in_map_iff.
  exists (Z.to_nat (n - quant_min)). split; [lia|].
  apply in_seq. lia.
Qed.

Lemma levels_stable_level scale zero_point quant_min quant_max n :
  levels_stable scale zero_point quant_min quant_max = true ->
  quant_min <= n <= quant_max ->
  Xq_elt Float scale zero_point
    (dequantize_elt Float scale zero_point (of_int Float n))
  = of_int Float n.
Proof.
  unfold levels_stable. intros H Hn.
  apply spec_float_eqb_eq.
  exact (proj1 (forallb_forall _ _) H n (in_levels _ _ _ Hn)).
Qed.

(** The clamped value is a NaN or one of the levels. *)
Lemma q_elt_level scale zero_point quant_min quant_max x :
  0 <= zero_point < 2 ^ 23 ->
  - 2 ^ 23 < quant_min -> quant_min <= quant_max -> quant_max < 2 ^ 23 ->
  q_elt Float scale zero_point quant_min quant_max x = S754_nan \/
  exists n, quant_min <= n <= quant_max /\
    q_elt Float scale zero_point quant_min quant_max x = of_int Float n.
Proof.
  intros Hz H1 H2 H3. unfold q_elt. apply clamp_shape; try assumption.
  unfold Xq_elt, round_half_up.
  apply add_int_shape; [apply floor_has_shape|assumption].
Qed.

Lemma clamp_level quant_min quant_max n :
  - 2 ^ 23 < quant_min -> quant_max < 2 ^ 23 ->
  quant_min <= n <= quant_max ->
  clamp (of_int Float n) (of_int Float quant_min) (of_int Float quant_max)
  = of_int Float n.
Proof.
  intros H1 H2 Hn. rewrite !of_int_small by lia.
  unfold clamp, clamp_min_elt, clamp_max_elt.
  rewrite SFltb_small by lia.
  destruct (Z.ltb_spec n quant_min); [lia|].
  rewrite SFltb_small by lia.
  destruct (Z.ltb_spec quant_max n); [lia|reflexivity].
Qed.

Lemma fake_quantize_elt_nan scale zero_point quant_min quant_max :
  fake_quantize_elt Float scale zero_point quant_min quant_max S754_nan
  = S754_nan.
Proof.
  unfold fake_quantize_elt, q_elt, Xq_elt, round_half_up, clamp,
    clamp_min_elt, clamp_max_elt.
  cbn [SFmul SFadd SFfloor SFltb SFcompare].
  assert (H : forall h, SFltb h S754_nan = false) by (now intros []).
  now rewrite H.
Qed.

Lemma fake_quantize_elt_idempotent scale zero_point quant_min quant_max x :
  0 <= zero_point < 2 ^ 23 ->
  - 2 ^ 23 < quant_min -> quant_min <= quant_max -> quant_max < 2 ^ 23 ->
  levels_stable scale zero_point quant_min quant_max = true ->
  fake_quantize_elt Float scale zero_point quant_min quant_max
    (fake_quantize_elt Float scale zero_point quant_min quant_max x)
  = fake_quantize_elt Float scale zero_point quant_min quant_max x.
Proof.
  intros Hz H1 H2 H3 Hst.
  destruct (q_elt_level scale zero_point quant_min quant_max x Hz H1 H2 H3)
    as [E|(n & Hn & E)].
  - assert (Hx : fake_quantize_elt Float scale zero_point quant_min quant_max x
                 = S754_nan)
      by (unfold fake_quantize_elt; rewrite E; reflexivity).
    rewrite Hx. apply fake_quantize_elt_nan.
  - assert (Hx : fake_quantize_elt Float scale zero_point quant_min quant_max x
                 = dequantize_elt Float scale zero_point (of_int Float n))
      by (unfold fake_quantize_elt; rewrite E; reflexivity).
    rewrite Hx. unfold fake_quantize_elt, q_elt.
    rewrite (levels_stable_level _ _ _ _ n Hst Hn).
    now rewrite clamp_level.
Qed.

(** C7, which fails as stated: with [scale = 0.001], [zero_point = 0] and
    the range of a signed 32-bit quantised type, the forward operator maps
    [[5141.0]] to [[5141.00048828125]], and that to [[5141.00146484375]]. *)
Lemma C7_counterexample :
  let fwd X :=
    fake_quantize_per_tensor_affine_cpu X (f64 1 1000) 0 qint32_min
      qint32_max 0 1 in
  let Y := mkTensor Float [f32 10528769 2048] in
  let Z := mkTensor Float [f32 10528771 2048] in
  fwd (mkTensor Float [f32 5141 1]) = Ok Y /\ fwd Y = Ok Z /\ Y <> Z.
Proof. repeat split. vm_compute. discriminate. Qed.


(** ** Further properties of the two operators *)

(** The active path of the forward operator, element by element. *)
Lemma forward_active
    self scale zero_point quant_min quant_max quant_delay iter :
  scalar_type self = Float ->
  params_valid zero_point quant_min quant_max quant_delay iter ->
  gate_active quant_delay iter ->
  exists Y,
    fake_quantize_per_tensor_affine_cpu self scale zero_point quant_min
      quant_max quant_delay iter = Ok Y /\
    size Y = size self /\
    forall i, (i < size self)%nat ->
      get Y i =
      fake_quantize_elt Float scale zero_point quant_min quant_max (get self i).
Proof.
  intros Hty Hval Hgate.
  rewrite forward_unfold by assumption.
  rewrite forward_checks_pass by assumption.
  rewrite suppressed_false by assumption.
  eexists. split; [reflexivity|]. split; [apply size_pointwise|].
  intros i Hi. now rewrite get_pointwise.
Qed.

(** X1. On its active path, with [zero_point] and the range below [2^23]
    in absolute value, every element of the result of the forward operator
    is a NaN or the dequantised value [(n - zero_point) * scale] of a level
    [n] of [quant_min..quant_max]. *)
Theorem X1_forward_output_on_grid
    self scale zero_point quant_min quant_max quant_delay iter :
  scalar_type self = Float ->
  params_valid zero_point quant_min quant_max quant_delay iter ->
  gate_active quant_delay iter ->
  zero_point < 2 ^ 23 -> - 2 ^ 23 < quant_min -> quant_max < 2 ^ 23 ->
  exists Y,
    fake_quantize_per_tensor_affine_cpu self scale zero_point quant_min
      quant_max quant_delay iter = Ok Y /\
    forall i, (i < size self)%nat ->
      get Y i = S754_nan \/
      exists n, quant_min <= n <= quant_max /\
        get Y i =
        SFmul 24 128
          (SFsub 24 128 (of_int Float n) (of_int Float zero_point))
          (round_to Float scale).
Proof.
  intros Hty Hval Hgate Hz Hlo Hhi.
  destruct (forward_active self scale zero_point quant_min quant_max
              quant_delay iter Hty Hval Hgate) as (Y & HY & _ & Helt).
  exists Y. split; [exact HY|]. intros i Hi. rewrite (Helt i Hi).
  destruct Hval as (Hr & Hz0 & _).
  destruct (q_elt_level scale zero_point quant_min quant_max (get self i))
    as [E|(n & Hn & E)]; try lia; unfold fake_quantize_elt; rewrite E.
  - left. reflexivity.
  - right. exists n. split; [exact Hn|reflexivity].
Qed.

Lemma X1_forward_output_on_grid_witness :
  exists Y,
    fake_quantize_per_tensor_affine_cpu X_scenario (f64 1 10) 3 0 255 0 0
    = Ok Y /\
    forall i, (i < size X_scenario)%nat ->
      get Y i = S754_nan \/
      exists n, 0 <= n <= 255 /\
        get Y i =
        SFmul 24 128 (SFsub 24 128 (of_int Float n) (of_int Float 3))
          (round_to Float (f64 1 10)).
Proof.
  apply (X1_forward_output_on_grid X_scenario (f64 1 10) 3 0 255 0 0).
  - reflexivity.
  - unfold params_valid. lia.
  - left. reflexivity.
  - reflexivity.
  - reflexivity.
  - reflexivity.
Defined.

Lemma in_range_nan st scale zero_point quant_min quant_max :
  in_range st scale zero_point quant_min quant_max S754_nan = false.
Proof.
  unfold in_range, Xq_elt, round_half_up. cbn [SFmul SFadd SFfloor].
  now destruct (of_int st quant_min).
Qed.

(** X2. A NaN element of the input gives a NaN element of the result of the
    forward operator, and a zero mask in the backward operator: the gradient
    there is a zero when [dY[i]] is finite. *)
Theorem X2_nan_input
    dY X scale zero_point quant_min quant_max quant_delay iter :
  scalar_type X = Float ->
  params_valid zero_point quant_min quant_max quant_delay iter ->
  gate_active quant_delay iter ->
  (0 < size X)%nat -> size X = size dY ->
  exists Y dX,
    fake_quantize_per_tensor_affine_cpu X scale zero_point quant_min
      quant_max quant_delay iter = Ok Y /\
    fake_quantize_per_tensor_affine_backward_cpu dY X scale zero_point
      quant_min quant_max quant_delay iter = Ok dX /\
    forall i, (i < size X)%nat -> get X i = S754_nan ->
      get Y i = S754_nan /\
      (is_finite (get dY i) = true -> is_zero (get dX i) = true).
Proof.
  intros Hty Hval Hgate Hne Hsz.
  destruct (forward_active X scale zero_point quant_min quant_max
              quant_delay iter Hty Hval Hgate) as (Y & HY & _ & HeY).
  destruct (backward_active dY X scale zero_point quant_min quant_max
              quant_delay iter Hval Hgate Hne Hsz) as (dX & HdX & _ & HeX).
  exists Y, dX. split; [exact HY|]. split; [exact HdX|].
  intros i Hi Hnan. split.
  - rewrite (HeY i Hi), Hnan. apply fake_quantize_elt_nan.
  - intros Hfin. rewrite HeX by (rewrite <- Hsz; exact Hi).
    unfold backward_elt. rewrite Hnan, in_range_nan, mask_times_false.
    destruct (get dY i); try discriminate; reflexivity.
Qed.

Lemma X2_nan_input_witness :
  exists Y dX,
    fake_quantize_per_tensor_affine_cpu
      (mkTensor Float [f32 1 2; S754_nan]) (f64 1 10) 0 0 255 0 0 = Ok Y /\
    fake_quantize_per_tensor_affine_backward_cpu
      (mkTensor Float [f32 1 1; f32 (-3) 1])
      (mkTensor Float [f32 1 2; S754_nan]) (f64 1 10) 0 0 255 0 0 = Ok dX /\
    get Y 1 = S754_nan /\ is_zero (get dX 1) = true.
Proof.
  destruct (X2_nan_input (mkTensor Float [f32 1 1; f32 (-3) 1])
              (mkTensor Float [f32 1 2; S754_nan]) (f64 1 10) 0 0 255 0 0)
    as (Y & dX & HY & HdX & H).
  - reflexivity.
  - unfold params_valid. lia.
  - left. reflexivity.
  - unfold size. simpl. lia.
  - reflexivity.
  - exists Y, dX. split; [exact HY|]. split; [exact HdX|].
    destruct (H 1%nat) as [H1 H2]; [unfold size; simpl; lia|reflexivity|].
    split; [exact H1|]. apply H2. reflexivity.
Defined.

Lemma small_float_shape K :
  match small_float K with
  | S754_zero _ | S754_finite _ _ _ => True
  | _ => False
  end.
Proof. now destruct K. Qed.

Lemma Xq_elt_infinity scale zero_point s si m e :
  Z.abs zero_point < 2 ^ 24 ->
  round_to Float (inv_scale scale) = S754_finite si m e ->
  Xq_elt Float scale zero_point (S754_infinity s)
  = S754_infinity (xorb s si).
Proof.
  intros Hz Hinv. unfold Xq_elt, round_half_up. rewrite Hinv.
  rewrite of_int_small by assumption.
  change (round_to Float half_d) with (S754_finite false 8388608 (-24)).
  cbn [SFmul SFadd SFfloor].
  assert (H := small_float_shape zero_point).
  destruct (small_float zero_point); try contradiction; reflexivity.
Qed.

Lemma clamp_infinity s quant_min quant_max :
  - 2 ^ 23 < quant_min -> quant_min <= quant_max -> quant_max < 2 ^ 23 ->
  clamp (S754_infinity s) (of_int Float quant_min) (of_int Float quant_max)
  = of_int Float (if s then quant_min else quant_max).
Proof.
  intros H1 H2 H3. rewrite !of_int_small by (destruct s; lia).
  unfold clamp, clamp_min_elt, clamp_max_elt.
  assert (Hh : huge s (S754_infinity s)) by now left.
  destruct (huge_compare s _ quant_min Hh) as [Hlo _]; [lia|].
  destruct (huge_compare s _ quant_max Hh) as [_ Hhi]; [lia|].
  assert (Hl : SFltb (S754_infinity s) (small_float quant_min) = s)
    by (unfold SFltb; rewrite Hlo; now destruct s).
  rewrite Hl. destruct s.
  - rewrite SFltb_small by lia.
    now destruct (Z.ltb_spec quant_max quant_min); [lia|].
  - assert (Hu : SFltb (small_float quant_max) (S754_infinity false) = true)
      by (unfold SFltb; now rewrite Hhi).
    now rewrite Hu.
Qed.

Lemma in_range_infinity scale zero_point quant_min quant_max s si m e :
  Z.abs zero_point < 2 ^ 24 ->
  - 2 ^ 23 < quant_min -> quant_min <= quant_max -> quant_max < 2 ^ 23 ->
  round_to Float (inv_scale scale) = S754_finite si m e ->
  in_range Float scale zero_point quant_min quant_max (S754_infinity s)
  = false.
Proof.
  intros Hz H1 H2 H3 Hinv. unfold in_range.
  rewrite (Xq_elt_infinity _ _ _ _ _ _ Hz Hinv).
  rewrite !of_int_small by lia.
  assert (Hh : huge (xorb s si) (S754_infinity (xorb s si))) by now left.
  destruct (huge_compare _ _ quant_min Hh) as [_ Hlo]; [lia|].
  destruct (huge_compare _ _ quant_max Hh) as [Hhi _]; [lia|].
  unfold SFleb. rewrite Hlo, Hhi. now destruct (xorb s si).
Qed.

(** X3. Infinite inputs saturate.  When [1/scale], converted to binary32,
    is finite and not zero, an element [+inf] or [-inf] of [X] is mapped by
    the forward operator to the dequantised bound [(quant_max - zero_point)
    * scale] or [(quant_min - zero_point) * scale], according to its sign
    and the sign of [scale], and its mask in the backward operator is 0. *)
Theorem X3_infinite_input_saturates
    dY X scale zero_point quant_min quant_max quant_delay iter si m e :
  scalar_type X = Float ->
  params_valid zero_point quant_min quant_max quant_delay iter ->
  gate_active quant_delay iter ->
  (0 < size X)%nat -> size X = size dY ->
  zero_point < 2 ^ 23 -> - 2 ^ 23 < quant_min -> quant_max < 2 ^ 23 ->
  round_to Float (SFdiv 53 1024 one_d scale) = S754_finite si m e ->
  exists Y dX,
    fake_quantize_per_tensor_affine_cpu X scale zero_point quant_min
      quant_max quant_delay iter = Ok Y /\
    fake_quantize_per_tensor_affine_backward_cpu dY X scale zero_point
      quant_min quant_max quant_delay iter = Ok dX /\
    forall i s, (i < size X)%nat -> get X i = S754_infinity s ->
      get Y i =
        SFmul 24 128
          (SFsub 24 128
             (of_int Float (if xorb s si then quant_min else quant_max))
             (of_int Float zero_point))
          (round_to Float scale) /\
      get dX i =
        SFmul (prec (scalar_type dY)) (emax (scalar_type dY))
          (of_int (scalar_type dY) 0) (get dY i).
Proof.
  intros Hty Hval Hgate Hne Hsz Hz Hlo Hhi Hinv.
  destruct (forward_active X scale zero_point quant_min quant_max
              quant_delay iter Hty Hval Hgate) as (Y & HY & _ & HeY).
  destruct (backward_active dY X scale zero_point quant_min quant_max
              quant_delay iter Hval Hgate Hne Hsz) as (dX & HdX & _ & HeX).
  exists Y, dX. split; [exact HY|]. split; [exact HdX|].
  destruct Hval as (Hr & Hz0 & _).
  intros i s Hi Hinf. split.
  - rewrite (HeY i Hi), Hinf. unfold fake_quantize_elt, q_elt.
    rewrite (Xq_elt_infinity scale zero_point s si m e) by (assumption || lia).
    rewrite clamp_infinity by assumption. reflexivity.
  - rewrite HeX by (rewrite <- Hsz; exact Hi).
    unfold backward_elt, mask_times. rewrite Hty, Hinf.
    rewrite (in_range_infinity scale zero_point quant_min quant_max s si m e)
      by (assumption || lia).
    reflexivity.
Qed.

Lemma X3_infinite_input_saturates_witness :
  exists Y dX,
    fake_quantize_per_tensor_affine_cpu
      (mkTensor Float [S754_infinity false; S754_infinity true])
      (f64 1 10) 3 0 255 0 0 = Ok Y /\
    fake_quantize_per_tensor_affine_backward_cpu
      (mkTensor Float [f32 1 1; f32 1 1])
      (mkTensor Float [S754_infinity false; S754_infinity true])
      (f64 1 10) 3 0 255 0 0 = Ok dX /\
    get Y 0 = SFmul 24 128 (f32 252 1) (f32 1 10) /\
    get Y 1 = SFmul 24 128 (f32 (-3) 1) (f32 1 10) /\
    get dX 0 = S754_zero false /\ get dX 1 = S754_zero false.
Proof.
  destruct (X3_infinite_input_saturates
              (mkTensor Float [f32 1 1; f32 1 1])
              (mkTensor Float [S754_infinity false; S754_infinity true])
              (f64 1 10) 3 0 255 0 0 false 10485760 (-20))
    as (Y & dX & HY & HdX & H).
  - reflexivity.
  - unfold params_valid. lia.
  - left. reflexivity.
  - unfold size. simpl. lia.
  - reflexivity.
  - reflexivity.
  - reflexivity.
  - reflexivity.
  - vm_compute. reflexivity.
  - exists Y, dX. split; [exact HY|]. split; [exact HdX|].
    destruct (H 0%nat false) as [A0 B0]; [unfold size; simpl; lia|reflexivity|].
    destruct (H 1%nat true) as [A1 B1]; [unfold size; simpl; lia|reflexivity|].
    rewrite A0, A1, B0, B1. repeat split.
Defined.

(** X4. The forward operator returns an array exactly when the input is a
    [Float] tensor and the four conditions on the scalars hold (an empty
    input is accepted); the backward operator returns an array exactly when
    those conditions hold, [X] is not empty and [dY] has as many elements as
    [X]. *)
Theorem X4_success_conditions
    self dY X scale zero_point quant_min quant_max quant_delay iter :
  ((exists Y,
      fake_quantize_per_tensor_affine_cpu self scale zero_point quant_min
        quant_max quant_delay iter = Ok Y) <->
   scalar_type self = Float /\
   params_valid zero_point quant_min quant_max quant_delay iter) /\
  ((exists dX,
      fake_quantize_per_tensor_affine_backward_cpu dY X scale zero_point
        quant_min quant_max quant_delay iter = Ok dX) <->
   params_valid zero_point quant_min quant_max quant_delay iter /\
   (0 < size X)%nat /\ size X = size dY).
Proof.
  split; split.
  - intros (Y & H). destruct (scalar_type self) eqn:Hty.
    + split; [reflexivity|]. rewrite forward_unfold in H by assumption.
      unfold forward_checks, params_valid in *. cbn [first_violated] in H.
      revert H. decide_checks; try discriminate; intros _; lia.
    + unfold fake_quantize_per_tensor_affine_cpu in H. rewrite Hty in H.
      discriminate.
  - intros (Hty & Hval). rewrite forward_unfold by assumption.
    rewrite forward_checks_pass by assumption.
    destruct (suppressed _ _); eexists; reflexivity.
  - intros (dX & H). rewrite backward_unfold in H.
    unfold backward_checks, params_valid, numel, size in *.
    cbn [first_violated] in H.
    revert H. decide_checks; try discriminate; intros _; lia.
  - intros (Hval & Hne & Hsz). rewrite backward_unfold.
    rewrite backward_checks_pass by assumption.
    destruct (suppressed _ _); eexists; reflexivity.
Qed.

(** X5. The counters only select the path.  With [quant_delay = 0] the
    value of [iter] is never looked at, negative values included; and any
    two pairs of counters that pass validation with the delay gate active
    give the same result, for both operators. *)
Theorem X5_counters_only_gate
    dY X scale zero_point quant_min quant_max :
  (forall iter iter',
     fake_quantize_per_tensor_affine_cpu X scale zero_point quant_min
       quant_max 0 iter
     = fake_quantize_per_tensor_affine_cpu X scale zero_point quant_min
         quant_max 0 iter' /\
     fake_quantize_per_tensor_affine_backward_cpu dY X scale zero_point
       quant_min quant_max 0 iter
     = fake_quantize_per_tensor_affine_backward_cpu dY X scale zero_point
         quant_min quant_max 0 iter') /\
  (forall quant_delay iter quant_delay' iter',
     0 <= quant_delay -> (quant_delay <> 0 -> 0 <= iter) ->
     gate_active quant_delay iter ->
     0 <= quant_delay' -> (quant_delay' <> 0 -> 0 <= iter') ->
     gate_active quant_delay' iter' ->
     fake_quantize_per_tensor_affine_cpu X scale zero_point quant_min
       quant_max quant_delay iter
     = fake_quantize_per_tensor_affine_cpu X scale zero_point quant_min
         quant_max quant_delay' iter' /\
     fake_quantize_per_tensor_affine_backward_cpu dY X scale zero_point
       quant_min quant_max quant_delay iter
     = fake_quantize_per_tensor_affine_backward_cpu dY X scale zero_point
         quant_min quant_max quant_delay' iter').
Proof.
  split.
  - intros iter iter'. split; reflexivity.
  - intros qd it qd' it' H1 H2 H3 H1' H2' H3'.
    rewrite !backward_unfold. unfold backward_checks. cbn [first_violated].
    rewrite !(suppressed_false _ _ H3), !(suppressed_false _ _ H3').
    assert (E : forall q i, 0 <= q -> (q <> 0 -> 0 <= i) ->
                (q <? 0) = false /\ negb (q =? 0) && (i <? 0) = false).
    { intros q i Hq Hi. split; decide_checks; reflexivity. }
    destruct (E qd it H1 H2) as [-> ->].
    destruct (E qd' it' H1' H2') as [-> ->].
    split; [|reflexivity].
    unfold fake_quantize_per_tensor_affine_cpu.
    rewrite !(suppressed_false _ _ H3), !(suppressed_false _ _ H3').
    destruct (E qd it H1 H2) as [-> ->].
    destruct (E qd' it' H1' H2') as [-> ->].
    reflexivity.
Qed.

Lemma X5_counters_only_gate_witness :
  fake_quantize_per_tensor_affine_cpu X_scenario (f64 1 10) 3 0 255 0 (-7)
  = fake_quantize_per_tensor_affine_cpu X_scenario (f64 1 10) 3 0 255 4 5 /\
  fake_quantize_per_tensor_affine_backward_cpu dY_scenario X_scenario
    (f64 1 10) 3 0 255 0 (-7)
  = fake_quantize_per_tensor_affine_backward_cpu dY_scenario X_scenario
      (f64 1 10) 3 0 255 4 5.
Proof.
  apply (proj2 (X5_counters_only_gate dY_scenario X_scenario (f64 1 10)
                  3 0 255) 0 (-7) 4 5).
  - lia.
  - intros H. now contradiction H.
  - left. reflexivity.
  - lia.
  - lia.
  - right. lia.
Defined.

(** X6. The scale is not validated.  With [scale] a zero the forward
    operator, on its active path, returns an array whose elements are zeros
    or NaNs, with a NaN wherever the input element is a zero; with [scale] a
    NaN every element of the result is a NaN. *)
Theorem X6_degenerate_scale
    self scale zero_point quant_min quant_max quant_delay iter :
  scalar_type self = Float ->
  params_valid zero_point quant_min quant_max quant_delay iter ->
  gate_active quant_delay iter ->
  is_zero scale = true \/ scale = S754_nan ->
  exists Y,
    fake_quantize_per_tensor_affine_cpu self scale zero_point quant_min
      quant_max quant_delay iter = Ok Y /\
    forall i, (i < size self)%nat ->
      (is_zero scale = true ->
         is_zero (get Y i) || is_nan (get Y i) = true /\
         (is_zero (get self i) = true -> get Y i = S754_nan)) /\
      (scale = S754_nan -> get Y i = S754_nan).
Proof.
  intros Hty Hval Hgate Hsc.
  destruct (forward_active self scale zero_point quant_min quant_max
              quant_delay iter Hty Hval Hgate) as (Y & HY & _ & Helt).
  exists Y. split; [exact HY|]. intros i Hi. rewrite (Helt i Hi).
  unfold fake_quantize_elt, dequantize_elt. split.
  - intros Hz. destruct scale as [s| | |]; try discriminate.
    cbn [round_to]. split.
    + destruct (SFsub _ _ _ _); reflexivity.
    + intros Hx. destruct (get self i) as [sx| | |]; try discriminate.
      unfold q_elt, Xq_elt, round_half_up, inv_scale, clamp,
        clamp_min_elt, clamp_max_elt.
      cbn [SFdiv one_d round_to SFmul SFadd SFfloor SFltb SFcompare].
      assert (H : forall h, SFltb h S754_nan = false) by (now intros []).
      rewrite H. reflexivity.
  - intros ->. cbn [round_to]. destruct (SFsub _ _ _ _); reflexivity.
Qed.

Lemma X6_degenerate_scale_witness :
  exists Y,
    fake_quantize_per_tensor_affine_cpu
      (mkTensor Float [f32 0 1; f32 3 2; f32 (-3) 2])
      (S754_zero false) 0 0 255 0 0 = Ok Y /\
    get Y 0 = S754_nan /\ is_zero (get Y 1) = true /\
    is_zero (get Y 2) = true.
Proof.
  destruct (X6_degenerate_scale
              (mkTensor Float [f32 0 1; f32 3 2; f32 (-3) 2])
              (S754_zero false) 0 0 255 0 0)
    as (Y & HY & H).
  - reflexivity.
  - unfold params_valid. lia.
  - left. reflexivity.
  - left. reflexivity.
  - exists Y. split; [exact HY|].
    destruct (H 0%nat) as [H0 _]; [unfold size; simpl; lia|].
    destruct (H0 eq_refl) as [_ Hn].
    split; [apply Hn; reflexivity|].
    injection HY as <-. split; reflexivity.
Defined.

Lemma SFcompare_antisym x y :
  SFcompare y x = option_map CompOpp (SFcompare x y).
Proof.
  destruct x as [a|a| |a m e], y as [b|b| |b m' e'];
    try (destruct a); try (destruct b); try reflexivity;
    cbn [SFcompare option_map]; f_equal;
    rewrite (Z.compare_antisym e e'); destruct (e ?= e'); cbn [CompOpp];
    try reflexivity.
  - f_equal. now rewrite Pos.compare_cont_antisym.
  - now rewrite Pos.compare_cont_antisym.
Qed.

Lemma SFleb_not_ltb a b : SFleb a b = true -> SFltb b a = false.
Proof.
  unfold SFleb, SFltb. rewrite (SFcompare_antisym a b).
  now destruct (SFcompare a b) as [[]|].
Qed.

Lemma SFltb_irrefl a : SFltb a a = false.
Proof.
  unfold SFltb.
  destruct a as [s|s| |s m e]; try (destruct s); try reflexivity;
    cbn [SFcompare]; rewrite Z.compare_refl, Pos.compare_cont_refl;
    reflexivity.
Qed.

Lemma SFcompare_defined a b :
  is_nan a = false -> is_nan b = false -> exists c, SFcompare a b = Some c.
Proof.
  destruct a, b; try discriminate; intros _ _; cbn [SFcompare];
    eexists; reflexivity.
Qed.

Lemma SFleb_false_ltb a b :
  is_nan a = false -> is_nan b = false -> SFleb a b = false ->
  SFltb b a = true.
Proof.
  intros Ha Hb. unfold SFleb, SFltb. rewrite (SFcompare_antisym a b).
  destruct (SFcompare_defined a b Ha Hb) as (c & ->).
  now destruct c.
Qed.

Lemma clamp_in_range v lo hi :
  SFleb lo v = true -> SFleb v hi = true -> clamp v lo hi = v.
Proof.
  intros H1 H2. unfold clamp, clamp_min_elt, clamp_max_elt.
  rewrite (SFleb_not_ltb _ _ H1). now rewrite (SFleb_not_ltb _ _ H2).
Qed.

Lemma is_nan_small K : is_nan (small_float K) = false.
Proof. now destruct K. Qed.

Lemma clamp_out_of_range v quant_min quant_max :
  Z.abs quant_min < 2 ^ 24 -> Z.abs quant_max < 2 ^ 24 ->
  quant_min <= quant_max -> is_nan v = false ->
  SFleb (of_int Float quant_min) v && SFleb v (of_int Float quant_max)
  = false ->
  (clamp v (of_int Float quant_min) (of_int Float quant_max)
   = of_int Float quant_min \/
   clamp v (of_int Float quant_min) (of_int Float quant_max)
   = of_int Float quant_max) /\
  clamp v (of_int Float quant_min) (of_int Float quant_max) <> v.
Proof.
  intros H1 H2 Hr Hv. rewrite !of_int_small by assumption.
  unfold clamp, clamp_min_elt, clamp_max_elt.
  destruct (SFleb (small_float quant_min) v) eqn:Elo; cbn [andb]; intros Ehi.
  - rewrite (SFleb_not_ltb _ _ Elo).
    assert (Hlt : SFltb (small_float quant_max) v = true)
      by (apply SFleb_false_ltb; [assumption|apply is_nan_small|assumption]).
    rewrite Hlt. split; [now right|].
    intros E. rewrite E in Hlt. now rewrite SFltb_irrefl in Hlt.
  - assert (Hlt : SFltb v (small_float quant_min) = true)
      by (apply SFleb_false_ltb; [apply is_nan_small|assumption..]).
    rewrite Hlt, SFltb_small by assumption.
    destruct (Z.ltb_spec quant_max quant_min); [lia|].
    split; [now left|].
    intros E. rewrite <- E in Hlt. now rewrite SFltb_irrefl in Hlt.
Qed.

(** X7. The backward operator passes the gradient exactly where the forward
    operator does not clamp.  With [Xq[i]] the value before clamping: where
    the mask is 1, [Y[i]] is [(Xq[i] - zero_point) * scale], the value not
    clamped, and [dX[i] = 1 * dY[i]]; where the mask is 0 and [Xq[i]] is not
    a NaN, [Y[i]] is one of the two dequantised bounds and
    [dX[i] = 0 * dY[i]]. *)
Theorem X7_gradient_passes_where_not_clamped
    dY X scale zero_point quant_min quant_max quant_delay iter :
  scalar_type X = Float ->
  params_valid zero_point quant_min quant_max quant_delay iter ->
  gate_active quant_delay iter ->
  (0 < size X)%nat -> size X = size dY ->
  - 2 ^ 24 < quant_min -> quant_max < 2 ^ 24 ->
  exists Y dX,
    fake_quantize_per_tensor_affine_cpu X scale zero_point quant_min
      quant_max quant_delay iter = Ok Y /\
    fake_quantize_per_tensor_affine_backward_cpu dY X scale zero_point
      quant_min quant_max quant_delay iter = Ok dX /\
    forall i, (i < size X)%nat ->
      let st := scalar_type dY in
      let inv := round_to Float (SFdiv 53 1024 one_d scale) in
      let Xq :=
        SFadd 24 128
          (SFfloor Float
             (SFadd 24 128 (SFmul 24 128 (get X i) inv)
                (round_to Float half_d)))
          (of_int Float zero_point) in
      let deq c :=
        SFmul 24 128 (SFsub 24 128 c (of_int Float zero_point))
          (round_to Float scale) in
      let mask :=
        SFleb (of_int Float quant_min) Xq
        && SFleb Xq (of_int Float quant_max) in
      (mask = true ->
         get Y i = deq Xq /\
         get dX i = SFmul (prec st) (emax st) (of_int st 1) (get dY i)) /\
      (mask = false -> is_nan Xq = false ->
         (get Y i = deq (of_int Float quant_min) \/
          get Y i = deq (of_int Float quant_max)) /\
         clamp Xq (of_int Float quant_min) (of_int Float quant_max) <> Xq) /\
      (mask = false ->
         get dX i = SFmul (prec st) (emax st) (of_int st 0) (get dY i)).
Proof.
  intros Hty Hval Hgate Hne Hsz Hlo Hhi.
  destruct (forward_active X scale zero_point quant_min quant_max
              quant_delay iter Hty Hval Hgate) as (Y & HY & _ & HeY).
  destruct (backward_active dY X scale zero_point quant_min quant_max
              quant_delay iter Hval Hgate Hne Hsz) as (dX & HdX & _ & HeX).
  exists Y, dX. split; [exact HY|]. split; [exact HdX|].
  destruct Hval as (Hr & _).
  intros i Hi st inv Xq deq mask.
  rewrite (HeY i Hi), HeX by (rewrite <- Hsz; exact Hi).
  unfold backward_elt, mask_times. rewrite Hty.
  change (in_range Float scale zero_point quant_min quant_max (get X i))
    with mask.
  change (fake_quantize_elt Float scale zero_point quant_min quant_max
            (get X i))
    with (deq (clamp Xq (of_int Float quant_min) (of_int Float quant_max))).
  split; [|split].
  - intros Hm. rewrite Hm. split; [|reflexivity].
    apply andb_true_iff in Hm. destruct Hm as [H1 H2].
    now rewrite clamp_in_range.
  - intros Hm Hnan.
    destruct (clamp_out_of_range Xq quant_min quant_max) as [[E|E] Hne'];
      try lia; try assumption; rewrite E in *; (split; [auto|assumption]).
  - intros Hm. now rewrite Hm.
Qed.

Lemma X7_gradient_passes_where_not_clamped_witness :
  exists Y dX,
    fake_quantize_per_tensor_affine_cpu X_scenario (f64 1 10) 3 0 255 0 0
    = Ok Y /\
    fake_quantize_per_tensor_affine_backward_cpu dY_scenario X_scenario
      (f64 1 10) 3 0 255 0 0 = Ok dX /\
    get Y 0 = f32 2 10 /\ get dX 0 = f32 1 1 /\
    get dX 3 = S754_zero false.
Proof.
  destruct (X7_gradient_passes_where_not_clamped dY_scenario X_scenario
              (f64 1 10) 3 0 255 0 0)
    as (Y & dX & HY & HdX & H).
  - reflexivity.
  - unfold params_valid. lia.
  - left. reflexivity.
  - unfold size. simpl. lia.
  - reflexivity.
  - reflexivity.
  - reflexivity.
  - exists Y, dX. split; [exact HY|]. split; [exact HdX|].
    destruct (H 0%nat) as [H0 _]; [unfold size; simpl; lia|].
    destruct (H 3%nat) as (_ & _ & H3); [unfold size; simpl; lia|].
    destruct H0 as [A B]; [reflexivity|].
    rewrite A, B, H3 by reflexivity. repeat split.
Defined.

(** ** Exact arithmetic on small integers *)

Lemma SFmul_comm pr em x y : SFmul pr em x y = SFmul pr em y x.
Proof.
  destruct x as [a|a| |a m e], y as [b|b| |b m' e']; cbn [SFmul];
    try reflexivity; try (now rewrite xorb_comm).
  now rewrite xorb_comm, Pos.mul_comm, Z.add_comm.
Qed.

Lemma valid_small K : Z.abs K < 2 ^ 24 -> valid Float (small_float K) = true.
Proof.
  intros H. destruct K as [|p|p]; [reflexivity| |];
    apply bounded_mant24; apply digits_le; lia.
Qed.

Lemma mul_one_small K :
  Z.abs K < 2 ^ 24 ->
  SFmul 24 128 (small_float K) (of_int Float 1) = small_float K.
Proof.
  intros H. rewrite SFmul_comm.
  apply (mul_one_l Float). now apply valid_small.
Qed.

Lemma bounded_mant24_shifted p e0 :
  Zpos (digits2_pos p) <= 24 -> -100 <= e0 <= 100 ->
  bounded 24 128 (mant24 p) (exp24 p + e0) = true.
Proof.
  intros Hd He. unfold bounded, canonical_mantissa, mant24, exp24.
  rewrite digits2_shifted, Z2Nat.id by lia.
  apply andb_true_iff. split; [apply Z.eqb_eq|apply Z.leb_le];
    unfold fexp, emin; lia.
Qed.

(** The integer [p], written with [j] more binary digits and scaled by
    [2^e0], rounds to itself while it has at most 24 digits. *)
Lemma binary_round_exact s p j e0 :
  Zpos (digits2_pos p) <= 24 -> (j <= 100)%nat -> -100 <= e0 <= 100 ->
  binary_round 24 128 s (Nat.iter j xO p) (e0 - Z.of_nat j)
  = S754_finite s (mant24 p) (exp24 p + e0).
Proof.
  intros Hd Hj He. unfold binary_round. rewrite digits2_shifted.
  assert (Hf : fexp 24 128
                 (Zpos (digits2_pos p) + Z.of_nat j + (e0 - Z.of_nat j))
               = exp24 p + e0).
  { unfold fexp, emin, exp24. lia. }
  rewrite Hf. unfold shl_align.
  destruct (exp24 p + e0 - (e0 - Z.of_nat j)) as [|q|q] eqn:En.
  - replace (e0 - Z.of_nat j) with (exp24 p + e0) by lia.
    replace (Nat.iter j xO p) with (mant24 p).
    + apply round_aux_canonical. now apply bounded_mant24_shifted.
    + unfold mant24. unfold exp24 in En. f_equal. lia.
  - unfold exp24 in En.
    replace (e0 - Z.of_nat j)
      with (exp24 p + e0
            - Z.of_nat (j - Z.to_nat (24 - Zpos (digits2_pos p))))
      by (unfold exp24; lia).
    replace (Nat.iter j xO p)
      with (Nat.iter (j - Z.to_nat (24 - Zpos (digits2_pos p))) xO (mant24 p)).
    + apply round_aux_shifted_nat. now apply bounded_mant24_shifted.
    + unfold mant24. rewrite <- iter_xO_add. f_equal. lia.
  - unfold exp24 in En. rewrite pos_iter_nat, <- iter_xO_add.
    replace (Pos.to_nat q + j)%nat
      with (Z.to_nat (24 - Zpos (digits2_pos p))) by lia.
    apply round_aux_canonical. now apply bounded_mant24_shifted.
Qed.

Lemma normalize_small K j :
  Z.abs K < 2 ^ 24 -> 0 <= j <= 100 ->
  binary_normalize 24 128 (K * 2 ^ j) (- j) false = small_float K.
Proof.
  intros HK Hj.
  assert (Hp : forall p, Zpos p * 2 ^ j = Zpos (Nat.iter (Z.to_nat j) xO p))
    by (intros p; rewrite iter_xO_value, Z2Nat.id by lia; reflexivity).
  replace (- j) with (- Z.of_nat (Z.to_nat j)) by lia.
  destruct K as [|p|p].
  - reflexivity.
  - rewrite Hp. apply binary_round_small; [apply digits_le|]; lia.
  - replace (Zneg p * 2 ^ j) with (Zneg (Nat.iter (Z.to_nat j) xO p))
      by (rewrite <- Pos2Z.opp_pos, <- Hp; lia).
    apply binary_round_small; [apply digits_le|]; lia.
Qed.

Lemma small_repr n :
  n <> 0 -> Z.abs n < 2 ^ 24 ->
  exists s m e, small_float n = S754_finite s m e /\ repr s m e n /\ e <= 0.
Proof.
  intros Hn0 Hn.
  destruct n as [|p|p]; [congruence| |];
    assert (Hd : Zpos (digits2_pos p) <= 24) by (apply digits_le; lia);
    do 3 eexists; (split; [reflexivity|]);
    (split; [now apply repr_small|unfold exp24; lia]).
Qed.

Lemma sub_repr s1 m1 e1 K1 s2 m2 e2 K2 :
  repr s1 m1 e1 K1 -> repr s2 m2 e2 K2 -> e2 <= 0 ->
  SFsub 24 128 (S754_finite s1 m1 e1) (S754_finite s2 m2 e2)
  = binary_normalize 24 128 ((K1 - K2) * 2 ^ (- Z.min e1 e2))
      (Z.min e1 e2) false.
Proof.
  intros R1 R2 H2. cbn [SFsub]. cbv zeta.
  assert (Hez : -23 <= Z.min e1 e2)
    by (destruct R1, R2; lia).
  rewrite (repr_aligned s1 m1 e1 K1), (repr_aligned s2 m2 e2 K2)
    by (assumption || lia).
  f_equal. ring.
Qed.

(** Adding and subtracting integers below [2^24] is exact in binary32. *)
Lemma add_small a b :
  Z.abs a < 2 ^ 24 -> Z.abs b < 2 ^ 24 -> Z.abs (a + b) < 2 ^ 24 ->
  SFadd 24 128 (small_float a) (small_float b) = small_float (a + b).
Proof.
  intros Ha Hb Hab.
  destruct (Z.eq_dec a 0) as [->|Ha0]; [now destruct b|].
  destruct (Z.eq_dec b 0) as [->|Hb0];
    [rewrite Z.add_0_r; now destruct a|].
  destruct (small_repr a Ha0 Ha) as (s1 & m1 & e1 & -> & R1 & H1).
  destruct (small_repr b Hb0 Hb) as (s2 & m2 & e2 & -> & R2 & H2).
  rewrite (add_repr _ _ _ _ _ _ _ _ R1 R2 H2).
  replace (Z.min e1 e2) with (- - Z.min e1 e2) at 2 by lia.
  apply normalize_small; [assumption|]. destruct R1, R2. lia.
Qed.

Lemma sub_small a b :
  Z.abs a < 2 ^ 24 -> Z.abs b < 2 ^ 24 -> Z.abs (a - b) < 2 ^ 24 ->
  SFsub 24 128 (small_float a) (small_float b) = small_float (a - b).
Proof.
  intros Ha Hb Hab.
  destruct (Z.eq_dec a 0) as [->|Ha0]; [now destruct b|].
  destruct (Z.eq_dec b 0) as [->|Hb0];
    [rewrite Z.sub_0_r; now destruct a|].
  destruct (small_repr a Ha0 Ha) as (s1 & m1 & e1 & -> & R1 & H1).
  destruct (small_repr b Hb0 Hb) as (s2 & m2 & e2 & -> & R2 & H2).
  rewrite (sub_repr _ _ _ _ _ _ _ _ R1 R2 H2).
  replace (Z.min e1 e2) with (- - Z.min e1 e2) at 2 by lia.
  apply normalize_small; [assumption|]. destruct R1, R2. lia.
Qed.

Lemma floor_half p s :
  Zpos (digits2_pos p) <= 24 ->
  SFfloor Float (S754_finite s (mant24 p) (exp24 p + -1))
  = binary_normalize 24 128 (cond_Zopp s (Zpos p) / 2) 0 s.
Proof.
  intros Hd. cbn [SFfloor].
  destruct (Z.leb_spec 0 (exp24 p + -1)) as [H|H];
    [unfold exp24 in H; lia|].
  f_equal. rewrite Z.shiftr_div_pow2 by lia.
  unfold mant24, exp24.
  replace (Zpos (Nat.iter (Z.to_nat (24 - Zpos (digits2_pos p))) xO p))
    with (Zpos p * 2 ^ (24 - Zpos (digits2_pos p)))
    by (rewrite iter_xO_value, Z2Nat.id by lia; reflexivity).
  rewrite cond_Zopp_mul.
  replace (- (Zpos (digits2_pos p) - 24 + -1))
    with (1 + (24 - Zpos (digits2_pos p))) by lia.
  rewrite Z.pow_add_r by lia.
  rewrite Z.div_mul_cancel_r; [reflexivity|lia|].
  apply Z.pow_nonzero; lia.
Qed.

Lemma round_half_up_repr s m e k :
  repr s m e k -> e <= 0 -> k <> 0 -> Z.abs k < 2 ^ 23 ->
  SFfloor Float
    (SFadd 24 128 (S754_finite s m e) (S754_finite false 8388608 (-24)))
  = small_float k.
Proof.
  intros [He R] He0 Hk0 Hk.
  cbn [SFadd]. cbv zeta.
  replace (Z.min e (-24)) with (-24) by lia.
  rewrite shl_align_value, cond_Zopp_mul by lia.
  change (cond_Zopp false (Zpos (fst (shl_align 8388608 (-24) (-24)))))
    with (2 ^ 23).
  replace (cond_Zopp s (Zpos m) * 2 ^ (e - -24) + 2 ^ 23)
    with ((2 * k + 1) * 2 ^ 23).
  2:{ replace (e - -24) with (e + 23 + 1) by lia.
      rewrite Z.pow_add_r, Z.mul_assoc, R by lia. ring. }
  assert (Hp : forall p, Zpos p * 2 ^ 23 = Zpos (Nat.iter 23 xO p))
    by (intros p; now rewrite iter_xO_value).
  destruct (2 * k + 1) as [|p|p] eqn:E; [lia| |].
  - rewrite Hp. cbn [binary_normalize].
    change (-24) with (-1 - Z.of_nat 23).
    rewrite (binary_round_exact false p 23 (-1))
      by (try apply digits_le; lia).
    rewrite floor_half by (apply digits_le; lia).
    cbn [cond_Zopp]. replace (Zpos p / 2) with k
      by (rewrite <- E; Z.div_mod_to_equations; lia).
    rewrite <- of_int_small by lia. now destruct k.
  - replace (Zneg p * 2 ^ 23) with (Zneg (Nat.iter 23 xO p))
      by (rewrite <- Pos2Z.opp_pos, <- Hp; lia).
    cbn [binary_normalize].
    change (-24) with (-1 - Z.of_nat 23).
    rewrite (binary_round_exact true p 23 (-1))
      by (try apply digits_le; lia).
    rewrite floor_half by (apply digits_le; lia).
    cbn [cond_Zopp]. replace (- Zpos p / 2) with k
      by (rewrite Pos2Z.opp_pos, <- E; Z.div_mod_to_equations; lia).
    rewrite <- of_int_small by lia. now destruct k.
Qed.

(** Rounding half up leaves an integer below [2^23] in place. *)
Lemma round_half_up_small k :
  Z.abs k < 2 ^ 23 ->
  round_half_up Float (small_float k) = small_float k.
Proof.
  intros Hk. unfold round_half_up.
  change (round_to Float half_d) with (S754_finite false 8388608 (-24)).
  change (prec Float) with 24. change (emax Float) with 128.
  destruct (Z.eq_dec k 0) as [->|Hk0]; [reflexivity|].
  destruct (small_repr k Hk0) as (s & m & e & Hsm & R & He0); [lia|].
  rewrite Hsm. rewrite (round_half_up_repr s m e k) by assumption.
  exact Hsm.
Qed.

Lemma SFleb_small a b :
  Z.abs a < 2 ^ 24 -> Z.abs b < 2 ^ 24 ->
  SFleb (small_float a) (small_float b) = (a <=? b).
Proof.
  intros Ha Hb. unfold SFleb. rewrite small_compare by assumption.
  unfold Z.leb. now destruct (a ?= b).
Qed.

Lemma clamp_small v lo hi :
  Z.abs v < 2 ^ 24 -> Z.abs lo < 2 ^ 24 -> Z.abs hi < 2 ^ 24 -> lo <= hi ->
  clamp (small_float v) (small_float lo) (small_float hi)
  = small_float (Z.min (Z.max v lo) hi).
Proof.
  intros Hv Hlo Hhi Hr. unfold clamp, clamp_min_elt, clamp_max_elt.
  rewrite (SFltb_small v lo) by assumption.
  destruct (Z.ltb_spec v lo).
  - rewrite SFltb_small by assumption.
    destruct (Z.ltb_spec hi lo); [lia|]. f_equal. lia.
  - rewrite SFltb_small by assumption.
    destruct (Z.ltb_spec hi v); f_equal; lia.
Qed.

(** ** The operators at [scale = 1.0] on integers *)

Lemma Xq_elt_integer zero_point n :
  Z.abs n < 2 ^ 23 -> 0 <= zero_point < 2 ^ 23 ->
  Xq_elt Float one_d zero_point (of_int Float n)
  = of_int Float (n + zero_point).
Proof.
  intros Hn Hz. unfold Xq_elt.
  change (round_to Float (inv_scale one_d)) with (of_int Float 1).
  rewrite !of_int_small by lia.
  change (prec Float) with 24. change (emax Float) with 128.
  rewrite mul_one_small by lia.
  rewrite round_half_up_small by lia.
  apply add_small; lia.
Qed.

Lemma dequantize_elt_integer zero_point c :
  Z.abs c < 2 ^ 23 -> 0 <= zero_point < 2 ^ 23 ->
  dequantize_elt Float one_d zero_point (of_int Float c)
  = of_int Float (c - zero_point).
Proof.
  intros Hc Hz. unfold dequantize_elt.
  change (round_to Float one_d) with (of_int Float 1).
  rewrite !(of_int_small c), !(of_int_small zero_point),
    !(of_int_small (c - zero_point)) by lia.
  change (prec Float) with 24. change (emax Float) with 128.
  rewrite sub_small by lia. apply mul_one_small. lia.
Qed.

Lemma fake_quantize_elt_integer zero_point quant_min quant_max n :
  Z.abs n < 2 ^ 22 -> 0 <= zero_point < 2 ^ 22 ->
  - 2 ^ 22 < quant_min -> quant_min <= quant_max -> quant_max < 2 ^ 22 ->
  fake_quantize_elt Float one_d zero_point quant_min quant_max
    (of_int Float n)
  = of_int Float (Z.min (Z.max (n + zero_point) quant_min) quant_max
                  - zero_point).
Proof.
  intros Hn Hz H1 H2 H3. unfold fake_quantize_elt, q_elt.
  rewrite Xq_elt_integer by lia.
  rewrite !of_int_small by lia. rewrite clamp_small by lia.
  rewrite <- (of_int_small (Z.min _ _)) by lia.
  rewrite dequantize_elt_integer by lia.
  now rewrite of_int_small by lia.
Qed.

Lemma in_range_integer zero_point quant_min quant_max n :
  Z.abs n < 2 ^ 22 -> 0 <= zero_point < 2 ^ 22 ->
  Z.abs quant_min < 2 ^ 24 -> Z.abs quant_max < 2 ^ 24 ->
  in_range Float one_d zero_point quant_min quant_max (of_int Float n)
  = (quant_min <=? n + zero_point) && (n + zero_point <=? quant_max).
Proof.
  intros Hn Hz H1 H2. unfold in_range.
  rewrite Xq_elt_integer by lia.
  rewrite !of_int_small by lia. now rewrite !SFleb_small by lia.
Qed.

(** X8. At [scale = 1.0] the forward operator computes on integers
    exactly: an input element that is the integer [n] gives
    [clamp(n + zero_point, quant_min, quant_max) - zero_point], so an array
    of integers with [n + zero_point] in the range is returned as it is.
    All numbers are below [2^22] in absolute value. *)
Theorem X8_unit_scale_integers
    ns zero_point quant_min quant_max quant_delay iter :
  params_valid zero_point quant_min quant_max quant_delay iter ->
  gate_active quant_delay iter ->
  zero_point < 2 ^ 22 -> - 2 ^ 22 < quant_min -> quant_max < 2 ^ 22 ->
  Forall (fun n => Z.abs n < 2 ^ 22) ns ->
  let X := mkTensor Float (map (of_int Float) ns) in
  fake_quantize_per_tensor_affine_cpu X (f64 1 1) zero_point quant_min
    quant_max quant_delay iter
  = Ok (mkTensor Float
          (map (fun n =>
                  of_int Float
                    (Z.min (Z.max (n + zero_point) quant_min) quant_max
                     - zero_point)) ns)) /\
  (Forall (fun n => quant_min <= n + zero_point <= quant_max) ns ->
   fake_quantize_per_tensor_affine_cpu X (f64 1 1) zero_point quant_min
     quant_max quant_delay iter = Ok X).
Proof.
  intros Hval Hgate Hz Hlo Hhi Hns X.
  assert (E : fake_quantize_per_tensor_affine_cpu X (f64 1 1) zero_point
                quant_min quant_max quant_delay iter
              = Ok (mkTensor Float
                      (map (fun n =>
                              of_int Float
                                (Z.min (Z.max (n + zero_point) quant_min)
                                   quant_max - zero_point)) ns))).
  { rewrite forward_unfold by reflexivity.
    rewrite forward_checks_pass by assumption.
    rewrite suppressed_false by assumption.
    change (f64 1 1) with one_d.
    unfold pointwise, X. cbn [scalar_type data]. do 2 f_equal.
    rewrite map_map. apply map_ext_in. intros n Hin.
    destruct Hval as (Hr & Hz0 & _).
    apply fake_quantize_elt_integer; try lia.
    exact (proj1 (Forall_forall _ _) Hns n Hin). }
  split; [exact E|].
  intros Hin. rewrite E. unfold X. do 2 f_equal.
  apply map_ext_in. intros n Hn. f_equal.
  assert (H := proj1 (Forall_forall _ _) Hin n Hn). cbv beta in H. lia.
Qed.

Lemma X8_unit_scale_integers_witness :
  fake_quantize_per_tensor_affine_cpu
    (mkTensor Float (map (of_int Float) [-7; 0; 12; 300])) (f64 1 1) 5 0 255
    0 0
  = Ok (mkTensor Float (map (of_int Float) [-5; 0; 12; 250])).
Proof.
  apply (X8_unit_scale_integers [-7; 0; 12; 300] 5 0 255 0 0).
  - unfold params_valid. lia.
  - left. reflexivity.
  - reflexivity.
  - reflexivity.
  - reflexivity.
  - repeat constructor.
Defined.

(** X9. At [scale = 1.0] the mask of the backward operator on an integer
    input [n] is 1 exactly when [quant_min <= n + zero_point <= quant_max],
    computed on the integers. *)
Theorem X9_unit_scale_mask
    ns dY zero_point quant_min quant_max quant_delay iter :
  params_valid zero_point quant_min quant_max quant_delay iter ->
  gate_active quant_delay iter ->
  zero_point < 2 ^ 22 -> - 2 ^ 24 < quant_min -> quant_max < 2 ^ 24 ->
  Forall (fun n => Z.abs n < 2 ^ 22) ns ->
  (0 < List.length ns)%nat -> List.length ns = size dY ->
  let st := scalar_type dY in
  fake_quantize_per_tensor_affine_backward_cpu dY
    (mkTensor Float (map (of_int Float) ns)) (f64 1 1) zero_point quant_min
    quant_max quant_delay iter
  = Ok (mkTensor st
          (map (fun p =>
                  SFmul (prec st) (emax st)
                    (of_int st
                       (if (quant_min <=? fst p + zero_point)
                           && (fst p + zero_point <=? quant_max)
                        then 1 else 0))
                    (snd p))
               (combine ns (data dY)))).
Proof.
  intros Hval Hgate Hz Hlo Hhi Hns Hne Hsz st.
  rewrite backward_unfold.
  rewrite backward_checks_pass
    by (try assumption; unfold size; cbn [data]; rewrite length_map;
        assumption).
  rewrite suppressed_false by assumption.
  change (f64 1 1) with one_d. cbn [scalar_type data]. do 2 f_equal.
  rewrite combine_map_l, map_map. apply map_ext_in.
  intros [n dy] Hin. cbn [fst snd]. unfold backward_elt, mask_times.
  destruct Hval as (Hr & Hz0 & _).
  rewrite in_range_integer; try lia.
  - reflexivity.
  - apply in_combine_l in Hin.
    assert (H := proj1 (Forall_forall _ _) Hns n Hin). cbv beta in H. lia.
Qed.

Lemma X9_unit_scale_mask_witness :
  fake_quantize_per_tensor_affine_backward_cpu
    (mkTensor Float [f32 3 2; f32 3 2; f32 3 2])
    (mkTensor Float (map (of_int Float) [-6; -5; 251])) (f64 1 1) 5 0 255
    0 0
  = Ok (mkTensor Float [S754_zero false; f32 3 2; S754_zero false]).
Proof.
  apply (X9_unit_scale_mask [-6; -5; 251]
           (mkTensor Float [f32 3 2; f32 3 2; f32 3 2]) 5 0 255 0 0).
  - unfold params_valid. lia.
  - left. reflexivity.
  - reflexivity.
  - reflexivity.
  - reflexivity.
  - repeat constructor.
  - simpl. lia.
  - reflexivity.
Defined.

Lemma spec_float_eqb_refl x : spec_float_eqb x x = true.
Proof.
  destruct x as [s|s| |s m e]; cbn [spec_float_eqb];
    rewrite ?eqb_reflx, ?Pos.eqb_refl, ?Z.eqb_refl; reflexivity.
Qed.

Lemma levels_in_range quant_min quant_max n :
  In n (levels quant_min quant_max) -> quant_min <= n <= quant_max.
Proof.
  unfold levels. intros H. apply in_map_iff in H.
  destruct H as (k & <- & Hk). apply in_seq in Hk. lia.
Qed.

(** At [scale = 1.0] every level survives the round trip. *)
Lemma levels_stable_unit_scale zero_point quant_min quant_max :
  0 <= zero_point < 2 ^ 22 -> - 2 ^ 22 < quant_min -> quant_max < 2 ^ 22 ->
  levels_stable one_d zero_point quant_min quant_max = true.
Proof.
  intros Hz Hlo Hhi. unfold levels_stable. apply forallb_forall.
  intros n Hn. apply levels_in_range in Hn. unfold level_stable.
  rewrite dequantize_elt_integer by lia.
  rewrite Xq_elt_integer by lia.
  replace (n - zero_point + zero_point) with n by lia.
  apply spec_float_eqb_refl.
Qed.

(** X10. At [scale = 1.0], with [zero_point] and the range below [2^22] in
    absolute value, the forward operator is idempotent on every [Float]
    input: applied to its own result it returns that result. *)
Theorem X10_unit_scale_idempotent
    self zero_point quant_min quant_max quant_delay iter :
  scalar_type self = Float ->
  params_valid zero_point quant_min quant_max quant_delay iter ->
  gate_active quant_delay iter ->
  zero_point < 2 ^ 22 -> - 2 ^ 22 < quant_min -> quant_max < 2 ^ 22 ->
  exists Y,
    fake_quantize_per_tensor_affine_cpu self (f64 1 1) zero_point quant_min
      quant_max quant_delay iter = Ok Y /\
    fake_quantize_per_tensor_affine_cpu Y (f64 1 1) zero_point quant_min
      quant_max quant_delay iter = Ok Y.
Proof.
  intros Hty Hval Hgate Hz Hlo Hhi.
  assert (Hval' := Hval). destruct Hval' as (Hr & Hz0 & _).
  change (f64 1 1) with one_d.
  rewrite !forward_unfold by assumption.
  rewrite forward_checks_pass by assumption.
  rewrite suppressed_false by assumption.
  eexists. split; [reflexivity|].
  rewrite forward_unfold by (rewrite scalar_type_pointwise; assumption).
  rewrite forward_checks_pass by assumption.
  rewrite suppressed_false by assumption.
  f_equal. unfold pointwise. cbn [scalar_type data]. f_equal.
  rewrite map_map. apply map_ext. intros x.
  apply fake_quantize_elt_idempotent; try lia.
  apply levels_stable_unit_scale; lia.
Qed.

Lemma X10_unit_scale_idempotent_witness :
  exists Y,
    fake_quantize_per_tensor_affine_cpu X_scenario (f64 1 1) 17 (-32768)
      32767 0 0 = Ok Y /\
    fake_quantize_per_tensor_affine_cpu Y (f64 1 1) 17 (-32768) 32767 0 0
    = Ok Y.
Proof.
  apply (X10_unit_scale_idempotent X_scenario 17 (-32768) 32767 0 0).
  - reflexivity.
  - unfold params_valid. lia.
  - left. reflexivity.
  - reflexivity.
  - reflexivity.
  - reflexivity.
Defined.

(** X11. At [scale = 1.0], with [zero_point] and the range below [2^22] in
    absolute value, every element of the result of the forward operator is
    a NaN or an integer between [quant_min - zero_point] and
    [quant_max - zero_point]. *)
Theorem X11_unit_scale_output_integers
    self zero_point quant_min quant_max quant_delay iter :
  scalar_type self = Float ->
  params_valid zero_point quant_min quant_max quant_delay iter ->
  gate_active quant_delay iter ->
  zero_point < 2 ^ 22 -> - 2 ^ 22 < quant_min -> quant_max < 2 ^ 22 ->
  exists Y,
    fake_quantize_per_tensor_affine_cpu self (f64 1 1) zero_point quant_min
      quant_max quant_delay iter = Ok Y /\
    forall i, (i < size self)%nat ->
      get Y i = S754_nan \/
      exists k, quant_min - zero_point <= k <= quant_max - zero_point /\
        get Y i = of_int Float k.
Proof.
  intros Hty Hval Hgate Hz Hlo Hhi.
  destruct (forward_active self (f64 1 1) zero_point quant_min quant_max
              quant_delay iter Hty Hval Hgate) as (Y & HY & _ & Helt).
  exists Y. split; [exact HY|]. intros i Hi. rewrite (Helt i Hi).
  destruct Hval as (Hr & Hz0 & _). change (f64 1 1) with one_d.
  destruct (q_elt_level one_d zero_point quant_min quant_max (get self i))
    as [E|(n & Hn & E)]; try lia; unfold fake_quantize_elt; rewrite E.
  - left. reflexivity.
  - right. exists (n - zero_point). split; [lia|].
    apply dequantize_elt_integer; lia.
Qed.

Lemma X11_unit_scale_output_integers_witness :
  exists Y,
    fake_quantize_per_tensor_affine_cpu X_scenario (f64 1 1) 5 0 255 0 0
    = Ok Y /\
    forall i, (i < size X_scenario)%nat ->
      get Y i = S754_nan \/
      exists k, 0 - 5 <= k <= 255 - 5 /\ get Y i = of_int Float k.
Proof.
  apply (X11_unit_scale_output_integers X_scenario 5 0 255 0 0).
  - reflexivity.
  - unfold params_valid. lia.
  - left. reflexivity.
  - reflexivity.
  - reflexivity.
  - reflexivity.
Defined.

(** X12. The forward operator throws nothing but the error of the element
    type check and the four errors on the scalars; it never throws
    [EmptyInput] or [SizeMismatch].  The backward operator throws nothing
    but the four errors on the scalars, [EmptyInput] and [SizeMismatch]; it
    throws [SizeMismatch] for a non-empty [X] whose element count differs
    from that of [dY], once the three first checks pass and whatever [iter]
    is. *)
Theorem X12_errors_thrown :
  (forall self scale zero_point quant_min quant_max quant_delay iter e,
     fake_quantize_per_tensor_affine_cpu self scale zero_point quant_min
       quant_max quant_delay iter = Throw e ->
     In e [c10_Error; InvalidRange; InvalidZeroPoint; InvalidDelay;
           InvalidIteration]) /\
  (forall dY X scale zero_point quant_min quant_max quant_delay iter e,
     fake_quantize_per_tensor_affine_backward_cpu dY X scale zero_point
       quant_min quant_max quant_delay iter = Throw e ->
     In e [InvalidRange; InvalidZeroPoint; InvalidDelay; EmptyInput;
           SizeMismatch; InvalidIteration]) /\
  (forall dY X scale zero_point quant_min quant_max quant_delay iter,
     quant_min <= quant_max -> 0 <= zero_point -> 0 <= quant_delay ->
     (0 < size X)%nat -> size X <> size dY ->
     fake_quantize_per_tensor_affine_backward_cpu dY X scale zero_point
       quant_min quant_max quant_delay iter = Throw SizeMismatch).
Proof.
  split; [|split].
  - intros self scale zp qmin qmax qd it e.
    destruct (scalar_type self) eqn:Hty.
    + rewrite forward_unfold by assumption.
      unfold forward_checks. cbn [first_violated].
      repeat match goal with
        | |- context [if ?c then _ else _] => destruct c
        end; intros H; try discriminate; injection H as <-; cbn; tauto.
    + unfold fake_quantize_per_tensor_affine_cpu. rewrite Hty.
      intros H. injection H as <-. cbn. tauto.
  - intros dY X scale zp qmin qmax qd it e. rewrite backward_unfold.
    unfold backward_checks. cbn [first_violated].
    repeat match goal with
      | |- context [if ?c then _ else _] => destruct c
      end; intros H; try discriminate; injection H as <-; cbn; tauto.
  - intros dY X scale zp qmin qmax qd it H1 H2 H3 Hne Hsz.
    rewrite backward_unfold. unfold backward_checks, numel, size in *.
    cbn [first_violated]. decide_checks; reflexivity.
Qed.

Lemma X12_errors_thrown_witness :
  fake_quantize_per_tensor_affine_backward_cpu
    (mkTensor Float [f32 1 1; f32 1 1]) (mkTensor Float [f32 1 1])
    (f64 1 1) 0 0 255 3 (-4) = Throw SizeMismatch.
Proof.
  destruct X12_errors_thrown as (_ & _ & H).
  apply H; try lia; unfold size; simpl; lia.
Defined.

Lemma in_range_level scale zero_point quant_min quant_max n :
  - 2 ^ 23 < quant_min -> quant_max < 2 ^ 23 ->
  levels_stable scale zero_point quant_min quant_max = true ->
  quant_min <= n <= quant_max ->
  in_range Float scale zero_point quant_min quant_max
    (dequantize_elt Float scale zero_point (of_int Float n)) = true.
Proof.
  intros Hlo Hhi Hst Hn. unfold in_range.
  rewrite (levels_stable_level _ _ _ _ n Hst Hn).
  rewrite !of_int_small by lia. rewrite !SFleb_small by lia.
  apply andb_true_iff. split; apply Z.leb_le; lia.
Qed.

(** X13. A quantised array is never saturated.  When every level of
    [quant_min..quant_max] survives the round trip through dequantisation
    and requantisation, the backward operator evaluated at the result [Y]
    of the forward operator passes the gradient at every element of [Y]
    that is not a NaN: [dX[i] = 1 * dY[i]]. *)
Theorem X13_gradient_at_quantised_array
    dY X scale zero_point quant_min quant_max quant_delay iter :
  scalar_type X = Float ->
  params_valid zero_point quant_min quant_max quant_delay iter ->
  gate_active quant_delay iter ->
  (0 < size X)%nat -> size X = size dY ->
  zero_point < 2 ^ 23 -> - 2 ^ 23 < quant_min -> quant_max < 2 ^ 23 ->
  levels_stable scale zero_point quant_min quant_max = true ->
  exists Y dX,
    fake_quantize_per_tensor_affine_cpu X scale zero_point quant_min
      quant_max quant_delay iter = Ok Y /\
    fake_quantize_per_tensor_affine_backward_cpu dY Y scale zero_point
      quant_min quant_max quant_delay iter = Ok dX /\
    forall i, (i < size X)%nat ->
      let st := scalar_type dY in
      get Y i = S754_nan \/
      get dX i = SFmul (prec st) (emax st) (of_int st 1) (get dY i).
Proof.
  intros Hty Hval Hgate Hne Hsz Hz Hlo Hhi Hst.
  destruct (forward_active X scale zero_point quant_min quant_max
              quant_delay iter Hty Hval Hgate) as (Y & HY & HsY & HeY).
  destruct (backward_active dY Y scale zero_point quant_min quant_max
              quant_delay iter Hval Hgate) as (dX & HdX & _ & HeX);
    [lia|lia|].
  exists Y, dX. split; [exact HY|]. split; [exact HdX|].
  intros i Hi st.
  rewrite HeX by (rewrite <- Hsz; exact Hi).
  assert (HtY : scalar_type Y = Float).
  { apply (forward_result_type _ _ _ _ _ _ _ _ HY). }
  rewrite HtY, (HeY i Hi).
  destruct Hval as (Hr & Hz0 & _).
  destruct (q_elt_level scale zero_point quant_min quant_max (get X i))
    as [E|(n & Hn & E)]; try lia; unfold fake_quantize_elt; rewrite E.
  - left. reflexivity.
  - right. unfold backward_elt, mask_times.
    now rewrite in_range_level.
Qed.

Lemma X13_gradient_at_quantised_array_witness :
  exists Y dX,
    fake_quantize_per_tensor_affine_cpu X_scenario (f64 1 10) 128 0 255 0 0
    = Ok Y /\
    fake_quantize_per_tensor_affine_backward_cpu dY_scenario Y (f64 1 10)
      128 0 255 0 0 = Ok dX /\
    forall i, (i < size X_scenario)%nat ->
      get Y i = S754_nan \/
      get dX i = SFmul 24 128 (of_int Float 1) (get dY_scenario i).
Proof.
  apply (X13_gradient_at_quantised_array dY_scenario X_scenario (f64 1 10)
           128 0 255 0 0).
  - reflexivity.
  - unfold params_valid. lia.
  - left. reflexivity.
  - unfold size. simpl. lia.
  - reflexivity.
  - reflexivity.
  - reflexivity.
  - reflexivity.
  - vm_compute. reflexivity.
Defined.

(** ** Exact values of floating-point numbers *)

Lemma pow2_pos e : (0 < pow2 e)%Q.
Proof. apply Qpower_0_lt. reflexivity. Qed.

Lemma pow2_add a b : (pow2 (a + b) == pow2 a * pow2 b)%Q.
Proof. apply Qpower_plus. discriminate. Qed.

Lemma pow2_Z n : 0 <= n -> (pow2 n == inject_Z (2 ^ n))%Q.
Proof. intros H. unfold pow2. now rewrite Zpower_Qpower. Qed.

Lemma pow2_le a b : a <= b -> (pow2 a <= pow2 b)%Q.
Proof. intros H. apply Qpower_le_compat_l; [assumption|]. discriminate. Qed.

Lemma pow2_lt a b : a < b -> (pow2 a < pow2 b)%Q.
Proof. intros H. apply Qpower_lt_compat_l; [assumption|]. reflexivity. Qed.

Lemma pow2_0 : (pow2 0 == 1)%Q.
Proof. reflexivity. Qed.

Lemma pow2_shift a k : 0 <= k -> (pow2 (a + k) == pow2 a * inject_Z (2 ^ k))%Q.
Proof. intros H. rewrite pow2_add. now rewrite (pow2_Z k). Qed.

Lemma shr_1_half m r s :
  0 <= m -> shr_m (shr_1 (Build_shr_record m r s)) = m / 2.
Proof.
  intros H. destruct m as [|[p|p|]|]; try lia; cbn [shr_1 shr_m].
  - reflexivity.
  - rewrite <- Z.div2_div. reflexivity.
  - rewrite <- Z.div2_div. reflexivity.
  - reflexivity.
Qed.

Lemma shr_iter_half k : forall rec,
  0 <= shr_m rec ->
  shr_m (Nat.iter k shr_1 rec) = shr_m rec / 2 ^ Z.of_nat k.
Proof.
  induction k as [|k IH]; intros rec H.
  - cbn. now rewrite Z.div_1_r.
  - rewrite Nat.iter_succ_r. rewrite IH.
    + destruct rec as [m r s]. rewrite shr_1_half by assumption.
      cbn [shr_m]. rewrite Nat2Z.inj_succ, Z.pow_succ_r by lia.
      rewrite Z.div_div by lia. reflexivity.
    + destruct rec as [m r s]. rewrite shr_1_half by assumption.
      cbn [shr_m] in H. apply Z.div_pos; lia.
Qed.

Lemma shr_m_of_loc m l : shr_m (shr_record_of_loc m l) = m.
Proof. now destruct l as [|[]]. Qed.

(** Shifting right divides the mantissa by a power of two. *)
Lemma shr_value m l e n :
  0 <= m ->
  exists rec,
    shr (shr_record_of_loc m l) e n = (rec, e + Z.max 0 n) /\
    shr_m rec = m / 2 ^ Z.max 0 n.
Proof.
  intros H. destruct n as [|p|p]; cbn [shr].
  - exists (shr_record_of_loc m l). rewrite Z.add_0_r, shr_m_of_loc.
    now rewrite Z.div_1_r.
  - exists (iter_pos shr_1 p (shr_record_of_loc m l)). split.
    + f_equal. 
    + rewrite iter_pos_nat, shr_iter_half by now rewrite shr_m_of_loc.
      rewrite shr_m_of_loc. now rewrite positive_nat_Z.
  - exists (shr_record_of_loc m l). rewrite Z.add_0_r, shr_m_of_loc.
    now rewrite Z.div_1_r.
Qed.

Lemma rne_range m l :
  m <= round_nearest_even m l <= m + 1.
Proof.
  destruct l as [|[]]; cbn [round_nearest_even]; try lia.
  destruct (Z.even m); lia.
Qed.

Lemma digits_bounds p :
  2 ^ (Zpos (digits2_pos p) - 1) <= Zpos p < 2 ^ Zpos (digits2_pos p).
Proof.
  rewrite digits_log2. replace (Z.log2 (Zpos p) + 1 - 1) with (Z.log2 (Zpos p)) by lia.
  replace (Z.log2 (Zpos p) + 1) with (Z.succ (Z.log2 (Zpos p))) by lia.
  apply Z.log2_spec. lia.
Qed.

Lemma digits_unique p n :
  2 ^ (n - 1) <= Zpos p < 2 ^ n -> Zpos (digits2_pos p) = n.
Proof.
  intros H. rewrite digits_log2.
  assert (Hn : 0 < n).
  { destruct (Z_lt_le_dec 0 n); [assumption|].
    destruct H as [_ H]. destruct n; try lia. 
    rewrite Z.pow_neg_r in H by lia. lia. }
  rewrite (Z.log2_unique (Zpos p) (n - 1)); try lia.
  replace (Z.succ (n - 1)) with n by lia. assumption.
Qed.


(** ** Rounding: shifts and the normal range *)

Section Shifts.
Variables pr em : Z.
Hypothesis Hpr : 0 < pr.

Lemma shr_fexp_value m e l :
  0 <= m ->
  exists rec,
    shr_fexp pr em m e l
    = (rec, e + Z.max 0 (fexp pr em (Zdigits2 m + e) - e)) /\
    shr_m rec = m / 2 ^ Z.max 0 (fexp pr em (Zdigits2 m + e) - e).
Proof. intros H. now apply shr_value. Qed.

Lemma div_pow2_lt m k n :
  0 <= k -> 0 <= n -> 0 <= m < 2 ^ (k + n) -> m / 2 ^ k < 2 ^ n.
Proof.
  intros Hk Hn H. apply Z.div_lt_upper_bound; [lia|].
  rewrite <- Z.pow_add_r by lia. lia.
Qed.

Lemma Zdigits2_bound m : 0 <= m -> m < 2 ^ Zdigits2 m.
Proof.
  intros H. destruct m as [|p|p]; try lia.
  - cbn. lia.
  - cbn [Zdigits2]. apply digits_bounds.
Qed.

Lemma Zdigits2_nonneg m : 0 <= Zdigits2 m.
Proof. destruct m; cbn; lia. Qed.

(** The mantissa of a rounded number has at most [pr] digits. *)
Lemma round_aux_digits s m e l s' m' e' :
  0 <= m ->
  binary_round_aux pr em s m e l = S754_finite s' m' e' ->
  Zpos m' < 2 ^ pr.
Proof.
  intros Hm. unfold binary_round_aux.
  destruct (shr_fexp_value m e l Hm) as (rec1 & -> & V1).
  set (e1 := e + _).
  set (m2 := round_nearest_even (shr_m rec1) (loc_of_shr_record rec1)).
  assert (Hm2 : 0 <= m2).
  { pose proof (rne_range (shr_m rec1) (loc_of_shr_record rec1)) as R.
    fold m2 in R. rewrite V1 in R.
    assert (0 <= m / 2 ^ Z.max 0 (fexp pr em (Zdigits2 m + e) - e))
      by (apply Z.div_pos; lia).
    lia. }
  destruct (shr_fexp_value m2 e1 loc_Exact Hm2) as (rec2 & -> & V2).
  destruct (shr_m rec2) as [|q|q] eqn:E; try discriminate.
  destruct (Z.leb _ _); try discriminate.
  intros H. injection H as <- <- <-.
  rewrite V2.
  pose proof (Zdigits2_bound m2 Hm2) as B.
  pose proof (Zdigits2_nonneg m2) as N.
  apply div_pow2_lt; try lia.
  split; [assumption|].
  eapply Z.lt_le_trans; [exact B|].
  apply Z.pow_le_mono_r; [lia|].
  unfold fexp. lia.
Qed.

(** Rounding in the normal range: the mantissa fills the precision, and the
    result is within one unit in the last place of the number rounded. *)
Lemma round_aux_normal s mx e l :
  pr <= Zpos (digits2_pos mx) ->
  3 - em - pr <= Zpos (digits2_pos mx) + e - pr ->
  Zpos (digits2_pos mx) + e < em ->
  exists m' e',
    binary_round_aux pr em s (Zpos mx) e l = S754_finite s m' e' /\
    2 ^ (pr - 1) <= Zpos m' < 2 ^ pr /\
    Zpos (digits2_pos mx) + e - pr <= e' <=
      Zpos (digits2_pos mx) + e - pr + 1 /\
    Z.abs (Zpos m' * 2 ^ (e' - e) - Zpos mx) <= 2 ^ (e' - e).
Proof.
  set (d := Zpos (digits2_pos mx)). intros Hd Hmin Hmax.
  unfold binary_round_aux.
  destruct (shr_fexp_value (Zpos mx) e l) as (rec1 & -> & V1); [lia|].
  assert (Hn : Z.max 0 (fexp pr em (Zdigits2 (Zpos mx) + e) - e)
               = d - pr).
  { cbn [Zdigits2]. fold d. unfold fexp, emin. lia. }
  rewrite Hn in *. clear Hn.
  pose proof (digits_bounds mx) as Bx. fold d in Bx.
  assert (P1 : 0 < 2 ^ (d - pr)) by (apply Z.pow_pos_nonneg; lia).
  assert (Hsplit : 2 ^ d = 2 ^ (d - pr) * 2 ^ pr).
  { rewrite <- Z.pow_add_r by lia. f_equal. lia. }
  assert (Hsplit' : 2 ^ (d - 1) = 2 ^ (d - pr) * 2 ^ (pr - 1)).
  { rewrite <- Z.pow_add_r by lia. f_equal. lia. }
  assert (Hpp : 2 ^ pr = 2 * 2 ^ (pr - 1)).
  { rewrite <- Z.pow_succ_r by lia. f_equal. lia. }
  assert (Pp : 0 < 2 ^ (pr - 1)) by (apply Z.pow_pos_nonneg; lia).
  set (m1 := Zpos mx / 2 ^ (d - pr)) in *.
  assert (D1 : 2 ^ (d - pr) * m1 <= Zpos mx < 2 ^ (d - pr) * (m1 + 1)).
  { unfold m1. split.
    - apply Z.mul_div_le. lia.
    - rewrite Z.mul_add_distr_l, Z.mul_1_r.
      pose proof (Z.mod_pos_bound (Zpos mx) (2 ^ (d - pr)) P1).
      rewrite (Z.div_mod (Zpos mx) (2 ^ (d - pr))) at 1 by lia. lia. }
  assert (B1 : 2 ^ (pr - 1) <= m1 < 2 ^ pr) by nia.
  pose proof (rne_range (shr_m rec1) (loc_of_shr_record rec1)) as R.
  set (m2 := round_nearest_even (shr_m rec1) (loc_of_shr_record rec1)) in *.
  rewrite V1 in R.
  destruct m2 as [|q|q] eqn:Eq2; try lia.
  destruct (Z_lt_le_dec (Zpos q) (2 ^ pr)) as [Hlt|Hge].
  - (* the rounded mantissa still has [pr] digits *)
    assert (Dq : Zpos (digits2_pos q) = pr) by (apply digits_unique; lia).
    destruct (shr_fexp_value (Zpos q) (e + (d - pr)) loc_Exact)
      as (rec2 & -> & V2); [lia|].
    assert (Hn : Z.max 0 (fexp pr em (Zdigits2 (Zpos q) + (e + (d - pr)))
                          - (e + (d - pr))) = 0).
    { cbn [Zdigits2]. rewrite Dq. unfold fexp, emin. lia. }
    rewrite Hn in *. clear Hn.
    rewrite Z.pow_0_r, Z.div_1_r in V2. rewrite V2.
    rewrite Z.add_0_r.
    replace (e + (d - pr) <=? em - pr) with true
      by (symmetry; apply Z.leb_le; lia).
    exists q, (e + (d - pr)). split; [reflexivity|].
    split; [lia|]. split; [lia|].
    replace (e + (d - pr) - e) with (d - pr) by lia.
    nia.
  - (* the mantissa was rounded up to [2 ^ pr] *)
    assert (Hq : Zpos q = 2 ^ pr) by lia.
    assert (Dq : Zpos (digits2_pos q) = pr + 1).
    { apply digits_unique. replace (pr + 1 - 1) with pr by lia.
      rewrite Z.pow_add_r by lia. lia. }
    destruct (shr_fexp_value (Zpos q) (e + (d - pr)) loc_Exact)
      as (rec2 & -> & V2); [lia|].
    assert (Hn : Z.max 0 (fexp pr em (Zdigits2 (Zpos q) + (e + (d - pr)))
                          - (e + (d - pr))) = 1).
    { cbn [Zdigits2]. rewrite Dq. unfold fexp, emin. lia. }
    rewrite Hn in *. clear Hn.
    rewrite Hq, Hpp in V2. rewrite Z.pow_1_r in V2.
    rewrite Z.mul_comm, Z.div_mul in V2 by lia.
    rewrite V2.
    destruct (2 ^ (pr - 1)) as [|h|h] eqn:Eh; try lia.
    replace (e + (d - pr) + 1 <=? em - pr) with true
      by (symmetry; apply Z.leb_le; lia).
    exists h, (e + (d - pr) + 1). split; [reflexivity|].
    split; [lia|]. split; [lia|].
    replace (e + (d - pr) + 1 - e) with (d - pr + 1) by lia.
    rewrite Z.pow_add_r, Z.pow_1_r by lia.
    nia.
Qed.

End Shifts.

(** ** Rounding on values *)

Lemma Vabs_pos m e : (0 < Vabs m e)%Q.
Proof.
  unfold Vabs. apply Qmult_lt_0_compat; [|apply pow2_pos].
  change 0%Q with (inject_Z 0). rewrite <- Zlt_Qlt. lia.
Qed.

Lemma SF2Q_finite s m e :
  (SF2Q (S754_finite s m e) == if s then - Vabs m e else Vabs m e)%Q.
Proof.
  unfold Vabs. cbn [SF2Q]. destruct s; cbn [cond_Zopp]; [|reflexivity].
  change (- Zpos m) with (- (Zpos m))%Z. rewrite inject_Z_opp. ring.
Qed.

Lemma Vabs_shift m e k :
  0 <= k -> (Vabs m e == inject_Z (Zpos m * 2 ^ k) * pow2 (e - k))%Q.
Proof.
  intros Hk. unfold Vabs. rewrite inject_Z_mult.
  replace e with ((e - k) + k) at 1 by lia.
  rewrite pow2_shift by lia. ring.
Qed.

Lemma Vabs_lower m e b :
  2 ^ b <= Zpos m -> 0 <= b -> (pow2 (b + e) <= Vabs m e)%Q.
Proof.
  intros H Hb. unfold Vabs. rewrite pow2_add, (pow2_Z b) by lia.
  apply Qmult_le_compat_r; [|apply Qlt_le_weak, pow2_pos].
  now rewrite <- Zle_Qle.
Qed.

Lemma Vabs_upper m e b :
  Zpos m < 2 ^ b -> 0 <= b -> (Vabs m e < pow2 (b + e))%Q.
Proof.
  intros H Hb. unfold Vabs. rewrite pow2_add, (pow2_Z b) by lia.
  apply Qmult_lt_compat_r; [apply pow2_pos|].
  now rewrite <- Zlt_Qlt.
Qed.

Lemma scaled_close (A M D P : Q) :
  (0 < P -> M - D <= A -> A <= M + D ->
   M * P - D * P <= A * P /\ A * P <= M * P + D * P)%Q.
Proof. intros. split; nra. Qed.

(** An integer bound on mantissas at a common exponent, read on values. *)
Lemma close_values m' mz ez e' :
  ez <= e' ->
  Z.abs (Zpos m' * 2 ^ (e' - ez) - Zpos mz) <= 2 ^ (e' - ez) ->
  (Vabs mz ez - pow2 e' <= Vabs m' e')%Q /\
  (Vabs m' e' <= Vabs mz ez + pow2 e')%Q.
Proof.
  intros He H.
  assert (E1 : (Vabs m' e' == inject_Z (Zpos m' * 2 ^ (e' - ez)) * pow2 ez)%Q).
  { unfold Vabs. rewrite inject_Z_mult.
    replace e' with (ez + (e' - ez)) at 1 by lia.
    rewrite pow2_shift by lia. ring. }
  assert (E2 : (pow2 e' == inject_Z (2 ^ (e' - ez)) * pow2 ez)%Q).
  { replace e' with (ez + (e' - ez)) at 1 by lia.
    rewrite pow2_shift by lia. ring. }
  rewrite E1, E2. unfold Vabs.
  apply scaled_close; [apply pow2_pos|..].
  - unfold Qminus. rewrite <- inject_Z_opp, <- inject_Z_plus, <- Zle_Qle. lia.
  - rewrite <- inject_Z_plus, <- Zle_Qle. lia.
Qed.

(** One unit in the last place is at most [2 ^ (1 - prec)] times the
    number. *)
Lemma ulp_relative pr m e :
  0 < pr -> 2 ^ (pr - 1) <= Zpos m ->
  (pow2 e <= pow2 (1 - pr) * Vabs m e)%Q.
Proof.
  intros Hpr H.
  assert (L := Vabs_lower m e (pr - 1) H ltac:(lia)).
  assert (E : (pow2 e == pow2 (1 - pr) * pow2 (pr - 1 + e))%Q).
  { rewrite <- pow2_add. replace (1 - pr + (pr - 1 + e)) with e by lia.
    reflexivity. }
  rewrite E at 1.
  rewrite (Qmult_comm (pow2 (1 - pr))), (Qmult_comm (pow2 (1 - pr))).
  apply Qmult_le_compat_r; [assumption|apply Qlt_le_weak, pow2_pos].
Qed.

Lemma shl_align_spec mx e ez :
  exists mz ez',
    shl_align mx e ez = (mz, ez') /\ ez' = Z.min e ez /\
    Zpos mz = Zpos mx * 2 ^ (e - ez') /\
    Zpos (digits2_pos mz) = Zpos (digits2_pos mx) + (e - ez').
Proof.
  unfold shl_align. destruct (ez - e) as [|dd|dd] eqn:E.
  - exists mx, e. replace (e - e) with 0 by lia.
    repeat split; lia.
  - exists mx, e. replace (e - e) with 0 by lia.
    repeat split; lia.
  - exists (Pos.iter xO mx dd), ez.
    rewrite pos_iter_nat, iter_xO_value, digits2_shifted, positive_nat_Z.
    replace (e - ez) with (Zpos dd) by lia.
    repeat split; lia.
Qed.

Section Values.
Variables pr em : Z.
Hypothesis Hpr : 0 < pr.

(** Rounding a number of the normal range: the result is finite, its
    mantissa fills the precision, and it is within one unit in the last
    place of the number rounded. *)
Lemma binary_round_normal s mx e :
  3 - em - pr <= Zpos (digits2_pos mx) + e - pr ->
  Zpos (digits2_pos mx) + e < em ->
  exists m' e',
    binary_round pr em s mx e = S754_finite s m' e' /\
    2 ^ (pr - 1) <= Zpos m' < 2 ^ pr /\
    Zpos (digits2_pos mx) + e - pr <= e' <=
      Zpos (digits2_pos mx) + e - pr + 1 /\
    (Vabs mx e - pow2 e' <= Vabs m' e')%Q /\
    (Vabs m' e' <= Vabs mx e + pow2 e')%Q.
Proof.
  set (d := Zpos (digits2_pos mx)). intros Hmin Hmax.
  unfold binary_round.
  destruct (shl_align_spec mx e (fexp pr em (Zpos (digits2_pos mx) + e)))
    as (mz & ez & -> & Hez & Hmz & Hdz).
  fold d in Hez, Hdz.
  assert (Hf : fexp pr em (d + e) = d + e - pr)
    by (unfold fexp, emin; lia).
  rewrite Hf in Hez.
  destruct (round_aux_normal pr em Hpr s mz ez loc_Exact)
    as (m' & e' & -> & Hm' & He' & Hc); try lia.
  exists m', e'. split; [reflexivity|]. split; [assumption|].
  split; [lia|].
  apply close_values in Hc; [|lia].
  assert (E : (Vabs mx e == Vabs mz ez)%Q).
  { rewrite (Vabs_shift mx e (e - ez)) by lia. unfold Vabs.
    rewrite Hmz. replace (e - (e - ez)) with ez by lia. reflexivity. }
  now rewrite E.
Qed.

(** Rounding a number that fits in the precision is exact. *)
Lemma binary_round_fits s mx e :
  Zpos (digits2_pos mx) <= pr ->
  3 - em - pr <= Zpos (digits2_pos mx) + e - pr ->
  Zpos (digits2_pos mx) + e <= em ->
  exists m',
    binary_round pr em s mx e
    = S754_finite s m' (Zpos (digits2_pos mx) + e - pr) /\
    bounded pr em m' (Zpos (digits2_pos mx) + e - pr) = true /\
    (Vabs m' (Zpos (digits2_pos mx) + e - pr) == Vabs mx e)%Q.
Proof.
  set (d := Zpos (digits2_pos mx)). intros Hd Hmin Hmax.
  unfold binary_round.
  destruct (shl_align_spec mx e (fexp pr em (Zpos (digits2_pos mx) + e)))
    as (mz & ez & -> & Hez & Hmz & Hdz).
  fold d in Hez, Hdz.
  assert (Hf : fexp pr em (d + e) = d + e - pr)
    by (unfold fexp, emin; lia).
  rewrite Hf in Hez.
  assert (Ez : ez = d + e - pr) by lia.
  assert (Hb : bounded pr em mz ez = true).
  { unfold bounded, canonical_mantissa. apply andb_true_iff.
    split; [apply Z.eqb_eq|apply Z.leb_le]; [unfold fexp, emin|]; lia. }
  rewrite round_aux_canonical by assumption.
  exists mz. rewrite <- Ez. split; [reflexivity|].
  split; [assumption|].
  rewrite (Vabs_shift mx e (e - ez)) by lia. unfold Vabs.
  rewrite Hmz. replace (e - (e - ez)) with ez by lia. reflexivity.
Qed.

End Values.

(** ** The floor of a floating-point number *)

Lemma binary_round_digits pr em s m e s' m' e' :
  0 < pr ->
  binary_round pr em s m e = S754_finite s' m' e' -> Zpos m' < 2 ^ pr.
Proof.
  intros Hpr. unfold binary_round. destruct (shl_align _ _ _) as [mz ez].
  apply round_aux_digits; lia.
Qed.

Lemma binary_normalize_digits pr em n e sz s' m' e' :
  0 < pr ->
  binary_normalize pr em n e sz = S754_finite s' m' e' -> Zpos m' < 2 ^ pr.
Proof.
  intros Hpr. destruct n; cbn [binary_normalize]; [discriminate|..];
    now apply binary_round_digits.
Qed.

Lemma prec_pos st : 0 < prec st.
Proof. now destruct st. Qed.

Lemma prec_emax st : 2 <= prec st <= emax st.
Proof. destruct st; cbn; lia. Qed.

(** The sum [t + 0.5] is a number of the format. *)
Lemma add_half_digits st t s m e :
  SFadd (prec st) (emax st) t (round_to st half_d) = S754_finite s m e ->
  Zpos m < 2 ^ prec st.
Proof.
  assert (H : exists mh eh, round_to st half_d = S754_finite false mh eh /\
                            Zpos mh < 2 ^ prec st).
  { destruct st; eexists; eexists; (split; [reflexivity|reflexivity]). }
  destruct H as (mh & eh & -> & Hh).
  destruct t as [st'|st'| |st' mt et]; cbn [SFadd]; try discriminate.
  - intros H. now injection H as <- <- <-.
  - apply binary_normalize_digits, prec_pos.
Qed.

Lemma inject_Z_succ n : (inject_Z (n + 1) == inject_Z n + 1)%Q.
Proof. now rewrite inject_Z_plus. Qed.

Lemma scaled_floor_bounds (X N P C : Q) :
  (X * P == 1 -> 0 < P -> 0 < X -> X * N <= C -> C < X * (N + 1) ->
   N <= C * P /\ C * P < N + 1)%Q.
Proof.
  intros V HP HX D1 D2. split.
  - assert (H : (X * N * P <= C * P)%Q) by nra.
    assert (E : (X * N * P == N * (X * P))%Q) by ring.
    rewrite V in E. lra.
  - assert (H : (C * P < X * (N + 1) * P)%Q) by nra.
    assert (E : (X * (N + 1) * P == (N + 1) * (X * P))%Q) by ring.
    rewrite V in E. lra.
Qed.

(** Converting a non-zero integer of at most [prec] digits is exact. *)
Lemma normalize_exact st n s :
  n <> 0 -> Z.abs n < 2 ^ prec st ->
  is_finite (binary_normalize (prec st) (emax st) n 0 s) = true /\
  valid st (binary_normalize (prec st) (emax st) n 0 s) = true /\
  (SF2Q (binary_normalize (prec st) (emax st) n 0 s) == inject_Z n)%Q.
Proof.
  intros Hn H. pose proof (prec_pos st) as Hp.
  pose proof (prec_emax st) as Hpe.
  destruct n as [|p|p]; [congruence|..]; cbn [binary_normalize];
    assert (Hd : Zpos (digits2_pos p) <= prec st)
      by (apply digits_le; lia);
    assert (Hd1 : 1 <= Zpos (digits2_pos p)) by lia.
  - destruct (binary_round_fits (prec st) (emax st) false p 0)
      as (m' & -> & Hb & V); try lia.
    split; [reflexivity|]. split; [exact Hb|].
    rewrite SF2Q_finite, V. unfold Vabs.
    change (pow2 0) with 1%Q. ring.
  - destruct (binary_round_fits (prec st) (emax st) true p 0)
      as (m' & -> & Hb & V); try lia.
    split; [reflexivity|]. split; [exact Hb|].
    rewrite SF2Q_finite, V. unfold Vabs.
    change (pow2 0) with 1%Q. change (Zneg p) with (- Zpos p).
    rewrite inject_Z_opp. ring.
Qed.

(** [SFfloor] computes the floor of every number of the format. *)
Lemma floor_value st b :
  match b with S754_finite _ m _ => Zpos m < 2 ^ prec st | _ => True end ->
  is_floor_of st b (SFfloor st b).
Proof.
  destruct b as [s|s| |s m e]; try reflexivity.
  intros Hm. cbn [SFfloor is_floor_of].
  destruct (Z.leb_spec 0 e) as [He|He].
  - split; [reflexivity|]. split; [trivial|].
    exists (cond_Zopp s (Zpos m) * 2 ^ e).
    assert (E : (SF2Q (S754_finite s m e)
                 == inject_Z (cond_Zopp s (Zpos m) * 2 ^ e))%Q).
    { cbn [SF2Q]. rewrite inject_Z_mult. now rewrite (pow2_Z e). }
    rewrite E. split; [reflexivity|]. split; [apply Qle_refl|].
    split; [rewrite <- inject_Z_succ, <- Zlt_Qlt; lia|].
    assert (0 < 2 ^ e) by (apply Z.pow_pos_nonneg; lia).
    destruct s; cbn [cond_Zopp]; nia.
  - rewrite Z.shiftr_div_pow2 by lia.
    set (c := cond_Zopp s (Zpos m)).
    set (j := - e).
    assert (Pj : 0 < 2 ^ j) by (apply Z.pow_pos_nonneg; lia).
    assert (Pj1 : 1 <= 2 ^ j) by lia.
    set (n := c / 2 ^ j).
    assert (D : 2 ^ j * n <= c < 2 ^ j * (n + 1)).
    { unfold n. split.
      - apply Z.mul_div_le. lia.
      - rewrite Z.mul_add_distr_l, Z.mul_1_r.
        pose proof (Z.mod_pos_bound c (2 ^ j) Pj).
        rewrite (Z.div_mod c (2 ^ j)) at 1 by lia. lia. }
    assert (Hc : Z.abs c < 2 ^ prec st) by (unfold c; destruct s; cbn; lia).
    assert (Hn : Z.abs n < 2 ^ prec st) by nia.
    assert (V : (inject_Z (2 ^ j) * pow2 e == 1)%Q).
    { rewrite <- (pow2_Z j) by lia. rewrite <- pow2_add.
      replace (j + e) with 0 by (unfold j; lia). reflexivity. }
    assert (Pe := pow2_pos e).
    assert (Qj : (0 < inject_Z (2 ^ j))%Q).
    { change 0%Q with (inject_Z 0). now rewrite <- Zlt_Qlt. }
    assert (D1 : (inject_Z (2 ^ j) * inject_Z n <= inject_Z c)%Q).
    { rewrite <- inject_Z_mult, <- Zle_Qle. lia. }
    assert (D2 : (inject_Z c < inject_Z (2 ^ j) * (inject_Z n + 1))%Q).
    { rewrite <- inject_Z_succ, <- inject_Z_mult, <- Zlt_Qlt. lia. }
    assert (B : (inject_Z n <= SF2Q (S754_finite s m e))%Q /\
                (SF2Q (S754_finite s m e) < inject_Z n + 1)%Q).
    { cbn [SF2Q]. fold c.
      now apply (scaled_floor_bounds (inject_Z (2 ^ j))). }
    destruct (Z.eq_dec n 0) as [E0|E0].
    + rewrite E0 in *. cbn [binary_normalize]. split; [reflexivity|].
      split; [reflexivity|].
      exists 0. split; [reflexivity|]. now repeat split.
    + destruct (normalize_exact st n s E0 Hn) as (F & Vl & VN).
      split; [exact F|]. split; [intros _; exact Vl|].
      exists n. split; [exact VN|]. split; [apply B|].
      split; [apply B|]. intros; contradiction.
Qed.

Lemma SF2Q_small n :
  Z.abs n < 2 ^ 24 -> (SF2Q (small_float n) == inject_Z n)%Q.
Proof.
  intros H. destruct (Z.eq_dec n 0) as [->|Hn]; [reflexivity|].
  rewrite <- of_int_small by assumption.
  now apply (normalize_exact Float n false).
Qed.

Lemma small_float_inj a b :
  Z.abs a < 2 ^ 24 -> Z.abs b < 2 ^ 24 ->
  small_float a = small_float b -> a = b.
Proof.
  intros Ha Hb E. apply (f_equal SF2Q) in E.
  assert (Q : (inject_Z a == inject_Z b)%Q).
  { rewrite <- (SF2Q_small a), <- (SF2Q_small b) by assumption.
    now rewrite E. }
  now apply inject_Z_injective.
Qed.

(** ** The forward formula in binary32 *)

(** C1, which fails as stated: the formula is not evaluated on exact
    numbers, nor in binary64.  For [x = 0.49999997] (the binary32 number
    [16777215 / 2^25]), [scale = 1], [zero_point = 0] and the range
    [0..255], the forward operator returns [[1.0]]: the binary32 sum
    [x + 0.5] rounds to [1.0].  The formula of the claim gives [0] on exact
    numbers, and also when every step is rounded to binary64. *)
Lemma C1_counterexample :
  let x := f32 16777215 33554432 in
  fake_quantize_per_tensor_affine_cpu (mkTensor Float [x]) (f64 1 1)
    0 0 255 0 0 = Ok (mkTensor Float [f32 1 1]) /\
  (SF2Q (f32 1 1) == 1)%Q /\
  (formula_exact (SF2Q (f64 1 1)) 0 0 255 (SF2Q x) == 0)%Q /\
  fake_quantize_elt Double (f64 1 1) 0 0 255 (round_to Double x)
  = S754_zero false.
Proof. cbv zeta. repeat split. Qed.

(** C1, amended.  For a [Float] input and parameters passing validation,
    with the delay gate active, the forward operator returns an array [Y] of
    the length of [X] with
    [Y[i] = (clamp(floor(X[i] * inv + 0.5) + zero_point, quant_min,
    quant_max) - zero_point) * scale] evaluated in binary32: [inv] is
    [1/scale] computed in binary64 and rounded to binary32; [zero_point],
    [quant_min], [quant_max] and [scale] are rounded to binary32; the
    product, the sums, the difference and the last product are each rounded
    to nearest, ties to even; [r] is the floor of the rounded sum
    [X[i] * inv + 0.5] (round half up of that binary32 number); and
    [clamp(v, lo, hi)] is [min(max(v, lo), hi)], a NaN passing through,
    applied before [zero_point] is subtracted again.  The statement is
    written with the operations of the IEEE-754 library only. *)
Theorem C1_forward_formula_binary32
    self scale zero_point quant_min quant_max quant_delay iter :
  scalar_type self = Float ->
  params_valid zero_point quant_min quant_max quant_delay iter ->
  gate_active quant_delay iter ->
  exists Y,
    fake_quantize_per_tensor_affine_cpu self scale zero_point quant_min
      quant_max quant_delay iter = Ok Y /\
    size Y = size self /\
    forall i, (i < size self)%nat ->
      let narrow d :=
        match d with
        | S754_finite s m e => binary_round 24 128 s m e
        | _ => d
        end in
      let conv n := binary_normalize 24 128 n 0 false in
      let inv :=
        narrow (SFdiv 53 1024 (S754_finite false 4503599627370496 (-52))
                  scale) in
      let sum :=
        SFadd 24 128 (SFmul 24 128 (get self i) inv)
          (S754_finite false 8388608 (-24)) in
      exists r,
        is_floor_of Float sum r /\
        let v := SFadd 24 128 r (conv zero_point) in
        let w := if SFltb v (conv quant_min) then conv quant_min else v in
        let q := if SFltb (conv quant_max) w then conv quant_max else w in
        get Y i = SFmul 24 128 (SFsub 24 128 q (conv zero_point))
                    (narrow scale).
Proof.
  intros Hty Hval Hgate.
  destruct (forward_active self scale zero_point quant_min quant_max
              quant_delay iter Hty Hval Hgate) as (Y & HY & Hlen & Helt).
  exists Y. split; [exact HY|]. split; [exact Hlen|].
  intros i Hi narrow conv inv sum.
  exists (SFfloor Float sum). split.
  - apply floor_value. destruct sum as [s|s| |s m e] eqn:E; try exact I.
    now apply (add_half_digits Float) in E.
  - cbv zeta. rewrite (Helt i Hi). reflexivity.
Qed.

Lemma C1_forward_formula_binary32_witness :
  exists Y,
    fake_quantize_per_tensor_affine_cpu X_scenario (f64 1 10) 3 0 255 2 5
    = Ok Y /\
    size Y = size X_scenario /\
    forall i, (i < size X_scenario)%nat ->
      let narrow d :=
        match d with
        | S754_finite s m e => binary_round 24 128 s m e
        | _ => d
        end in
      let conv n := binary_normalize 24 128 n 0 false in
      let inv :=
        narrow (SFdiv 53 1024 (S754_finite false 4503599627370496 (-52))
                  (f64 1 10)) in
      let sum :=
        SFadd 24 128 (SFmul 24 128 (get X_scenario i) inv)
          (S754_finite false 8388608 (-24)) in
      exists r,
        is_floor_of Float sum r /\
        let v := SFadd 24 128 r (conv 3) in
        let w := if SFltb v (conv 0) then conv 0 else v in
        let q := if SFltb (conv 255) w then conv 255 else w in
        get Y i = SFmul 24 128 (SFsub 24 128 q (conv 3)) (narrow (f64 1 10)).
Proof.
  apply (C1_forward_formula_binary32 X_scenario (f64 1 10) 3 0 255 2 5).
  - reflexivity.
  - unfold params_valid. lia.
  - right. lia.
Defined.


(** ** The mask of the backward operator *)

Lemma in_range_integers v quant_min quant_max :
  int_shape v ->
  - 2 ^ 23 < quant_min -> quant_min <= quant_max -> quant_max < 2 ^ 23 ->
  (SFleb (of_int Float quant_min) v && SFleb v (of_int Float quant_max)
   = true <->
   exists n, quant_min <= n <= quant_max /\ v = of_int Float n /\
             (SF2Q v == inject_Z n)%Q).
Proof.
  intros Hv Hlo Hle Hhi.
  assert (Hmin : Z.abs quant_min < 2 ^ 23) by lia.
  assert (Hmax : Z.abs quant_max < 2 ^ 23) by lia.
  rewrite (of_int_small quant_min), (of_int_small quant_max) by lia.
  destruct Hv as [->|[(n & Hn & ->)|(s & Hs)]].
  - split.
    { intros H. apply andb_true_iff in H. destruct H as [_ H]. discriminate. }
    intros (n & Hn & E & _). rewrite of_int_small in E by lia.
    pose proof (is_nan_small n) as N. rewrite <- E in N. discriminate.
  - rewrite !SFleb_small by lia. split.
    + intros H. apply andb_true_iff in H. destruct H as [H1 H2].
      apply Z.leb_le in H1, H2. exists n.
      split; [lia|]. split; [now rewrite of_int_small by lia|].
      now apply SF2Q_small.
    + intros (k & Hk & E & _). rewrite of_int_small in E by lia.
      apply small_float_inj in E; lia.
  - destruct (huge_compare s v quant_min Hs Hmin) as [_ C1].
    destruct (huge_compare s v quant_max Hs Hmax) as [C2 _].
    unfold SFleb. rewrite C1, C2. split.
    + destruct s; discriminate.
    + intros (k & Hk & E & _). rewrite of_int_small in E by lia.
      destruct (huge_compare s v k Hs ltac:(lia)) as [C3 _].
      rewrite E, small_compare in C3 by lia.
      rewrite Z.compare_refl in C3. destruct s; discriminate.
Qed.

(** C2, amended.  For [X] not empty, [dY] of the same length and parameters
    passing validation, with the delay gate active, the backward operator
    returns [dX] of that length.  With [Xq[i]] the value before clamping,
    [floor(X[i] * inv + 0.5) + zero_point] evaluated in the element type of
    [X] ([inv] being [1/scale] computed in binary64 and rounded to that
    type, [r] the floor of the rounded sum), and with [quant_min] and
    [quant_max] rounded to the element type of [X]:
    [dX[i] = dY[i]] if [quant_min <= Xq[i] <= quant_max], both bounds
    included, and [dX[i]] is a zero otherwise provided [dY[i]] is finite.
    For a [Float] array [X] with [zero_point < 2^23] and
    [-2^23 < quant_min <= quant_max < 2^23] the conversions are exact, and
    the test holds exactly when [Xq[i]] is an integer [n] with
    [quant_min <= n <= quant_max].  The mask comes from [Xq], not from the
    dequantised output. *)
Theorem C2_backward_mask_exact
    dY X scale zero_point quant_min quant_max quant_delay iter :
  params_valid zero_point quant_min quant_max quant_delay iter ->
  gate_active quant_delay iter ->
  (0 < size X)%nat -> size X = size dY ->
  exists dX,
    fake_quantize_per_tensor_affine_backward_cpu dY X scale zero_point
      quant_min quant_max quant_delay iter = Ok dX /\
    size dX = size dY /\
    forall i, (i < size dY)%nat ->
      let p := prec (scalar_type X) in
      let em := emax (scalar_type X) in
      let narrow d :=
        match d with
        | S754_finite s m e => binary_round p em s m e
        | _ => d
        end in
      let conv n := binary_normalize p em n 0 false in
      let inv :=
        narrow (SFdiv 53 1024 (S754_finite false 4503599627370496 (-52))
                  scale) in
      let sum :=
        SFadd p em (SFmul p em (get X i) inv)
          (narrow (S754_finite false 4503599627370496 (-53))) in
      exists r,
        is_floor_of (scalar_type X) sum r /\
        let Xq := SFadd p em r (conv zero_point) in
        let inside :=
          SFleb (conv quant_min) Xq && SFleb Xq (conv quant_max) in
        (inside = true -> valid (scalar_type dY) (get dY i) = true ->
           get dX i = get dY i) /\
        (inside = false -> is_finite (get dY i) = true ->
           is_zero (get dX i) = true) /\
        (scalar_type X = Float ->
         zero_point < 2 ^ 23 -> - 2 ^ 23 < quant_min -> quant_max < 2 ^ 23 ->
         (inside = true <->
          exists n, quant_min <= n <= quant_max /\ Xq = conv n /\
                    (SF2Q Xq == inject_Z n)%Q)).
Proof.
  intros Hval Hgate Hne Hsz.
  destruct (backward_active dY X scale zero_point quant_min quant_max
              quant_delay iter Hval Hgate Hne Hsz) as (dX & HdX & Hlen & Helt).
  exists dX. split; [exact HdX|]. split; [exact Hlen|].
  intros i Hi p em narrow conv inv sum.
  exists (SFfloor (scalar_type X) sum). split.
  - apply floor_value. destruct sum as [s|s| |s m e] eqn:E; try exact I.
    now apply (add_half_digits (scalar_type X)) in E.
  - intros Xq inside. specialize (Helt i Hi).
    unfold backward_elt in Helt.
    change (in_range (scalar_type X) scale zero_point quant_min quant_max
              (get X i)) with inside in Helt.
    split; [|split].
    + intros Hin Hdy. rewrite Helt, Hin. now apply mask_times_true.
    + intros Hin Hdy. rewrite Helt, Hin, mask_times_false.
      destruct (get dY i); try discriminate; auto.
    + intros Hty Hzp Hlo Hhi. destruct Hval as (Hle & Hzp0 & _).
      subst inside Xq conv sum inv narrow p em. rewrite Hty.
      apply in_range_integers; try assumption.
      apply add_int_shape; [apply floor_has_shape|lia].
Qed.

Lemma C2_backward_mask_exact_witness :
  let dY := mkTensor Float [f32 7 4; f32 (-9) 8] in
  let X := mkTensor Float [f32 31 10; f32 (-3) 1] in
  exists dX,
    fake_quantize_per_tensor_affine_backward_cpu dY X (f64 1 10) 2 0 255 0 0
    = Ok dX /\
    size dX = size dY /\
    forall i, (i < size dY)%nat ->
      let narrow d :=
        match d with
        | S754_finite s m e => binary_round 24 128 s m e
        | _ => d
        end in
      let conv n := binary_normalize 24 128 n 0 false in
      let inv :=
        narrow (SFdiv 53 1024 (S754_finite false 4503599627370496 (-52))
                  (f64 1 10)) in
      let sum :=
        SFadd 24 128 (SFmul 24 128 (get X i) inv)
          (narrow (S754_finite false 4503599627370496 (-53))) in
      exists r,
        is_floor_of Float sum r /\
        let Xq := SFadd 24 128 r (conv 2) in
        let inside := SFleb (conv 0) Xq && SFleb Xq (conv 255) in
        (inside = true -> valid Float (get dY i) = true ->
           get dX i = get dY i) /\
        (inside = false -> is_finite (get dY i) = true ->
           is_zero (get dX i) = true) /\
        (Float = Float ->
         2 < 2 ^ 23 -> - 2 ^ 23 < 0 -> 255 < 2 ^ 23 ->
         (inside = true <->
          exists n, 0 <= n <= 255 /\ Xq = conv n /\
                    (SF2Q Xq == inject_Z n)%Q)).
Proof.
  apply (C2_backward_mask_exact
           (mkTensor Float [f32 7 4; f32 (-9) 8])
           (mkTensor Float [f32 31 10; f32 (-3) 1]) (f64 1 10) 2 0 255 0 0).
  - unfold params_valid. lia.
  - left. reflexivity.
  - unfold size. simpl. lia.
  - reflexivity.
Defined.


(** ** Normal numbers: products and roundings with their error *)

Lemma relative_bounds (u R X D : Q) :
  (D <= u * R -> X - D <= R -> R <= X + D ->
   (1 - u) * R <= X /\ X <= (1 + u) * R)%Q.
Proof. intros. split; nra. Qed.

Lemma Vabs_mul mx ex my ey :
  (Vabs (mx * my) (ex + ey) == Vabs mx ex * Vabs my ey)%Q.
Proof.
  unfold Vabs. rewrite Pos2Z.inj_mul, inject_Z_mult, pow2_add. ring.
Qed.

(** The magnitude of a number, read off its value. *)
Lemma magnitude_above m e a :
  (pow2 a <= Vabs m e)%Q -> a < Zpos (digits2_pos m) + e.
Proof.
  intros H. destruct (Z_lt_le_dec a (Zpos (digits2_pos m) + e)) as [L|L];
    [assumption|exfalso].
  pose proof (Vabs_upper m e (Zpos (digits2_pos m))
                (proj2 (digits_bounds m)) ltac:(lia)) as U.
  pose proof (pow2_le _ _ L) as P. lra.
Qed.

Lemma magnitude_below m e b :
  (Vabs m e < pow2 b)%Q -> Zpos (digits2_pos m) + e <= b.
Proof.
  intros H. destruct (Z_le_gt_dec (Zpos (digits2_pos m) + e) b) as [L|L];
    [assumption|exfalso].
  pose proof (Vabs_lower m e (Zpos (digits2_pos m) - 1)
                (proj1 (digits_bounds m)) ltac:(lia)) as U.
  assert (L' : b <= Zpos (digits2_pos m) - 1 + e) by lia.
  pose proof (pow2_le _ _ L') as P. lra.
Qed.

Section NormalNumbers.
Variables pr em : Z.
Hypothesis Hpr : 0 < pr.

Lemma rel_close m' e' X :
  2 ^ (pr - 1) <= Zpos m' ->
  (X - pow2 e' <= Vabs m' e')%Q -> (Vabs m' e' <= X + pow2 e')%Q ->
  ((1 - pow2 (1 - pr)) * Vabs m' e' <= X)%Q /\
  (X <= (1 + pow2 (1 - pr)) * Vabs m' e')%Q.
Proof.
  intros Hm H1 H2.
  apply (relative_bounds _ _ _ (pow2 e')); try assumption.
  now apply ulp_relative.
Qed.

Lemma digits_mul mx my :
  2 ^ (pr - 1) <= Zpos mx < 2 ^ pr ->
  2 ^ (pr - 1) <= Zpos my < 2 ^ pr ->
  2 * pr - 1 <= Zpos (digits2_pos (mx * my)) <= 2 * pr.
Proof.
  intros Hx Hy.
  assert (P1 : 0 < 2 ^ (pr - 1)) by (apply Z.pow_pos_nonneg; lia).
  assert (E1 : 2 ^ (2 * pr - 2) = 2 ^ (pr - 1) * 2 ^ (pr - 1)).
  { rewrite <- Z.pow_add_r by lia. f_equal. lia. }
  assert (E2 : 2 ^ (2 * pr) = 2 ^ pr * 2 ^ pr).
  { rewrite <- Z.pow_add_r by lia. f_equal. lia. }
  split.
  - assert (2 * pr - 2 < Zpos (digits2_pos (mx * my))); [|lia].
    apply digits_gt; [lia|]. rewrite Pos2Z.inj_mul. nia.
  - apply digits_le; [lia|]. rewrite Pos2Z.inj_mul. nia.
Qed.

(** The product of two normal numbers, away from underflow and overflow. *)
Lemma mul_normal sx mx ex sy my ey :
  2 ^ (pr - 1) <= Zpos mx < 2 ^ pr ->
  2 ^ (pr - 1) <= Zpos my < 2 ^ pr ->
  3 - em - pr <= ex + ey + pr - 1 ->
  ex + ey + 2 * pr < em ->
  exists m' e',
    SFmul pr em (S754_finite sx mx ex) (S754_finite sy my ey)
    = S754_finite (xorb sx sy) m' e' /\
    2 ^ (pr - 1) <= Zpos m' < 2 ^ pr /\
    ex + ey + pr - 1 <= e' <= ex + ey + pr + 1 /\
    ((1 - pow2 (1 - pr)) * Vabs m' e' <= Vabs mx ex * Vabs my ey)%Q /\
    (Vabs mx ex * Vabs my ey <= (1 + pow2 (1 - pr)) * Vabs m' e')%Q.
Proof.
  intros Hx Hy Hmin Hmax. cbn [SFmul].
  pose proof (digits_mul mx my Hx Hy) as Hd.
  destruct (round_aux_normal pr em Hpr (xorb sx sy) (mx * my)
              (ex + ey) loc_Exact)
    as (m' & e' & -> & Hm' & He' & Hc); try lia.
  exists m', e'. split; [reflexivity|]. split; [assumption|].
  split; [lia|].
  apply close_values in Hc; [|lia].
  rewrite Vabs_mul in Hc.
  apply rel_close; tauto || lia.
Qed.

(** Rounding a normal number into the format. *)
Lemma round_normal s mx e :
  3 - em - pr <= Zpos (digits2_pos mx) + e - pr ->
  Zpos (digits2_pos mx) + e < em ->
  exists m' e',
    binary_round pr em s mx e = S754_finite s m' e' /\
    2 ^ (pr - 1) <= Zpos m' < 2 ^ pr /\
    Zpos (digits2_pos mx) + e - pr <= e' <=
      Zpos (digits2_pos mx) + e - pr + 1 /\
    (Vabs mx e - pow2 e' <= Vabs m' e')%Q /\
    (Vabs m' e' <= Vabs mx e + pow2 e')%Q /\
    ((1 - pow2 (1 - pr)) * Vabs m' e' <= Vabs mx e)%Q /\
    (Vabs mx e <= (1 + pow2 (1 - pr)) * Vabs m' e')%Q.
Proof.
  intros Hmin Hmax.
  destruct (binary_round_normal pr em Hpr s mx e Hmin Hmax)
    as (m' & e' & E & Hm' & He' & C1 & C2).
  exists m', e'. repeat (split; [assumption|]).
  apply rel_close; tauto || lia.
Qed.

End NormalNumbers.

(** ** The reciprocal of the scale *)

Lemma div_core_one Ms Es :
  Zpos (digits2_pos Ms) = 53 -> -153 <= Es <= 47 ->
  SFdiv_core_binary 53 1024 4503599627370496 (-52) (Zpos Ms) Es
  = (2 ^ 105 / Zpos Ms, -105 - Es,
     new_location (Zpos Ms) (2 ^ 105 mod Zpos Ms)).
Proof.
  intros Hd HE. unfold SFdiv_core_binary. cbn [Zdigits2]. rewrite Hd.
  change (Zpos (digits2_pos 4503599627370496)) with 53.
  assert (E : Z.min (fexp 53 1024 (53 + -52 - (53 + Es))) (-52 - Es)
              = -105 - Es) by (unfold fexp, emin; lia).
  rewrite E.
  replace (-52 - Es - (-105 - Es)) with 53 by lia.
  change (Z.shiftl 4503599627370496 53) with (2 ^ 105).
  unfold Z.div, Z.modulo.
  destruct (Z.div_eucl (2 ^ 105) (Zpos Ms)) as [q r]. reflexivity.
Qed.

Lemma reciprocal_bounds (P QS : Q) :
  ((1 - (1 # 4503599627370496)) * P <= QS ->
   QS <= (1 + (1 # 4503599627370496)) * P ->
   1 - (1 # 4503599627370496) <= QS -> QS <= 1 ->
   1 - (1 # 1125899906842624) <= P /\ P <= 1 + (1 # 1125899906842624))%Q.
Proof. intros. split; lra. Qed.

Lemma mul_bounds_r (w I X S : Q) :
  (0 < S -> (1 - w) * I <= X -> X <= (1 + w) * I ->
   (1 - w) * (I * S) <= X * S /\ X * S <= (1 + w) * (I * S))%Q.
Proof. intros. split; nra. Qed.

Lemma scaled_unit (A B C p c : Q) :
  (B * p == 1 -> C * p == c -> 0 < p -> B - C <= A -> A <= B ->
   1 - c <= A * p /\ A * p <= 1)%Q.
Proof.
  intros HB HC Hp H1 H2.
  assert (E1 : ((B - C) * p <= A * p)%Q) by nra.
  assert (E2 : (A * p <= B * p)%Q) by nra.
  assert (E3 : ((B - C) * p == B * p - C * p)%Q) by ring.
  rewrite E3, HB, HC in E1. rewrite HB in E2. now split.
Qed.

(** The reciprocal of an ordinary scale, computed in binary64. *)
Lemma inv_scale_normal ss Ms Es :
  2 ^ 52 <= Zpos Ms < 2 ^ 53 -> -153 <= Es <= 47 ->
  exists m e,
    inv_scale (S754_finite ss Ms Es) = S754_finite ss m e /\
    2 ^ 52 <= Zpos m < 2 ^ 53 /\
    -105 - Es <= e <= -103 - Es /\
    (1 - (1 # 1125899906842624) <= Vabs m e * Vabs Ms Es)%Q /\
    (Vabs m e * Vabs Ms Es <= 1 + (1 # 1125899906842624))%Q.
Proof.
  intros HM HE.
  assert (Hd : Zpos (digits2_pos Ms) = 53) by (apply digits_unique; lia).
  unfold inv_scale, one_d. change (prec Double) with 53.
  change (emax Double) with 1024. cbn [SFdiv].
  rewrite div_core_one by assumption. cbn [xorb].
  assert (P105 : 2 ^ 105 = 2 ^ 52 * 2 ^ 53) by reflexivity.
  assert (P53 : 0 < 2 ^ 53) by reflexivity.
  assert (P52 : 0 < 2 ^ 52) by reflexivity.
  set (q := 2 ^ 105 / Zpos Ms).
  assert (Dq : Zpos Ms * q <= 2 ^ 105 < Zpos Ms * (q + 1)).
  { unfold q. split.
    - apply Z.mul_div_le. lia.
    - rewrite Z.mul_add_distr_l, Z.mul_1_r.
      pose proof (Z.mod_pos_bound (2 ^ 105) (Zpos Ms) ltac:(lia)).
      rewrite (Z.div_mod (2 ^ 105) (Zpos Ms)) at 1 by lia. lia. }
  assert (Bq : 2 ^ 52 <= q < 2 ^ 54).
  { change (2 ^ 54) with (2 * 2 ^ 53). nia. }
  destruct q as [|qp|qp] eqn:Eq; try lia.
  assert (Hdq : 53 <= Zpos (digits2_pos qp) <= 54).
  { split.
    - assert (52 < Zpos (digits2_pos qp)); [|lia]. apply digits_gt; lia.
    - apply digits_le; lia. }
  destruct (round_aux_normal 53 1024 ltac:(lia) ss qp (-105 - Es)
              (new_location (Zpos Ms) (2 ^ 105 mod Zpos Ms)))
    as (m & e & -> & Hm & He & Hc); try lia.
  exists m, e. split; [reflexivity|]. split; [assumption|].
  split; [lia|].
  apply close_values in Hc; [|lia].
  destruct Hc as [C1 C2].
  destruct (rel_close 53 ltac:(lia) m e (Vabs qp (-105 - Es)) (proj1 Hm) C1 C2)
    as [R1 R2].
  change (pow2 (1 - 53)) with (1 # 4503599627370496)%Q in R1, R2.
  assert (PS := Vabs_pos Ms Es).
  assert (QS : (Vabs qp (-105 - Es) * Vabs Ms Es
                == inject_Z (Zpos Ms * Zpos qp) * pow2 (-105))%Q).
  { unfold Vabs. rewrite inject_Z_mult.
    replace (-105) with ((-105 - Es) + Es) at 2 by lia.
    rewrite pow2_add. ring. }
  assert (U : (inject_Z (2 ^ 105) * pow2 (-105) == 1)%Q) by reflexivity.
  assert (L1 : (inject_Z (Zpos Ms * Zpos qp) <= inject_Z (2 ^ 105))%Q)
    by (rewrite <- Zle_Qle; lia).
  assert (L2 : (inject_Z (2 ^ 105) - inject_Z (2 ^ 53)
                <= inject_Z (Zpos Ms * Zpos qp))%Q).
  { unfold Qminus. rewrite <- inject_Z_opp, <- inject_Z_plus, <- Zle_Qle.
    lia. }
  assert (U2 : (inject_Z (2 ^ 53) * pow2 (-105) == 1 # 4503599627370496)%Q)
    by reflexivity.
  assert (Pp := pow2_pos (-105)).
  destruct (mul_bounds_r _ _ _ _ PS R1 R2) as [M1 M2].
  destruct (scaled_unit _ _ _ _ _ U U2 Pp L2 L1) as [S1 S2].
  rewrite <- QS in S1, S2.
  now apply (reciprocal_bounds _ (Vabs qp (-105 - Es) * Vabs Ms Es)).
Qed.

(** ** The error of dequantisation followed by requantisation *)

Lemma mul_mono (a b c d : Q) :
  (0 <= a -> a <= b -> 0 <= c -> c <= d -> a * c <= b * d)%Q.
Proof. intros. nra. Qed.

Lemma chain_products (lo hi vl vh S S32 I64 I32 K Y T : Q) :
  (0 < lo -> lo <= hi -> 0 < S32 -> 0 < I32 -> 0 < Y -> 0 < T -> 0 < K ->
   lo * S32 <= S -> S <= hi * S32 ->
   vl <= I64 * S -> I64 * S <= vh ->
   lo * I32 <= I64 -> I64 <= hi * I32 ->
   lo * Y <= K * S32 -> K * S32 <= hi * Y ->
   lo * T <= Y * I32 -> Y * I32 <= hi * T ->
   lo * lo * lo * lo * T <= vh * K /\ vl * K <= hi * hi * hi * hi * T)%Q.
Proof.
  intros Hlo Hhi P1 P2 P3 P4 P5 S1 S2 V1 V2 I1 I2 Y1 Y2 T1 T2.
  assert (L0 : (0 <= lo * S32)%Q) by nra.
  assert (L1 : (0 <= lo * I32)%Q) by nra.
  assert (PS : (0 <= S)%Q) by lra.
  assert (PI : (0 <= I64)%Q) by lra.
  assert (A1 : ((lo * S32) * (lo * I32) <= S * I64)%Q)
    by (apply mul_mono; assumption).
  assert (A2 : (S * I64 <= (hi * S32) * (hi * I32))%Q)
    by (apply mul_mono; assumption).
  assert (W : (0 < S32 * I32)%Q) by nra.
  set (w := (S32 * I32)%Q) in *.
  assert (A1' : (lo * lo * w <= vh)%Q).
  { assert (E : ((lo * S32) * (lo * I32) == lo * lo * w)%Q)
      by (unfold w; ring).
    assert (E' : (S * I64 == I64 * S)%Q) by ring. lra. }
  assert (A2' : (vl <= hi * hi * w)%Q).
  { assert (E : ((hi * S32) * (hi * I32) == hi * hi * w)%Q)
      by (unfold w; ring).
    assert (E' : (S * I64 == I64 * S)%Q) by ring. lra. }
  assert (B1 : (lo * lo * T <= K * w)%Q).
  { assert (X1 : (lo * (lo * T) <= lo * (Y * I32))%Q)
      by (apply Qmult_le_l; assumption).
    assert (X2 : ((lo * Y) * I32 <= (K * S32) * I32)%Q)
      by (apply Qmult_le_compat_r; lra).
    assert (E1 : (lo * (Y * I32) == (lo * Y) * I32)%Q) by ring.
    assert (E2 : ((K * S32) * I32 == K * w)%Q) by (unfold w; ring).
    assert (E3 : (lo * (lo * T) == lo * lo * T)%Q) by ring.
    lra. }
  assert (B2 : (K * w <= hi * hi * T)%Q).
  { assert (Hh : (0 < hi)%Q) by lra.
    assert (X1 : (hi * (Y * I32) <= hi * (hi * T))%Q)
      by (apply Qmult_le_l; assumption).
    assert (X2 : ((K * S32) * I32 <= (hi * Y) * I32)%Q)
      by (apply Qmult_le_compat_r; lra).
    assert (E1 : (hi * (Y * I32) == (hi * Y) * I32)%Q) by ring.
    assert (E2 : ((K * S32) * I32 == K * w)%Q) by (unfold w; ring).
    assert (E3 : (hi * (hi * T) == hi * hi * T)%Q) by ring.
    lra. }
  split.
  - assert (X1 : ((lo * lo) * (lo * lo * T) <= (lo * lo) * (K * w))%Q).
    { apply Qmult_le_l; [nra|assumption]. }
    assert (X2 : (K * (lo * lo * w) <= K * vh)%Q)
      by (apply Qmult_le_l; assumption).
    assert (E1 : ((lo * lo) * (lo * lo * T) == lo * lo * lo * lo * T)%Q)
      by ring.
    assert (E2 : ((lo * lo) * (K * w) == K * (lo * lo * w))%Q) by ring.
    assert (E3 : (K * vh == vh * K)%Q) by ring.
    lra.
  - assert (Hh : (0 < hi)%Q) by lra.
    assert (X1 : ((hi * hi) * (K * w) <= (hi * hi) * (hi * hi * T))%Q).
    { apply Qmult_le_l; [nra|assumption]. }
    assert (X2 : (K * vl <= K * (hi * hi * w))%Q)
      by (apply Qmult_le_l; assumption).
    assert (E1 : ((hi * hi) * (hi * hi * T) == hi * hi * hi * hi * T)%Q)
      by ring.
    assert (E2 : ((hi * hi) * (K * w) == K * (hi * hi * w))%Q) by ring.
    assert (E3 : (K * vl == vl * K)%Q) by ring.
    lra.
Qed.

(** The error of dequantising and requantising a level at most [2^19 - 1]
    away from [zero_point] is at most a quarter. *)
Lemma chain_bound (S S32 I64 I32 K Y T : Q) :
  (0 < S32 -> 0 < I32 -> 0 < Y -> 0 < T ->
   (1 - (1 # 8388608)) * S32 <= S -> S <= (1 + (1 # 8388608)) * S32 ->
   1 - (1 # 1125899906842624) <= I64 * S ->
   I64 * S <= 1 + (1 # 1125899906842624) ->
   (1 - (1 # 8388608)) * I32 <= I64 -> I64 <= (1 + (1 # 8388608)) * I32 ->
   (1 - (1 # 8388608)) * Y <= K * S32 -> K * S32 <= (1 + (1 # 8388608)) * Y ->
   (1 - (1 # 8388608)) * T <= Y * I32 -> Y * I32 <= (1 + (1 # 8388608)) * T ->
   1 <= K -> K <= 524287 ->
   K - (1 # 4) <= T /\ T <= K + (1 # 4))%Q.
Proof.
  intros P1 P2 P3 P4 S1 S2 V1 V2 I1 I2 Y1 Y2 T1 T2 K1 K2.
  destruct (chain_products (1 - (1 # 8388608)) (1 + (1 # 8388608))
              (1 - (1 # 1125899906842624)) (1 + (1 # 1125899906842624))
              S S32 I64 I32 K Y T) as [H1 H2];
    try assumption; lra.
Qed.

(** ** Round half up near an integer *)

Lemma normalize_small_sign n s :
  n <> 0 -> Z.abs n < 2 ^ 24 ->
  binary_normalize 24 128 n 0 s = small_float n.
Proof.
  intros Hn H. rewrite <- of_int_small by assumption.
  destruct n; [congruence|reflexivity..].
Qed.

Lemma unscale_bounds (X N P C : Q) :
  (X * P == 1 -> 0 < X -> N <= C * P -> C * P < N + 1 ->
   X * N <= C /\ C < X * (N + 1))%Q.
Proof.
  intros V HX H1 H2.
  assert (E : (X * (C * P) == C)%Q).
  { assert (E' : (X * (C * P) == C * (X * P))%Q) by ring.
    rewrite E', V. ring. }
  split.
  - assert (H : (X * N <= X * (C * P))%Q) by (apply Qmult_le_l; assumption).
    now rewrite E in H.
  - assert (H : (X * (C * P) < X * (N + 1))%Q)
      by (apply Qmult_lt_l; assumption).
    now rewrite E in H.
Qed.

(** The floor of a number with a negative exponent, from bounds on its
    value. *)
Lemma floor_from_value c e K :
  e < 0 ->
  (inject_Z K <= inject_Z c * pow2 e)%Q ->
  (inject_Z c * pow2 e < inject_Z K + 1)%Q ->
  Z.shiftr c (- e) = K.
Proof.
  intros He H1 H2. rewrite Z.shiftr_div_pow2 by lia.
  set (j := - e).
  assert (Pj : 0 < 2 ^ j) by (apply Z.pow_pos_nonneg; lia).
  assert (V : (inject_Z (2 ^ j) * pow2 e == 1)%Q).
  { rewrite <- (pow2_Z j) by lia. rewrite <- pow2_add.
    replace (j + e) with 0 by (unfold j; lia). reflexivity. }
  assert (Qj : (0 < inject_Z (2 ^ j))%Q).
  { change 0%Q with (inject_Z 0). now rewrite <- Zlt_Qlt. }
  destruct (unscale_bounds _ _ _ _ V Qj H1 H2) as [B1 B2].
  rewrite <- inject_Z_mult, <- Zle_Qle in B1.
  rewrite <- inject_Z_succ, <- inject_Z_mult, <- Zlt_Qlt in B2.
  symmetry. apply (Z.div_unique c (2 ^ j) K (c - 2 ^ j * K)); lia.
Qed.

(** The canonical form of a small positive integer is a normal number. *)
Lemma mant24_normal p b :
  Zpos p < 2 ^ b -> 0 <= b <= 24 ->
  2 ^ 23 <= Zpos (mant24 p) < 2 ^ 24 /\
  -23 <= exp24 p <= b - 24 /\
  (Vabs (mant24 p) (exp24 p) == inject_Z (Zpos p))%Q.
Proof.
  intros Hp Hb.
  assert (Hd : Zpos (digits2_pos p) <= b) by (apply digits_le; lia).
  pose proof (digits_bounds p) as B.
  set (d := Zpos (digits2_pos p)) in *.
  assert (Hd1 : 1 <= d) by (unfold d; lia).
  assert (Hm : Zpos (mant24 p) = Zpos p * 2 ^ (24 - d)).
  { unfold mant24. rewrite iter_xO_value, Z2Nat.id by (fold d; lia).
    reflexivity. }
  assert (P : 0 < 2 ^ (24 - d)) by (apply Z.pow_pos_nonneg; lia).
  assert (E1 : 2 ^ 24 = 2 ^ d * 2 ^ (24 - d)).
  { rewrite <- Z.pow_add_r by lia. f_equal. lia. }
  assert (E2 : 2 ^ 23 = 2 ^ (d - 1) * 2 ^ (24 - d)).
  { rewrite <- Z.pow_add_r by lia. f_equal. lia. }
  split; [rewrite Hm, E1, E2; nia|].
  split; [unfold exp24; fold d; lia|].
  assert (E : (inject_Z (Zpos p) == Vabs p 0)%Q).
  { unfold Vabs. change (pow2 0) with 1%Q. ring. }
  rewrite E, (Vabs_shift p 0 (24 - d)) by lia.
  unfold Vabs, exp24. fold d. rewrite Hm.
  replace (0 - (24 - d)) with (d - 24) by lia. reflexivity.
Qed.

(** Rounding a sum whose value is known to lie between a quarter and
    [2^19] in magnitude. *)
Lemma normalize_close N e :
  let X := (inject_Z N * pow2 e)%Q in
  -100 <= e <= 0 ->
  (pow2 (-2) <= X /\ X < pow2 19 \/ pow2 (-2) <= - X /\ - X < pow2 19)%Q ->
  exists s mb eb,
    binary_normalize 24 128 N e false = S754_finite s mb eb /\
    eb <= -4 /\
    (X - (1 # 16) <= SF2Q (S754_finite s mb eb))%Q /\
    (SF2Q (S754_finite s mb eb) <= X + (1 # 16))%Q.
Proof.
  intros X He HX.
  assert (P := pow2_pos e). assert (P2 := pow2_pos (-2)).
  destruct N as [|p|p].
  - exfalso. unfold X in HX. 
    assert (E : (inject_Z 0 * pow2 e == 0)%Q) by ring.
    rewrite E in HX. lra.
  - assert (EX : (X == Vabs p e)%Q) by reflexivity.
    assert (PX := Vabs_pos p e).
    assert (HX' : (pow2 (-2) <= Vabs p e /\ Vabs p e < pow2 19)%Q)
      by (destruct HX; lra).
    destruct HX' as [L U].
    apply magnitude_above in L. apply magnitude_below in U.
    cbn [binary_normalize].
    destruct (round_normal 24 128 ltac:(lia) false p e)
      as (mb & eb & -> & Hmb & Heb & C1 & C2 & _); try lia.
    exists false, mb, eb. split; [reflexivity|]. split; [lia|].
    assert (Pe : (pow2 eb <= pow2 (-4))%Q) by (apply pow2_le; lia).
    change (pow2 (-4)) with (1 # 16)%Q in Pe.
    rewrite SF2Q_finite, EX. split; lra.
  - assert (EX : (X == - Vabs p e)%Q).
    { unfold X, Vabs. change (Zneg p) with (- Zpos p).
      rewrite inject_Z_opp. ring. }
    assert (PX := Vabs_pos p e).
    assert (HX' : (pow2 (-2) <= Vabs p e /\ Vabs p e < pow2 19)%Q)
      by (destruct HX; lra).
    destruct HX' as [L U].
    apply magnitude_above in L. apply magnitude_below in U.
    cbn [binary_normalize].
    destruct (round_normal 24 128 ltac:(lia) true p e)
      as (mb & eb & -> & Hmb & Heb & C1 & C2 & _); try lia.
    exists true, mb, eb. split; [reflexivity|]. split; [lia|].
    assert (Pe : (pow2 eb <= pow2 (-4))%Q) by (apply pow2_le; lia).
    change (pow2 (-4)) with (1 # 16)%Q in Pe.
    rewrite SF2Q_finite, EX. split; lra.
Qed.

(** Round half up of a number within a quarter of a non-zero integer. *)
Lemma round_half_up_near sK mt et K :
  -24 <= et <= 100 -> K <> 0 -> Z.abs K < 2 ^ 19 ->
  (inject_Z K - (1 # 4) <= SF2Q (S754_finite sK mt et))%Q ->
  (SF2Q (S754_finite sK mt et) <= inject_Z K + (1 # 4))%Q ->
  round_half_up Float (S754_finite sK mt et) = small_float K.
Proof.
  intros He HK0 HK L U.
  unfold round_half_up. change (round_to Float half_d) with half_f.
  change (prec Float) with 24. change (emax Float) with 128.
  unfold half_f. cbn [SFadd].
  replace (Z.min et (-24)) with (-24) by lia.
  change (fst (shl_align 8388608 (-24) (-24))) with 8388608%positive.
  cbn [cond_Zopp].
  set (N := cond_Zopp sK (Zpos (fst (shl_align mt et (-24)))) + 8388608).
  assert (EN : (inject_Z N * pow2 (-24)
                == SF2Q (S754_finite sK mt et) + (1 # 2))%Q).
  { unfold N. rewrite shl_align_value by lia.
    rewrite cond_Zopp_mul, inject_Z_plus, inject_Z_mult.
    cbn [SF2Q].
    replace et with (-24 + (et - -24)) at 2 by lia.
    rewrite pow2_shift by lia.
    change (inject_Z 8388608 * pow2 (-24))%Q with (1 # 2)%Q.
    assert (H8 : (inject_Z 8388608 * pow2 (-24) == 1 # 2)%Q) by reflexivity.
    ring_simplify. rewrite <- H8. ring. }
  assert (K1 : (inject_Z K <= -1 \/ 1 <= inject_Z K)%Q).
  { destruct (Z_lt_le_dec K 0); [left|right].
    - change (-1)%Q with (inject_Z (-1)). rewrite <- Zle_Qle. lia.
    - change 1%Q with (inject_Z 1). rewrite <- Zle_Qle. lia. }
  assert (K2 : (- 524287 <= inject_Z K /\ inject_Z K <= 524287)%Q).
  { split.
    - change (-524287)%Q with (inject_Z (-524287)). rewrite <- Zle_Qle. lia.
    - change 524287%Q with (inject_Z 524287). rewrite <- Zle_Qle. lia. }
  destruct (normalize_close N (-24)) as (s & mb & eb & -> & Heb & B1 & B2).
  { lia. }
  { rewrite EN. change (pow2 (-2)) with (1 # 4)%Q.
    change (pow2 19) with 524288%Q.
    destruct K1; [right|left]; split; lra. }
  rewrite EN in B1, B2.
  cbn [SFfloor].
  destruct (Z.leb_spec 0 eb) as [F|_]; [lia|].
  change (prec Float) with 24. change (emax Float) with 128.
  assert (F1 : (inject_Z K <= SF2Q (S754_finite s mb eb))%Q) by lra.
  assert (F2 : (SF2Q (S754_finite s mb eb) < inject_Z K + 1)%Q) by lra.
  cbn [SF2Q] in F1, F2.
  rewrite (floor_from_value _ eb K) by (assumption || lia).
  now apply normalize_small_sign; lia.
Qed.

(** ** Levels survive the round trip at ordinary scales *)

Lemma ordinary_scale_normal scale :
  ordinary_scale scale = true ->
  exists ss Ms Es,
    scale = S754_finite ss Ms Es /\
    2 ^ 52 <= Zpos Ms < 2 ^ 53 /\ -153 <= Es <= 47.
Proof.
  destruct scale as [| | |ss Ms Es]; try discriminate.
  unfold ordinary_scale, valid, valid_binary, bounded, canonical_mantissa.
  change (prec Double) with 53. change (emax Double) with 1024.
  intros H. repeat (apply andb_true_iff in H; destruct H as [H ?]).
  apply Z.eqb_eq in H. unfold fexp, emin in H.
  pose proof (digits_bounds Ms) as B.
  assert (Hd : Zpos (digits2_pos Ms) = 53) by lia.
  rewrite Hd in *. exists ss, Ms, Es. split; [reflexivity|].
  split; [exact B|lia].
Qed.

(** Dequantising and requantising a level at most [2^19 - 1] away from
    [zero_point] gives the level back, whatever the ordinary scale. *)
Lemma requantize_magnitude ss Ms Es sK p :
  2 ^ 52 <= Zpos Ms < 2 ^ 53 -> -153 <= Es <= 47 -> Zpos p < 2 ^ 19 ->
  round_half_up Float
    (SFmul 24 128
       (SFmul 24 128 (S754_finite sK (mant24 p) (exp24 p))
          (round_to Float (S754_finite ss Ms Es)))
       (round_to Float (inv_scale (S754_finite ss Ms Es))))
  = small_float (cond_Zopp sK (Zpos p)).
Proof.
  intros HM HE Hp.
  assert (Hd : Zpos (digits2_pos Ms) = 53) by (apply digits_unique; lia).
  destruct (round_normal 24 128 ltac:(lia) ss Ms Es)
    as (ms & es & Es32 & Hms & Hes & _ & _ & S1 & S2); try lia.
  destruct (inv_scale_normal ss Ms Es HM HE)
    as (mi & ei & Ei64 & Hmi & Hei & V1 & V2).
  assert (Hdi : Zpos (digits2_pos mi) = 53) by (apply digits_unique; lia).
  destruct (round_normal 24 128 ltac:(lia) ss mi ei)
    as (mj & ej & Ei32 & Hmj & Hej & _ & _ & I1 & I2); try lia.
  rewrite Ei64. cbn [round_to].
  change (prec Float) with 24. change (emax Float) with 128.
  rewrite Es32, Ei32.
  destruct (mant24_normal p 19 Hp ltac:(lia)) as (Hmk & Hek & VK).
  destruct (mul_normal 24 128 ltac:(lia) sK (mant24 p) (exp24 p) ss ms es)
    as (my & ey & -> & Hmy & Hey & Y1 & Y2); try lia.
  destruct (mul_normal 24 128 ltac:(lia) (xorb sK ss) my ey ss mj ej)
    as (mt & et & -> & Hmt & Het & T1 & T2); try lia.
  replace (xorb (xorb sK ss) ss) with sK by (destruct sK, ss; reflexivity).
  change (pow2 (1 - 24)) with (1 # 8388608)%Q in *.
  rewrite VK in Y1, Y2.
  assert (K1 : (1 <= inject_Z (Zpos p))%Q).
  { change 1%Q with (inject_Z 1). rewrite <- Zle_Qle. lia. }
  assert (K2 : (inject_Z (Zpos p) <= 524287)%Q).
  { change 524287%Q with (inject_Z 524287). rewrite <- Zle_Qle. lia. }
  destruct (chain_bound (Vabs Ms Es) (Vabs ms es) (Vabs mi ei) (Vabs mj ej)
              (inject_Z (Zpos p)) (Vabs my ey) (Vabs mt et)) as [C1 C2];
    try apply Vabs_pos; try assumption.
  apply round_half_up_near.
  - lia.
  - destruct sK; cbn; lia.
  - destruct sK; cbn [cond_Zopp]; lia.
  - rewrite SF2Q_finite. destruct sK; cbn [cond_Zopp].
    + change (- Zpos p) with (- (Zpos p)). rewrite inject_Z_opp. lra.
    + lra.
  - rewrite SF2Q_finite. destruct sK; cbn [cond_Zopp].
    + change (- Zpos p) with (- (Zpos p)). rewrite inject_Z_opp. lra.
    + lra.
Qed.

Lemma requantize_level scale zero_point n :
  ordinary_scale scale = true ->
  0 <= zero_point < 2 ^ 22 -> Z.abs (n - zero_point) < 2 ^ 19 ->
  Xq_elt Float scale zero_point
    (dequantize_elt Float scale zero_point (of_int Float n))
  = of_int Float n.
Proof.
  intros Hs Hzp Hn.
  destruct (ordinary_scale_normal scale Hs) as (ss & Ms & Es & -> & HM & HE).
  unfold Xq_elt, dequantize_elt.
  change (prec Float) with 24. change (emax Float) with 128.
  rewrite !of_int_small by lia.
  rewrite sub_small by lia.
  destruct (n - zero_point) as [|p|p] eqn:EK.
  - (* the level [zero_point] itself *)
    assert (n = zero_point) by lia. subst n.
    destruct (round_normal 24 128 ltac:(lia) ss Ms Es)
      as (ms & es & Es32 & _); try lia.
    { assert (Zpos (digits2_pos Ms) = 53) by (apply digits_unique; lia).
      lia. }
    { assert (Zpos (digits2_pos Ms) = 53) by (apply digits_unique; lia).
      lia. }
    destruct (inv_scale_normal ss Ms Es HM HE)
      as (mi & ei & Ei64 & Hmi & Hei & _).
    assert (Hdi : Zpos (digits2_pos mi) = 53) by (apply digits_unique; lia).
    destruct (round_normal 24 128 ltac:(lia) ss mi ei)
      as (mj & ej & Ei32 & _); try lia.
    rewrite Ei64. cbn [round_to].
    change (prec Float) with 24. change (emax Float) with 128.
    rewrite Es32, Ei32. cbn [small_float SFmul].
    replace (round_half_up Float (S754_zero (xorb (xorb false ss) ss)))
      with (S754_zero false) by (destruct ss; reflexivity).
    destruct zero_point; reflexivity.
  - change (small_float (Zpos p))
      with (S754_finite false (mant24 p) (exp24 p)).
    rewrite requantize_magnitude by lia.
    cbn [cond_Zopp]. rewrite add_small by lia. f_equal. lia.
  - change (small_float (Zneg p))
      with (S754_finite true (mant24 p) (exp24 p)).
    rewrite requantize_magnitude by lia.
    cbn [cond_Zopp]. rewrite add_small by lia. f_equal. lia.
Qed.

Lemma levels_stable_ordinary scale zero_point quant_min quant_max :
  ordinary_scale scale = true ->
  0 <= zero_point < 2 ^ 22 ->
  zero_point - 2 ^ 19 < quant_min -> quant_max < zero_point + 2 ^ 19 ->
  levels_stable scale zero_point quant_min quant_max = true.
Proof.
  intros Hs Hzp Hlo Hhi. unfold levels_stable.
  apply forallb_forall. intros n Hn. apply levels_in_range in Hn.
  unfold level_stable. rewrite requantize_level by (assumption || lia).
  apply spec_float_eqb_refl.
Qed.

(** ** Idempotence of the forward operator at ordinary scales *)

(** Idempotence of the forward operator where every level survives the
    round trip. *)
Lemma forward_idempotent_stable
    self scale zero_point quant_min quant_max quant_delay iter :
  scalar_type self = Float ->
  params_valid zero_point quant_min quant_max quant_delay iter ->
  gate_active quant_delay iter ->
  zero_point < 2 ^ 23 -> - 2 ^ 23 < quant_min -> quant_max < 2 ^ 23 ->
  levels_stable scale zero_point quant_min quant_max = true ->
  exists Y,
    fake_quantize_per_tensor_affine_cpu self scale zero_point quant_min
      quant_max quant_delay iter = Ok Y /\
    fake_quantize_per_tensor_affine_cpu Y scale zero_point quant_min
      quant_max quant_delay iter = Ok Y.
Proof.
  intros Hty Hval Hgate Hz Hlo Hhi Hst.
  assert (Hval' := Hval). destruct Hval' as (Hr & Hz0 & _).
  rewrite !forward_unfold by assumption.
  rewrite forward_checks_pass by assumption.
  rewrite suppressed_false by assumption.
  eexists. split; [reflexivity|].
  rewrite forward_unfold by (rewrite scalar_type_pointwise; assumption).
  rewrite forward_checks_pass by assumption.
  rewrite suppressed_false by assumption.
  f_equal. unfold pointwise. cbn [scalar_type data]. f_equal.
  rewrite map_map. apply map_ext. intros x.
  apply fake_quantize_elt_idempotent; (assumption || lia).
Qed.

(** C7, amended.  For a [Float] input, parameters passing validation and
    the delay gate active: applying the forward operator twice gives the
    array that applying it once gives, provided [scale] is a finite binary64
    number with [2^-101 <= |scale| < 2^100], [zero_point < 2^22] and every
    level lies less than [2^19] away from [zero_point]
    ([zero_point - 2^19 < quant_min] and [quant_max < zero_point + 2^19]),
    as in every 8-bit and 16-bit configuration.  Then each level [n]
    survives dequantisation and requantisation in binary32: the four
    roundings of [((n - zero_point) * scale) * (1/scale)] move it by less
    than a quarter. *)
Theorem C7_idempotent_ordinary
    self scale zero_point quant_min quant_max quant_delay iter :
  scalar_type self = Float ->
  params_valid zero_point quant_min quant_max quant_delay iter ->
  gate_active quant_delay iter ->
  ordinary_scale scale = true ->
  zero_point < 2 ^ 22 ->
  zero_point - 2 ^ 19 < quant_min -> quant_max < zero_point + 2 ^ 19 ->
  exists Y,
    fake_quantize_per_tensor_affine_cpu self scale zero_point quant_min
      quant_max quant_delay iter = Ok Y /\
    fake_quantize_per_tensor_affine_cpu Y scale zero_point quant_min
      quant_max quant_delay iter = Ok Y.
Proof.
  intros Hty Hval Hgate Hs Hz Hlo Hhi.
  assert (Hz0 : 0 <= zero_point) by (destruct Hval as (_ & H & _); exact H).
  apply forward_idempotent_stable; try assumption; try lia.
  apply levels_stable_ordinary; (assumption || lia).
Qed.

Lemma C7_idempotent_ordinary_witness :
  exists Y,
    fake_quantize_per_tensor_affine_cpu X_scenario (f64 1 10) 128 0 255 0 0
    = Ok Y /\
    fake_quantize_per_tensor_affine_cpu Y (f64 1 10) 128 0 255 0 0 = Ok Y.
Proof.
  apply (C7_idempotent_ordinary X_scenario (f64 1 10) 128 0 255 0 0).
  - reflexivity.
  - unfold params_valid. lia.
  - left. reflexivity.
  - reflexivity.
  - reflexivity.
  - reflexivity.
  - reflexivity.
Defined.
